(** * Termux-CUE: cue-sheet parser and album processing, embedded in Rocq

    Shallow embedding of [core/parser.py] ([CueParser]), of the aggregation
    and dispatch logic of [core/processor.py] ([AudioProcessor]) and of the
    concurrency-mode selection of [core/cli.py] ([Cli.run]).

    Conventions of the embedding.
    - Python [str] is [string]; characters are classified with Python's
      tables for code points below 128 ([str.isspace], [\w], [\d]).  Cue
      text outside ASCII is outside the model; the non-ASCII literals the
      program itself writes are kept as their UTF-8 bytes.
    - Python [int] is [Z] (unbounded); [int] of a string has no limit on
      the number of digits (CPython 3.11 and later reject literals of more
      than 4300 digits unless the limit is lifted; such literals are
      outside the model).  Python [float] is Rocq's primitive
      binary64 [float]; conversion of an [int] to a [float] rounds to
      nearest-even and raises [OverflowError] when the result is not finite,
      as CPython's [PyLong_AsDouble] does.
    - A [dict] is a [gmap string val].  Track dictionaries are mutable
      objects that the parser aliases ([current_track_info] and the entries
      of [tracks_data] point at the same object), so they live in an object
      store and are referred to by location.
    - Exceptions are the [Raise] results of an error monad. *)

From Stdlib Require Import ZArith String Ascii List Bool Lia Sorted.
From Stdlib Require Import Floats.PrimFloat Floats.SpecFloat Floats.FloatOps.
From stdpp Require Import base option list strings gmap.

Open Scope string_scope.

(** ** Python values and exceptions *)

Inductive val : Type :=
| VNone
| VInt (n : Z)
| VFloat (f : float)
| VStr (s : string).

Abbreviation dict := (gmap string val).

Inductive exn : Type :=
| KeyError (key : string)
| OverflowError
| TypeError
| ValueError
| IndexError
| OSError
| CalledProcessError (stderr : string)
| OtherError (what : string).

Inductive result (A : Type) : Type :=
| Ok (a : A)
| Raise (e : exn).

Arguments Ok {A} a.
Arguments Raise {A} e.

#[export] Instance result_ret : MRet result := fun _ a => Ok a.

#[export] Instance result_bind : MBind result := fun _ _ k m =>
  match m with
  | Ok a => k a
  | Raise e => Raise e
  end.

Definition is_ok {A} (m : result A) : bool :=
  match m with Ok _ => true | Raise _ => false end.

(** [d[k]]: a missing key raises [KeyError]. *)
Definition getitem (d : dict) (k : string) : result val :=
  match d !! k with
  | Some v => Ok v
  | None => Raise (KeyError k)
  end.

(** [d.get(k)]: a missing key gives [None]. *)
Definition dict_get (d : dict) (k : string) : val :=
  default VNone (d !! k).

(** Truth value of a dict: non-empty. *)
Definition dict_truthy (d : dict) : bool := negb (Nat.eqb (size d) 0).

(** Monadic left fold: a [for] loop whose body may raise. *)
Fixpoint foldM {A B} (f : A -> B -> result A) (a : A) (l : list B) : result A :=
  match l with
  | [] => Ok a
  | b :: l' => a' ← f a b; foldM f a' l'
  end.

(** ** Characters and strings (Python [str] methods and the regular
       expressions of the source, over ASCII) *)

Module Str.

Definition code (c : ascii) : nat := nat_of_ascii c.

Definition between (lo hi : nat) (c : ascii) : bool :=
  (lo <=? code c)%nat && (code c <=? hi)%nat.

(** [str.isspace] / regex [\s]: TAB..CR, FS..US and the space. *)
Definition is_space (c : ascii) : bool := between 9 13 c || between 28 32 c.

(** The white space [int] skips around an ASCII literal (C's [isspace]):
    TAB..CR and the space, but not FS..US. *)
Definition is_c_space (c : ascii) : bool := between 9 13 c || between 32 32 c.

(** Regex [\d] and the digits [int()] accepts. *)
Definition is_digit (c : ascii) : bool := between 48 57 c.

Definition is_upper (c : ascii) : bool := between 65 90 c.
Definition is_lower (c : ascii) : bool := between 97 122 c.

(** Regex [\w]. *)
Definition is_word (c : ascii) : bool :=
  is_digit c || is_upper c || is_lower c || Ascii.eqb c "_".

Definition dquote : ascii := ascii_of_nat 34.
Definition newline : ascii := ascii_of_nat 10.

Definition upper_char (c : ascii) : ascii :=
  if is_lower c then ascii_of_nat (code c - 32) else c.
Definition lower_char (c : ascii) : ascii :=
  if is_upper c then ascii_of_nat (code c + 32) else c.

Fixpoint map_chars (f : ascii -> ascii) (s : string) : string :=
  match s with
  | EmptyString => EmptyString
  | String c s' => String (f c) (map_chars f s')
  end.

Definition upper : string -> string := map_chars upper_char.
Definition lower : string -> string := map_chars lower_char.

Fixpoint take_while (p : ascii -> bool) (s : string) : string :=
  match s with
  | EmptyString => EmptyString
  | String c s' => if p c then String c (take_while p s') else EmptyString
  end.

Fixpoint drop_while (p : ascii -> bool) (s : string) : string :=
  match s with
  | EmptyString => EmptyString
  | String c s' => if p c then drop_while p s' else s
  end.

Fixpoint rev_acc (s acc : string) : string :=
  match s with
  | EmptyString => acc
  | String c s' => rev_acc s' (String c acc)
  end.

Definition rev (s : string) : string := rev_acc s EmptyString.

Definition lstrip_by (p : ascii -> bool) (s : string) : string := drop_while p s.
Definition rstrip_by (p : ascii -> bool) (s : string) : string :=
  rev (drop_while p (rev s)).

(** [s.strip()] *)
Definition strip (s : string) : string := rstrip_by is_space (lstrip_by is_space s).

(** [s.strip(c)] for a one-character argument. *)
Definition strip_char (c : ascii) (s : string) : string :=
  rstrip_by (Ascii.eqb c) (lstrip_by (Ascii.eqb c) s).

Definition is_empty (s : string) : bool :=
  match s with EmptyString => true | _ => false end.

(** [all(p(c) for c in s)] *)
Fixpoint forall_chars (p : ascii -> bool) (s : string) : bool :=
  match s with
  | EmptyString => true
  | String c s' => p c && forall_chars p s'
  end.

(** [s.startswith(p)] *)
Fixpoint startswith (p s : string) : bool :=
  match p, s with
  | EmptyString, _ => true
  | String a p', String b s' => Ascii.eqb a b && startswith p' s'
  | String _ _, EmptyString => false
  end.

(** [p in s] *)
Fixpoint contains (p s : string) : bool :=
  startswith p s ||
  match s with
  | EmptyString => false
  | String _ s' => contains p s'
  end.

(** [s.split()]: the maximal runs of non-space characters.  [cur] is the
    token being read, reversed; [None] between tokens. *)
Fixpoint split_ws_go (s : string) (cur : option string) : list string :=
  match s with
  | EmptyString =>
      match cur with Some t => [rev t] | None => [] end
  | String c s' =>
      if is_space c then
        match cur with
        | Some t => rev t :: split_ws_go s' None
        | None => split_ws_go s' None
        end
      else
        split_ws_go s' (Some (String c (default EmptyString cur)))
  end.

Definition split_ws (s : string) : list string := split_ws_go s None.

(** [s.split(sep)] for a one-character separator: always at least one
    field. *)
Fixpoint split_on_go (sep : ascii) (s : string) (cur : string) : list string :=
  match s with
  | EmptyString => [rev cur]
  | String c s' =>
      if Ascii.eqb c sep then rev cur :: split_on_go sep s' EmptyString
      else split_on_go sep s' (String c cur)
  end.

Definition split_on (sep : ascii) (s : string) : list string :=
  split_on_go sep s EmptyString.

(** [sep.join(l)] *)
Fixpoint join (sep : string) (l : list string) : string :=
  match l with
  | [] => EmptyString
  | [x] => x
  | x :: l' => x ++ sep ++ join sep l'
  end.

(** [re.split(r'\s+', s, 1)]: cut at the leftmost run of white space. *)
Definition re_split_ws1 (s : string) : list string :=
  let head := take_while (fun c => negb (is_space c)) s in
  let rest := drop_while (fun c => negb (is_space c)) s in
  match rest with
  | EmptyString => [s]
  | String _ _ => [head; drop_while is_space rest]
  end.

(** [re.match(r'(\d+)', s)]: the leading digits, if any. *)
Definition re_match_digits (s : string) : option string :=
  match take_while is_digit s with
  | EmptyString => None
  | ds => Some ds
  end.

(** One attempt of the quoted-argument regex (quote, one or more non-quote
    characters captured as group 1, quote) right after an opening quote:
    the greedy run of non-quote characters must be non-empty and followed
    by a quote. *)
Definition quoted_at (s : string) : option string :=
  let body := take_while (fun c => negb (Ascii.eqb c dquote)) s in
  match body, drop_while (fun c => negb (Ascii.eqb c dquote)) s with
  | String _ _, String _ _ => Some body
  | _, _ => None
  end.

(** [re.search] of the quoted-argument regex: the leftmost position where
    the attempt succeeds; group 1. *)
Fixpoint re_search_quoted (s : string) : option string :=
  match s with
  | EmptyString => None
  | String c s' =>
      if Ascii.eqb c dquote then
        match quoted_at s' with
        | Some q => Some q
        | None => re_search_quoted s'
        end
      else re_search_quoted s'
  end.

Definition digit_value (c : ascii) : Z := Z.of_nat (code c - 48).

(** Value of a string of decimal digits, most significant first. *)
Fixpoint digits_value (acc : Z) (s : string) : Z :=
  match s with
  | EmptyString => acc
  | String c s' => digits_value (10 * acc + digit_value c) s'
  end.

(** The digits part of an integer literal: digits, with single underscores
    allowed between digits.  [prev] tells whether the previous character
    was a digit. *)
Fixpoint int_body (s : string) (prev : bool) (acc : Z) : option Z :=
  match s with
  | EmptyString => if prev then Some acc else None
  | String c s' =>
      if is_digit c then int_body s' true (10 * acc + digit_value c)
      else if Ascii.eqb c "_" && prev then int_body s' false acc
      else None
  end.

(** [int(s)] on a string: surrounding white space, an optional sign, and
    the digits.  [None] stands for [ValueError]. *)
Definition py_int (s : string) : option Z :=
  match rstrip_by is_c_space (lstrip_by is_c_space s) with
  | String "-" s' => z ← int_body s' false 0; Some (- z)%Z
  | String "+" s' => int_body s' false 0
  | s' => int_body s' false 0
  end.

Definition digit_char (n : nat) : ascii := ascii_of_nat (48 + n).

Fixpoint of_uint (d : Decimal.uint) : string :=
  match d with
  | Decimal.Nil => EmptyString
  | Decimal.D0 d => String (digit_char 0) (of_uint d)
  | Decimal.D1 d => String (digit_char 1) (of_uint d)
  | Decimal.D2 d => String (digit_char 2) (of_uint d)
  | Decimal.D3 d => String (digit_char 3) (of_uint d)
  | Decimal.D4 d => String (digit_char 4) (of_uint d)
  | Decimal.D5 d => String (digit_char 5) (of_uint d)
  | Decimal.D6 d => String (digit_char 6) (of_uint d)
  | Decimal.D7 d => String (digit_char 7) (of_uint d)
  | Decimal.D8 d => String (digit_char 8) (of_uint d)
  | Decimal.D9 d => String (digit_char 9) (of_uint d)
  end.

(** [str(n)] / the [{n}] of an f-string, for an [int]. *)
Definition of_Z (z : Z) : string :=
  match z with
  | Z0 => "0"
  | Zpos p => of_uint (Pos.to_uint p)
  | Zneg p => String "-" (of_uint (Pos.to_uint p))
  end.

(** The format [{n:02d}]: zero padding to width two, the sign counted. *)
Definition format_02d (z : Z) : string :=
  if ((0 <=? z) && (z <? 10))%Z then String (digit_char 0) (of_Z z) else of_Z z.

End Str.

(** ** Floats *)

(** Conversion of a Python [int] to a [float]: correctly rounded
    (nearest-even); [OverflowError] when the rounded value is not finite. *)
Definition float_of_int (z : Z) : result float :=
  match binary_normalize FloatOps.prec FloatOps.emax z 0 false with
  | S754_zero s => Ok (SF2Prim (S754_zero s))
  | S754_finite s m e => Ok (SF2Prim (S754_finite s m e))
  | S754_infinity _ | S754_nan => Raise OverflowError
  end.

(** ** core/parser.py: [CueParser] *)

Module CueParser.

(** A track dictionary is an object of the store, named by its index. *)
Abbreviation loc := nat.

Record state : Type := State {
  album_data : dict;
  tracks_data : list loc;
  store : list dict;
  current_track_info : option loc
}.

Definition deref (h : list dict) (l : loc) : dict := default ∅ (h !! l).

(** [obj[k] = v] on the object at [l]. *)
Definition setitem_at (l : loc) (k : string) (v : val) (h : list dict) : list dict :=
  alter (insert k v) l h.

(** Truth value of [current_track_info]: not [None] and a non-empty dict. *)
Definition current_truthy (st : state) : bool :=
  match current_track_info st with
  | Some l => dict_truthy (deref (store st) l)
  | None => false
  end.

Definition set_album (k : string) (v : val) (st : state) : state :=
  State (<[k := v]> (album_data st)) (tracks_data st) (store st)
        (current_track_info st).

Definition set_current (k : string) (v : val) (st : state) : state :=
  match current_track_info st with
  | Some l =>
      State (album_data st) (tracks_data st) (setitem_at l k v (store st))
            (current_track_info st)
  | None => st
  end.

(** [self.tracks_data.append(current_track_info)] *)
Definition append_current (st : state) : state :=
  match current_track_info st with
  | Some l =>
      State (album_data st) (tracks_data st ++ [l]) (store st)
            (current_track_info st)
  | None => st
  end.

(** [m * 60 + s + f / 75.0]: the division converts [f] to a float, the
    last addition converts the integer [m * 60 + s]. *)
Definition timestamp_seconds (m s f : Z) : result float :=
  let ms := (m * 60 + s)%Z in
  q ← (ff ← float_of_int f; Ok (ff / 75)%float);
  a ← float_of_int ms;
  Ok (a + q)%float.

(** [_parse_time]: three colon-separated integers, or 0.0 when [int] or the
    unpacking raises [ValueError].  The arithmetic is inside the [try], but
    [OverflowError] is not among the exceptions caught. *)
Definition _parse_time (t : string) : result float :=
  match map Str.py_int (Str.split_on ":" t) with
  | [Some m; Some s; Some f] => timestamp_seconds m s f
  | _ => Ok 0%float
  end.

(** The [re.match] of the loop body: optional white space, the command
    word (one or more word characters, group 1), optional white space, and
    the arguments (group 2: the rest of the line, the regex dot stopping at
    a newline). *)
Definition match_command (line : string) : option (string * string) :=
  let s := Str.drop_while Str.is_space line in
  match Str.take_while Str.is_word s with
  | EmptyString => None
  | command =>
      let rest := Str.drop_while Str.is_space (Str.drop_while Str.is_word s) in
      Some (command, Str.take_while (fun c => negb (Ascii.eqb c Str.newline)) rest)
  end.

(** The head of the loop body: the upper-cased command and its arguments,
    [None] for a line the loop skips. *)
Definition lex_line (raw : string) : option (string * string) :=
  let line := Str.strip raw in
  if Str.is_empty line then None
  else
    match match_command line with
    | Some (command, args) => Some (Str.upper command, args)
    | None => None
    end.

(** The default title: the f-string made of the label and the number. *)
Definition default_title (n : Z) : string := "音轨 " ++ Str.of_Z n.

Definition new_track (album : dict) (n : Z) : dict :=
  <["number" := VInt n]>
    (<["performer" := dict_get album "performer"]>
       (<["title" := VStr (default_title n)]> ∅)).

Definition do_track (st : state) (args : string) : state :=
  let st1 := if current_truthy st then append_current st else st in
  match Str.re_match_digits args with
  | Some ds =>
      let n := Str.digits_value 0 ds in
      State (album_data st1) (tracks_data st1)
            (store st1 ++ [new_track (album_data st1) n])
            (Some (length (store st1)))
  | None => st1
  end.

Definition do_file (st : state) (args : string) : state :=
  match current_track_info st with
  | None =>
      match Str.re_search_quoted args with
      | Some q => set_album "file" (VStr q) st
      | None =>
          match Str.split_ws args with
          | tok :: _ => set_album "file" (VStr tok) st
          | [] => st
          end
      end
  | Some _ => st
  end.

(** The [TITLE] and [PERFORMER] branches, which differ by the key they
    write. *)
Definition do_text (key : string) (st : state) (args : string) : state :=
  let stripped_args := Str.strip_char Str.dquote args in
  if current_truthy st then set_current key (VStr stripped_args) st
  else set_album key (VStr stripped_args) st.

Definition do_index (st : state) (args : string) : result state :=
  if current_truthy st && Str.startswith "01" args
     && (1 <? length (Str.split_ws args))%nat
  then
    match Str.split_ws args !! 1%nat with
    | Some t =>
        x ← _parse_time t;
        Ok (set_current "start_time" (VFloat x) st)
    | None => Raise IndexError
    end
  else Ok st.

Definition do_rem (st : state) (args : string) : state :=
  match Str.re_split_ws1 args with
  | [k; rem_value] =>
      let rem_key := Str.upper k in
      if Str.startswith "REPLAYGAIN_" rem_key then
        if current_truthy st && Str.contains "TRACK" rem_key
        then set_current (Str.lower rem_key) (VStr rem_value) st
        else if negb (current_truthy st) && Str.contains "ALBUM" rem_key
        then set_album (Str.lower rem_key) (VStr rem_value) st
        else st
      else st
  | _ => st
  end.

(** One iteration of the loop over [cue_content_lines]. *)
Definition parse_line (st : state) (raw : string) : result state :=
  match lex_line raw with
  | None => Ok st
  | Some (command, args) =>
      if String.eqb command "TRACK" then Ok (do_track st args)
      else if String.eqb command "FILE" then Ok (do_file st args)
      else if String.eqb command "TITLE" then Ok (do_text "title" st args)
      else if String.eqb command "PERFORMER" then Ok (do_text "performer" st args)
      else if String.eqb command "INDEX" then do_index st args
      else if String.eqb command "REM" then Ok (do_rem st args)
      else Ok st
  end.

(** A fresh parser: [album_data = {}], [tracks_data = []]. *)
Definition init : state := State ∅ [] [] None.

Definition parse_lines (st : state) (lines : list string) : result state :=
  foldM parse_line st lines.

(** One iteration of the end-time loop. *)
Definition set_end_time (tracks : list loc) (h : list dict) (i : nat)
  : result (list dict) :=
  match tracks !! i with
  | None => Raise IndexError
  | Some li =>
      if (i + 1 <? length tracks)%nat then
        match tracks !! (i + 1)%nat with
        | Some lj =>
            v ← getitem (deref h lj) "start_time";
            Ok (setitem_at li "end_time" v h)
        | None => Raise IndexError
        end
      else Ok (setitem_at li "end_time" VNone h)
  end.

Definition derive_end_times (tracks : list loc) (h : list dict)
  : result (list dict) :=
  foldM (set_end_time tracks) h (seq 0 (length tracks)).

(** What [parse] returns: the album record, the track list (references
    into the store) and the store holding the track objects. *)
Record parsed : Type := Parsed {
  p_album : dict;
  p_tracks : list loc;
  p_store : list dict
}.

(** The end of [parse]: the track being built is finalized; without any
    track the album record and the empty list are returned as they are;
    otherwise the end times are derived. *)
Definition finish (st : state) : result parsed :=
  let st := if current_truthy st then append_current st else st in
  match tracks_data st with
  | [] => Ok (Parsed (album_data st) [] (store st))
  | _ =>
      h ← derive_end_times (tracks_data st) (store st);
      Ok (Parsed (album_data st) (tracks_data st) h)
  end.

(** [CueParser.parse] of a freshly constructed parser. *)
Definition parse (cue_content_lines : list string) : result parsed :=
  match cue_content_lines with
  | [] => Ok (Parsed ∅ [] [])
  | _ => st ← parse_lines init cue_content_lines; finish st
  end.

(** The [i]-th track record of a result, read through the store. *)
Definition track (p : parsed) (i : nat) : option dict :=
  l ← p_tracks p !! i; p_store p !! l.

Definition track_records (p : parsed) : list dict :=
  map (deref (p_store p)) (p_tracks p).

End CueParser.

(** ** Effects of the album processor and of the batch orchestrator *)

(** What the code does to the outside world, in program order.  The text of
    a [print] is kept as the list of its pieces, literal text and formatted
    values, in order. *)
Inductive event : Type :=
| EMakedirs (path : string)
| EPrint (parts : list val)
| EProbe (input_file : string)
| ETrackPool (processes : nat)
| ESplit (track_info : dict)
| EAlbumPool (processes : nat)
| EWorker (file_path : string) (use_track_concurrency : bool)
| EReset.

(** A computation that logs events and may raise. *)
Definition io (A : Type) : Type := (list event * result A)%type.

#[export] Instance io_ret : MRet io := fun _ a => ([], Ok a).

#[export] Instance io_bind : MBind io := fun _ _ k m =>
  match m with
  | (t, Ok a) => let '(t', r) := k a in ((t ++ t')%list, r)
  | (t, Raise e) => (t, Raise e)
  end.

Definition emit (e : event) : io unit := ([e], Ok tt).
Definition lift {A} (r : result A) : io A := ([], r).
Definition trace {A} (m : io A) : list event := fst m.
Definition outcome {A} (m : io A) : result A := snd m.

(** A [for] loop with [results.append]: it stops at the first iteration
    that raises. *)
Fixpoint mapM_io {A B} (f : A -> io B) (l : list A) : io (list B) :=
  match l with
  | [] => mret []
  | a :: l' => b ← f a; bs ← mapM_io f l'; mret (b :: bs)
  end.

(** [pool.map]: every task runs; the results come back in task order, and
    an exception raised by a task (the first one in task order) is raised
    again in the parent once the tasks are done.  The events of the tasks
    are logged in task order; the order in which the workers complete is
    not specified. *)
Fixpoint pool_map {A B} (f : A -> io B) (l : list A) : io (list B) :=
  match l with
  | [] => mret []
  | a :: l' =>
      let '(t1, r1) := f a in
      let '(t2, r2) := pool_map f l' in
      ((t1 ++ t2)%list, b ← r1; bs ← r2; Ok (b :: bs))
  end.

(** The external collaborators: the machine, the file system, the audio
    engine ([ffmpeg]) and the tag library ([mutagen]).  [ffmpeg_probe] is
    the diagnostic text of the duration probe (the probe raises when the
    engine cannot be started), [ffmpeg_run] raises
    [CalledProcessError] with the captured diagnostic when the engine
    fails, [getpid] is the process id of the worker that handles a task and
    [format_exc] the text of a traceback. *)
Record ffmpeg_command : Type := FfmpegCommand {
  ff_input : string;
  ff_ss : val;
  ff_to : option val;
  ff_output : string
}.

Record world : Type := World {
  cpu_count : nat;
  makedirs : string -> result unit;
  ffmpeg_probe : string -> result string;
  ffmpeg_run : ffmpeg_command -> result unit;
  getpid : string -> Z;
  mutagen_write : string -> dict -> dict -> nat -> result unit;
  format_exc : exn -> string
}.

(** ** core/processor.py: [AudioProcessor] *)

Module AudioProcessor.

Import CueParser.

Definition nl : string := String Str.newline EmptyString.

(** The characters the two [re.sub] calls replace by an underscore. *)
Definition is_illegal (c : ascii) : bool :=
  existsb (Ascii.eqb c) ["\"; "/"; "*"; "?"; ":"; Str.dquote; "<"; ">"; "|"]%char.

Definition sanitize (s : string) : string :=
  Str.map_chars (fun c => if is_illegal c then "_"%char else c) s.

(** [os.path.join] of two components (POSIX). *)
Definition path_join (a b : string) : string :=
  if Str.startswith "/" b then b
  else if Str.is_empty a || Str.startswith "/" (Str.rev a) then a ++ b
  else a ++ "/" ++ b.

(** The part of [s] after the last occurrence of [c], if [c] occurs. *)
Fixpoint after_last (c : ascii) (s : string) : option string :=
  match s with
  | EmptyString => None
  | String a s' =>
      match after_last c s' with
      | Some t => Some t
      | None => if Ascii.eqb a c then Some s' else None
      end
  end.

(** [os.path.splitext(p)[1]]: from the last dot of the base name, leading
    dots of the base name not counting. *)
Definition splitext_ext (p : string) : string :=
  let base := default p (after_last "/" p) in
  match after_last "." (Str.drop_while (Ascii.eqb ".") base) with
  | Some e => String "." e
  | None => EmptyString
  end.

Definition as_str (v : val) : result string :=
  match v with VStr s => Ok s | _ => Raise TypeError end.

Definition as_int (v : val) : result Z :=
  match v with VInt n => Ok n | _ => Raise TypeError end.

Definition two_digits (a b : ascii) : option Z :=
  if Str.is_digit a && Str.is_digit b
  then Some (Str.digits_value 0 (String a (String b EmptyString)))
  else None.

(** The duration regex anchored at the start of [s]: the literal label,
    then hours, minutes, seconds and hundredths, two digits each. *)
Definition duration_at (s : string) : option (Z * Z * Z * Z) :=
  if Str.startswith "Duration: " s then
    match list_ascii_of_string s with
    | _ :: _ :: _ :: _ :: _ :: _ :: _ :: _ :: _ :: _ ::
      h1 :: h2 :: c1 :: m1 :: m2 :: c2 :: s1 :: s2 :: d :: x1 :: x2 :: _ =>
        if Ascii.eqb c1 ":" && Ascii.eqb c2 ":" && Ascii.eqb d "." then
          h ← two_digits h1 h2; m ← two_digits m1 m2;
          s ← two_digits s1 s2; hs ← two_digits x1 x2;
          Some (h, m, s, hs)
        else None
    | _ => None
    end
  else None.

(** [re.search] of the duration regex: the leftmost match. *)
Fixpoint re_search_duration (s : string) : option (Z * Z * Z * Z) :=
  match duration_at s with
  | Some r => Some r
  | None =>
      match s with
      | EmptyString => None
      | String _ s' => re_search_duration s'
      end
  end.

(** [h * 3600 + m * 60 + s + hs / 100.0] *)
Definition duration_seconds (d : Z * Z * Z * Z) : result float :=
  let '(h, m, s, hs) := d in
  q ← (x ← float_of_int hs; Ok (x / 100)%float);
  a ← float_of_int (h * 3600 + m * 60 + s);
  Ok (a + q)%float.

Definition outcome_t : Type := (bool * option string)%type.

Section Processor.

Context (w : world).

(** The constructor argument [output_dir] ([None] by default). *)
Context (output_dir : option string).

(** [self.output_dir if self.output_dir else
    os.path.join(source_dir, album_title)] *)
Definition choose_output_path (source_dir album_title : string) : string :=
  match output_dir with
  | Some d => if Str.is_empty d then path_join source_dir album_title else d
  | None => path_join source_dir album_title
  end.

(** [_write_tags]: only FLAC and MP3 outputs are tagged; the tagging itself
    is the tag library's. *)
Definition _write_tags (file_path : string) (track_info album_info : dict)
    (total_tracks : nat) : result unit :=
  let file_ext := Str.lower (splitext_ext file_path) in
  if String.eqb file_ext ".flac" || String.eqb file_ext ".mp3"
  then mutagen_write w file_path track_info album_info total_tracks
  else Ok tt.

(** The body of the [try] of [_process_single_track]. *)
Definition split_body (number : Z) (track_info album_info : dict)
    (input_file out_dir : string) (total_tracks : nat) : result unit :=
  let file_extension := Str.lower (splitext_ext input_file) in
  title ← (v ← getitem track_info "title"; as_str v);
  let safe_track_title := sanitize title in
  let output_filename :=
    Str.format_02d number ++ " - " ++ safe_track_title ++ file_extension in
  let output_filepath := path_join out_dir output_filename in
  start ← getitem track_info "start_time";
  let to :=
    match dict_get track_info "end_time" with
    | VNone => None
    | v => Some v
    end in
  _ ← ffmpeg_run w (FfmpegCommand input_file start to output_filepath);
  _write_tags output_filepath track_info album_info total_tracks.

(** [_process_single_track]: the log prefix is computed outside the [try];
    inside it, every exception becomes a failed outcome. *)
Definition _process_single_track (track_info album_info : dict)
    (input_file out_dir : string) (total_tracks : nat) : result outcome_t :=
  number ← (v ← getitem track_info "number"; as_int v);
  let log_prefix := "[音轨 " ++ Str.format_02d number ++ "]" in
  match split_body number track_info album_info input_file out_dir total_tracks with
  | Ok _ => Ok (true, None)
  | Raise (CalledProcessError stderr) =>
      Ok (false,
          Some (log_prefix ++ " 处理失败。FFmpeg 返回错误:" ++ nl
                ++ "--- FFmpeg Stderr ---" ++ nl ++ Str.strip stderr ++ nl
                ++ "-----------------------"))
  | Raise e =>
      Ok (false,
          Some (log_prefix ++ " 处理时发生未知错误:" ++ nl ++ format_exc w e))
  end.

(** [failed_tracks = [res[1] for res in results if not res[0]]] *)
Definition failed_tracks (results : list outcome_t) : list (option string) :=
  map snd (filter (fun r => negb (fst r)) results).

(** The diagnostics in [failed_tracks] that are strings. *)
Definition failed_diagnostics (results : list outcome_t) : list string :=
  omap id (failed_tracks results).

(** The separator-joined text of the failed diagnostics; joining a [None]
    raises [TypeError]. *)
Definition join_diagnostics (l : list (option string)) : result string :=
  match mapM id l with
  | Some strs => Ok (Str.join nl strs)
  | None => Raise TypeError
  end.

(** Lines 91-94: the album outcome from the track outcomes. *)
Definition aggregate (results : list outcome_t) : result outcome_t :=
  match failed_tracks results with
  | [] => Ok (true, None)
  | failed => d ← join_diagnostics failed; Ok (false, Some d)
  end.

(** Lines 77-79: the duration probe.  A duration found in the diagnostic
    text of the engine becomes the end time of the last track object. *)
Definition probe_duration (tracks_data : list loc) (h : list dict)
    (input_audio_file : string) : result (list dict) :=
  stderr ← ffmpeg_probe w input_audio_file;
  match re_search_duration stderr with
  | Some d =>
      x ← duration_seconds d;
      match last tracks_data with
      | Some l_last => Ok (setitem_at l_last "end_time" (VFloat x) h)
      | None => Raise IndexError
      end
  | None => Ok h
  end.

Definition empty_tracks_message : string := "错误：音轨列表为空，无法处理。".

Definition split_task (album_data : dict) (input_audio_file output_path : string)
    (total : nat) (track_info : dict) : io outcome_t :=
  _ ← emit (ESplit track_info);
  lift (_process_single_track track_info album_data input_audio_file
          output_path total).

(** The sequential branch: progress line (which reads the title outside any
    [try]), then the split. *)
Definition sequential_task (album_data : dict)
    (input_audio_file output_path : string) (total : nat)
    (it : nat * dict) : io outcome_t :=
  let '(i, track_info) := it in
  title ← lift (getitem track_info "title");
  _ ← emit (EPrint [VStr "  - 处理音轨 "; VInt (Z.of_nat (i + 1)); VStr "/";
                    VInt (Z.of_nat total); VStr ": "; title; VStr "..."]);
  split_task album_data input_audio_file output_path total track_info.

(** Lines 82-90: the split jobs, one per track, go to a pool of
    [min(cpu_count(), len(tracks_data), 4)] workers when track concurrency
    is asked for and there is more than one track; otherwise they run one
    after the other.  Either way the results come back in task order. *)
Definition dispatch_tracks (album_data : dict)
    (input_audio_file output_path : string) (tasks : list dict)
    (use_track_concurrency : bool) : io (list outcome_t) :=
  let total := length tasks in
  if use_track_concurrency && (1 <? total)%nat then
    let cores := Nat.min (cpu_count w) (Nat.min total 4) in
    _ ← emit (EPrint [VStr "-> 启用音轨并发处理，使用 ";
                      VInt (Z.of_nat cores); VStr " 个核心..."]);
    _ ← emit (ETrackPool cores);
    pool_map (split_task album_data input_audio_file output_path total) tasks
  else
    _ ← emit (EPrint [VStr "-> 启用音轨顺序处理 (共 ";
                      VInt (Z.of_nat total); VStr " 个音轨)..."]);
    mapM_io (sequential_task album_data input_audio_file output_path total)
            (imap (fun i d => (i, d)) tasks).

(** [AudioProcessor.process_album].  The track list is given as references
    into the store [h]; the store comes back because the probed duration is
    written into the last track object. *)
Definition process_album (album_data : dict) (tracks_data : list loc)
    (h : list dict) (source_dir : string) (use_track_concurrency : bool)
  : io (list dict * outcome_t) :=
  album_title ← lift (s ← as_str (default (VStr "Untitled Album")
                                     (album_data !! "title"));
                      Ok (sanitize s));
  let output_path := choose_output_path source_dir album_title in
  _ ← emit (EMakedirs output_path);
  _ ← lift (makedirs w output_path);
  _ ← emit (EPrint [VStr "-> 输出目录: "; VStr output_path]);
  input_audio_file ← lift (v ← getitem album_data "file"; f ← as_str v;
                           Ok (path_join source_dir f));
  if Nat.eqb (length tracks_data) 0 then
    mret (h, (false, Some empty_tracks_message))
  else
    _ ← emit (EProbe input_audio_file);
    h ← lift (probe_duration tracks_data h input_audio_file);
    let tasks := map (deref h) tracks_data in
    results ← dispatch_tracks album_data input_audio_file output_path tasks
                use_track_concurrency;
    r ← lift (aggregate results);
    mret (h, r).

End Processor.

End AudioProcessor.

(** ** core/cli.py: the album worker and the dispatch block of [Cli.run] *)

Module Cli.

Import CueParser AudioProcessor.

(** [TermuxColors]: the escape sequences used in the messages below. *)
Definition escape : string := String (ascii_of_nat 27) EmptyString.
Definition OKGREEN : string := escape ++ "[92m".
Definition ENDC : string := escape ++ "[0m".

(** [BatchTaskOutcome]: success, task name, diagnostic. *)
Definition task_outcome : Type := (bool * string * option string)%type.

(** [os.path.basename] *)
Definition basename (p : string) : string := default p (after_last "/" p).

(** What stages 1 and 2 of the worker hand to stage 3: either the message
    of an early failure return, or the album record, the track list (with
    its store) and the source directory. *)
Definition prepared : Type :=
  (string + (dict * list loc * list dict * string))%type.

Section Batch.

Context (w : world).

(** Stages 1 and 2 of [process_album_worker] (reading the cue file or the
    FLAC container, parsing, matching the audio file) depend on the file
    system; they are taken from the environment. *)
Context (prepare : string -> result prepared).

(** The log prefix of a task: process id and task name. *)
Definition log_prefix (file_path : string) : string :=
  "[P" ++ Str.of_Z (getpid w file_path) ++ ":" ++ basename file_path ++ "]".

(** The body of the [try] of [process_album_worker]: stage 3 gets the flag
    of the task unchanged. *)
Definition worker_body (file_path : string) (use_track_concurrency : bool)
  : io task_outcome :=
  let task_name := basename file_path in
  p ← lift (prepare file_path);
  match p with
  | inl message => mret (false, task_name, Some message)
  | inr (album_data, tracks_data, h, source_dir) =>
      process_album w None album_data tracks_data h source_dir
        use_track_concurrency
      ≫= fun r : list dict * outcome_t =>
      let '(_, (success, error_message)) := r in
      if success then
        _ ← emit (EPrint [VStr (log_prefix file_path); VStr " "; VStr OKGREEN;
                          VStr "处理成功！"; VStr ENDC]);
        mret (true, task_name, None)
      else
        mret (false, task_name,
              Some (log_prefix file_path ++ " 分割处理失败:" ++ nl
                    ++ default "None" error_message))
  end.

(** [try: body except Exception: handler]: the events of the body stay,
    its exception becomes the value the handler returns. *)
Definition try_except {A} (body : io A) (handler : exn -> A) : io A :=
  match body with
  | (t, Ok a) => (t, Ok a)
  | (t, Raise e) => (t, Ok (handler e))
  end.

(** [process_album_worker].  Before the [try] the arguments are unpacked
    ([EWorker] marks the entry of the worker with them) and the start of
    the task is announced; inside it, any exception of any stage becomes a
    failed outcome. *)
Definition process_album_worker (args : string * bool) : io task_outcome :=
  let '(file_path, use_track_concurrency) := args in
  let task_name := basename file_path in
  _ ← emit (EWorker file_path use_track_concurrency);
  _ ← emit (EPrint [VStr (log_prefix file_path); VStr " 开始处理..."]);
  try_except (worker_body file_path use_track_concurrency)
    (fun e => (false, task_name,
               Some ("发生未知严重错误:" ++ nl ++ format_exc w e))).

(** Lines 143-153 of [Cli.run]: the choice of the concurrency mode and the
    execution of the tasks. *)
Definition run_tasks (tasks : list string) : io (list task_outcome) :=
  let is_concurrent := (1 <? length tasks)%nat in
  results ←
    (if is_concurrent then
       _ ← emit (EPrint [VStr nl; VStr "检测到多个专辑，将启用【专辑并发】模式。"]);
       let worker_args := map (fun task_path => (task_path, false)) tasks in
       let cores := Nat.min (cpu_count w) (Nat.min (length tasks) 4) in
       _ ← emit (EPrint [VStr "开始处理 "; VInt (Z.of_nat (length tasks));
                         VStr " 个任务，使用 "; VInt (Z.of_nat cores);
                         VStr " 个核心。"]);
       _ ← emit (EAlbumPool cores);
       pool_map process_album_worker worker_args
     else
       _ ← emit (EPrint [VStr nl; VStr "将以【顺序】模式处理专辑。"]);
       mapM_io (fun task_path => process_album_worker (task_path, true)) tasks);
  _ ← (if is_concurrent then
         _ ← emit (EPrint [VStr "...并发任务完成，正在重置终端..."]);
         emit EReset
       else (mret tt : io unit));
  mret results.

End Batch.

End Cli.

(** ** Observations on event traces *)

Definition track_pools (t : list event) : list nat :=
  omap (fun e => match e with ETrackPool n => Some n | _ => None end) t.

Definition album_pools (t : list event) : list nat :=
  omap (fun e => match e with EAlbumPool n => Some n | _ => None end) t.

Definition worker_calls (t : list event) : list (string * bool) :=
  omap (fun e => match e with EWorker p b => Some (p, b) | _ => None end) t.

(** ** Vocabulary for statements about cue text *)

Module CueText.

Import CueParser.

(** The arguments of a line the loop reads as a [TRACK] directive. *)
Definition track_args (raw : string) : option string :=
  match lex_line raw with
  | Some (command, args) =>
      if String.eqb command "TRACK" then Some args else None
  | None => None
  end.

Definition is_track (raw : string) : bool :=
  match track_args raw with Some _ => true | None => false end.

(** The number of a [TRACK] directive whose argument begins with a digit:
    the directives that start a track. *)
Definition track_number (raw : string) : option Z :=
  args ← track_args raw;
  ds ← Str.re_match_digits args;
  Some (Str.digits_value 0 ds).

Definition starts_track (raw : string) : bool :=
  match track_number raw with Some _ => true | None => false end.

(** A [TRACK] directive, if the line is one, carries a number. *)
Definition well_numbered (raw : string) : bool :=
  match track_args raw with
  | Some args =>
      match Str.re_match_digits args with Some _ => true | None => false end
  | None => true
  end.

(** The time stamp of a line that the loop reads as an [INDEX 01] line
    carrying a time stamp. *)
Definition index01_time (raw : string) : option string :=
  match lex_line raw with
  | Some (command, args) =>
      if String.eqb command "INDEX" && Str.startswith "01" args
         && (1 <? length (Str.split_ws args))%nat
      then Str.split_ws args !! 1%nat
      else None
  | None => None
  end.

Definition sets_start (raw : string) : bool :=
  match index01_time raw with Some _ => true | None => false end.

(** The time stamp, if any, converts without overflow. *)
Definition time_ok (raw : string) : bool :=
  match index01_time raw with
  | Some t => is_ok (_parse_time t)
  | None => true
  end.

(** A non-empty string of decimal digits. *)
Definition digits (s : string) : bool :=
  negb (Str.is_empty s) && Str.forall_chars Str.is_digit s.

(** A time stamp field of the [mm:ss:ff] form: two decimal digits. *)
Definition two_digit_field (s : string) : bool :=
  digits s && (String.length s =? 2)%nat.

(** A [FILE] directive and its arguments. *)
Definition file_args (raw : string) : option string :=
  match lex_line raw with
  | Some (command, args) =>
      if String.eqb command "FILE" then Some args else None
  | None => None
  end.

(** A cue text cut at its [TRACK] directives: the header lines, then one
    block per directive, made of the directive and the lines up to the
    next one. *)
Definition block : Type := (string * list string)%type.

Fixpoint blocks_of (lines : list string) : list string * list block :=
  match lines with
  | [] => ([], [])
  | l :: rest =>
      let '(header, blocks) := blocks_of rest in
      if is_track l then ([], (l, header) :: blocks)
      else (l :: header, blocks)
  end.

Definition block_lines (b : block) : list string := fst b :: snd b.

(** The number of [TRACK] directives of a text. *)
Definition track_count (lines : list string) : nat :=
  length (List.filter is_track lines).

Definition unblocks (header : list string) (blocks : list block) : list string :=
  (header ++ concat (map block_lines blocks))%list.

(** Strictly ascending integers. *)
Fixpoint ascending (l : list Z) : bool :=
  match l with
  | a :: ((b :: _) as l') => (a <? b)%Z && ascending l'
  | _ => true
  end.

(** Well-formed-looking cue text: every [TRACK] directive carries a
    number, and every [INDEX 01] time stamp converts to a float. *)
Definition well_formed (lines : list string) : bool :=
  forallb well_numbered lines && forallb time_ok lines.

(** Every track after the first has an [INDEX 01] time stamp. *)
Definition later_tracks_indexed (lines : list string) : bool :=
  forallb (fun b : block => existsb sets_start (snd b))
          (tail (snd (blocks_of lines))).

(** Valid cue text: well formed, the tracks numbered in ascending order,
    and a start time for every track after the first. *)
Definition valid_cue (lines : list string) : bool :=
  well_formed lines && later_tracks_indexed lines
  && ascending (omap track_number lines).

(** The [number] fields of the returned track records, in list order. *)
Definition numbers (p : parsed) : list (option val) :=
  map (fun d : dict => d !! "number") (track_records p).

Definition start_time (p : parsed) (i : nat) : option val :=
  d ← track p i; d !! "start_time".

Definition end_time (p : parsed) (i : nat) : option val :=
  d ← track p i; d !! "end_time".

End CueText.

Import CueParser CueText AudioProcessor Cli.

(** ** Cue sheets as they are written

    The lines of a cue sheet described by their parts, independently of
    the way the parser reads them: the indentation, the keyword in any
    letter case, the separating white space, and the arguments.  [text]
    writes a line out. *)

Module Sheet.

(** White space, and a non-empty run of white space. *)
Definition blank (s : string) : bool := Str.forall_chars Str.is_space s.

Definition spacing (s : string) : bool := negb (Str.is_empty s) && blank s.

(** A character that does not end the line. *)
Definition inline (c : ascii) : bool := negb (Ascii.eqb c Str.newline).

(** A non-empty run of white space within the line. *)
Definition gap (s : string) : bool :=
  spacing s && Str.forall_chars inline s.

(** [s] is empty or begins with a character satisfying [p]. *)
Definition first (p : ascii -> bool) (s : string) : bool :=
  match s with
  | EmptyString => true
  | String c _ => p c
  end.

(** A non-empty run of word characters. *)
Definition word (s : string) : bool :=
  negb (Str.is_empty s) && Str.forall_chars Str.is_word s.

(** [c] is the capital letter [u] or its small letter. *)
Definition letter_of (u c : ascii) : bool :=
  Ascii.eqb c u || (nat_of_ascii c =? nat_of_ascii u + 32)%nat.

(** [s] spells the keyword [name], written in capitals, in any letter
    case. *)
Fixpoint spells (name s : string) : bool :=
  match name, s with
  | EmptyString, EmptyString => true
  | String u name', String c s' => letter_of u c && spells name' s'
  | _, _ => false
  end.

(** Decimal numerals: the digits, most significant first. *)
Definition digit (d : nat) : ascii := ascii_of_nat (48 + d).

Definition numeral (ds : list nat) : string :=
  fold_right (fun d s => String (digit d) s) EmptyString ds.

Definition value (ds : list nat) : Z :=
  fold_left (fun a d => (10 * a + Z.of_nat d)%Z) ds 0%Z.

Definition decimal (ds : list nat) : bool :=
  match ds with
  | [] => false
  | _ => forallb (fun d => d <? 10)%nat ds
  end.

(** A field of two digits. *)
Definition two (p : nat * nat) : string := numeral [fst p; snd p].

Definition two_ok (p : nat * nat) : bool := decimal [fst p; snd p].

Inductive line : Type :=
  | Track (indent keyword sep : string) (number : list nat) (rest : string)
  | Index (indent keyword sep : string) (index : nat * nat) (space : string)
          (mm ss ff : nat * nat) (trail : string)
  | Other (indent keyword rest : string)
  | Junk (indent rest : string).

Definition text (l : line) : string :=
  match l with
  | Track indent keyword sep number rest =>
      indent ++ keyword ++ sep ++ numeral number ++ rest
  | Index indent keyword sep index space mm ss ff trail =>
      indent ++ keyword ++ sep ++ two index ++ space
      ++ (two mm ++ ":" ++ two ss ++ ":" ++ two ff) ++ trail
  | Other indent keyword rest => indent ++ keyword ++ rest
  | Junk indent rest => indent ++ rest
  end.

(** The parts of a line are what they are called: a [TRACK] directive
    carries a number, which ends where its digits end; an [INDEX]
    directive carries a two-digit index and a time stamp of three two-digit
    fields; another directive begins with a word that spells neither
    keyword; any other line is blank or begins with a character that
    belongs to no word. *)
Definition line_ok (l : line) : bool :=
  match l with
  | Track indent keyword sep number rest =>
      blank indent && spells "TRACK" keyword && spacing sep
      && decimal number && first (fun c => negb (Str.is_digit c)) rest
  | Index indent keyword sep index space mm ss ff trail =>
      blank indent && spells "INDEX" keyword && spacing sep
      && two_ok index && gap space
      && two_ok mm && two_ok ss && two_ok ff && blank trail
  | Other indent keyword rest =>
      blank indent && word keyword
      && negb (spells "TRACK" keyword) && negb (spells "INDEX" keyword)
      && first (fun c => negb (Str.is_word c)) rest
  | Junk indent rest =>
      blank indent
      && first (fun c => negb (Str.is_word c) && negb (Str.is_space c)) rest
  end.

Definition is_track (l : line) : bool :=
  match l with Track _ _ _ _ _ => true | _ => false end.

Definition number (l : line) : option Z :=
  match l with
  | Track _ _ _ number _ => Some (value number)
  | _ => None
  end.

(** The time stamp of an [INDEX 01] line. *)
Definition start (l : line) : option (Z * Z * Z) :=
  match l with
  | Index _ _ _ (0, 1)%nat _ mm ss ff _ =>
      Some (value [fst mm; snd mm], value [fst ss; snd ss],
            value [fst ff; snd ff])
  | _ => None
  end.

Definition is_start (l : line) : bool :=
  match start l with Some _ => true | None => false end.

(** The number of [TRACK] directives of a sheet, and their numbers in the
    order of the sheet. *)
Definition track_count (sheet : list line) : nat :=
  length (List.filter is_track sheet).

Definition numbers (sheet : list line) : list Z := omap number sheet.

(** A sheet cut at its [TRACK] directives: the header, then each directive
    with the lines up to the next one. *)
Fixpoint blocks (sheet : list line) : list line * list (line * list line) :=
  match sheet with
  | [] => ([], [])
  | l :: rest =>
      let '(header, bs) := blocks rest in
      if is_track l then ([], (l, header) :: bs) else (l :: header, bs)
  end.

(** Every track after the first has an [INDEX 01] line. *)
Definition later_indexed (sheet : list line) : bool :=
  forallb (fun b : line * list line => existsb is_start (snd b))
          (tail (snd (blocks sheet))).

(** A valid sheet: lines of the four kinds, the track numbers ascending,
    and a start for every track after the first. *)
Definition valid (sheet : list line) : bool :=
  forallb line_ok sheet && ascending (numbers sheet) && later_indexed sheet.

(** The argument of a [FILE] directive: a quoted name, possibly after
    other text; a bare token; or nothing. *)
Inductive file_argument : Type :=
  | Quoted (before name after : string)
  | Bare (token rest : string)
  | Missing.

Definition quote : string := String Str.dquote EmptyString.

Definition argument_text (a : file_argument) : string :=
  match a with
  | Quoted before name after => before ++ quote ++ name ++ quote ++ after
  | Bare token rest => token ++ rest
  | Missing => EmptyString
  end.

Definition unquoted (c : ascii) : bool := negb (Ascii.eqb c Str.dquote).

Definition solid (c : ascii) : bool := negb (Str.is_space c).

Definition argument_ok (a : file_argument) : bool :=
  match a with
  | Quoted before name after =>
      first solid before
      && Str.forall_chars (fun c => unquoted c && inline c) before
      && negb (Str.is_empty name)
      && Str.forall_chars (fun c => unquoted c && inline c) name
  | Bare token rest =>
      negb (Str.is_empty token)
      && Str.forall_chars (fun c => unquoted c && solid c) token
      && first Str.is_space rest && Str.forall_chars unquoted rest
  | Missing => true
  end.

(** The file a [FILE] directive names. *)
Definition named (a : file_argument) : option string :=
  match a with
  | Quoted _ name _ => Some name
  | Bare token _ => Some token
  | Missing => None
  end.

Definition file_text (indent keyword sep : string) (a : file_argument) : string :=
  indent ++ keyword ++ sep ++ argument_text a.

Definition file_ok (indent keyword sep : string) (a : file_argument) : bool :=
  blank indent && spells "FILE" keyword && argument_ok a
  && match a with Missing => blank sep | _ => spacing sep end.

End Sheet.

(** ** Definitions used in the statements and proofs *)

Arguments Sheet.digit : simpl never.

(** A string ends well when its last character is none of those
    stripped. *)
Definition ends_solid (p : ascii -> bool) (s : string) : Prop :=
  Str.is_empty s = false /\
  Sheet.first (fun c => negb (p c)) (Str.rev s) = true.

(** The arguments the parser reads after a keyword. *)
Definition arguments (tail : string) : string :=
  Str.take_while Sheet.inline
    (Str.drop_while Str.is_space (Str.rstrip_by Str.is_space tail)).

(** The text of a block of a sheet. *)
Definition block_text (b : Sheet.line * list Sheet.line) : block :=
  (Sheet.text (fst b), map Sheet.text (snd b)).

(** What the scan knows of a track object: its number, and whether a start
    time has been set. *)
Definition track_rel (d : dict) (nb : Z * bool) : Prop :=
  d !! "number" = Some (VInt (fst nb)) /\
  (is_Some (d !! "start_time") <-> snd nb = true).

(** The state of the scan over well-numbered text after the track
    directives summarised by [info]: one object per directive, all but the
    last one finalized, the last one being built. *)
Record scanned (info : list (Z * bool)) (st : state) : Prop := Scanned {
  scanned_store : Forall2 track_rel (store st) info;
  scanned_tracks : tracks_data st = seq 0 (length info - 1);
  scanned_current :
    current_track_info st
    = match info with [] => None | _ => Some (length info - 1)%nat end
}.

Definition block_ok (b : block) (n : Z) : Prop :=
  track_number (fst b) = Some n /\
  Forall (fun l => track_args l = None) (snd b) /\
  Forall (fun l => time_ok l = true) (snd b).

Definition block_info (b : block) (n : Z) : Z * bool :=
  (n, existsb sets_start (snd b)).

(** The end-time loop only writes [end_time] fields. *)
Definition frame (h h' : list dict) : Prop :=
  length h' = length h /\
  forall l k, k <> "end_time" -> deref h' l !! k = deref h l !! k.

Definition probes_or_splits (e : event) : bool :=
  match e with
  | EProbe _ | ESplit _ | ETrackPool _ => true
  | _ => false
  end.

Definition output_directory_line (p : string) : event :=
  EPrint [VStr "-> 输出目录: "; VStr p].

(** The events of the album processor. *)
Definition album_event (e : event) : bool :=
  match e with
  | EMakedirs _ | EPrint _ | EProbe _ | ETrackPool _ | ESplit _ => true
  | _ => false
  end.

(** The events of the album processor other than its progress lines. *)
Definition processor_event (e : event) : bool :=
  match e with
  | EMakedirs _ | EProbe _ | ETrackPool _ | ESplit _ => true
  | _ => false
  end.

Definition processor_events (t : list event) : list event :=
  List.filter processor_event t.

(** What the album processor does when it is called for a task with the
    given flag: nothing when stages 1 and 2 hand over no album. *)
Definition album_run (w : world) (prepare : string -> result prepared)
    (flag : bool) (task : string) : list event :=
  match prepare task with
  | Ok (inr (album, tracks, h, dir)) =>
      processor_events (trace (process_album w None album tracks h dir flag))
  | _ => []
  end.

(** The number of colons of a time stamp. *)
Fixpoint colons (t : string) : nat :=
  match t with
  | EmptyString => 0
  | String c t' => (if Ascii.eqb c ":" then 1 else 0) + colons t'
  end.

(** The characters of a time stamp of integer fields: the digits, the
    signs and the underscore of an integer literal, the white space [int]
    skips, and the colon. *)
Definition time_char (c : ascii) : bool :=
  Str.is_digit c || Str.is_c_space c
  || Ascii.eqb c "+" || Ascii.eqb c "-" || Ascii.eqb c "_" || Ascii.eqb c ":".

(** Concrete inputs and environments for the examples. *)

Definition quiet_world : world :=
  World 4 (fun _ => Ok tt) (fun _ => Ok "") (fun _ => Ok tt) (fun _ => 0%Z)
        (fun _ _ _ _ => Ok tt) (fun _ => "traceback").

Definition demo_album : dict :=
  <["file" := VStr "album.flac"]> (<["title" := VStr "Album"]> ∅).

Definition demo_store : list dict :=
  [<["start_time" := VFloat 0]> (new_track ∅ 1);
   <["start_time" := VFloat 180]> (new_track ∅ 2)].

(** Stages 1 and 2 of the worker finding the demo album for every task. *)
Definition demo_prepare (file_path : string) : result prepared :=
  Ok (inr (demo_album, [0; 1]%nat, demo_store, "music")).

Definition aliased_cue : list string :=
  ["TRACK 01 AUDIO"; "INDEX 01 00:00:00"; "TRACK X AUDIO"].

Definition demo_cue : list string :=
  ["TITLE Album"; "FILE album.flac WAVE";
   "  TRACK 01 AUDIO"; "    INDEX 01 00:00:00";
   "  TRACK 02 AUDIO"; "    INDEX 00 02:01:00"; "    INDEX 01 02:03:37"].

Definition huge_frames : string := Str.of_Z (10 ^ 309).

Definition aliased_track : dict :=
  <["end_time" := VNone]> (<["start_time" := VFloat 0]> (new_track ∅ 1)).

(** An engine that fails on the first and on the third track of an album,
    in two different ways. *)
Definition flaky_world : world :=
  World 4 (fun _ => Ok tt)
        (fun _ => Ok "  Duration: 00:10:00.50, start: 0.000000")
        (fun c => if Str.contains "/01 - " (ff_output c)
                  then Raise (CalledProcessError "disk full")
                  else if Str.contains "/03 - " (ff_output c)
                  then Raise OSError
                  else Ok tt)
        (fun _ => 7%Z) (fun _ _ _ _ => Ok tt) (fun _ => "traceback").

Definition three_tracks : list dict :=
  [<["start_time" := VFloat 0]> (new_track ∅ 1);
   <["start_time" := VFloat 180]> (new_track ∅ 2);
   <["start_time" := VFloat 400]> (new_track ∅ 3)].

Definition three_tracks_probed : list dict :=
  setitem_at 2 "end_time" (VFloat 600.5) three_tracks.

Definition two_diagnostics : string :=
  "[音轨 01] 处理失败。FFmpeg 返回错误:" ++ nl ++ "--- FFmpeg Stderr ---" ++ nl
  ++ "disk full" ++ nl ++ "-----------------------" ++ nl
  ++ "[音轨 03] 处理时发生未知错误:" ++ nl ++ "traceback".

(** A carriage return, as at the end of a line of a DOS file. *)
Definition cr : string := String (ascii_of_nat 13) EmptyString.

(** A sheet of three tracks, written with keywords in several letter
    cases, a blank line and a DOS line ending. *)
Definition demo_sheet : list Sheet.line :=
  [Sheet.Other "" "REM" " GENRE Rock";
   Sheet.Other "" "Title" " Album";
   Sheet.Other "" "file" " album.flac WAVE";
   Sheet.Junk "  " "";
   Sheet.Track "  " "track" " " [0; 1]%nat " AUDIO";
   Sheet.Other "    " "TITLE" " One";
   Sheet.Index "    " "INDEX" " " (0, 1)%nat " " (0, 0)%nat (0, 0)%nat (0, 0)%nat cr;
   Sheet.Track "  " "Track" "  " [0; 2]%nat " AUDIO";
   Sheet.Index "    " "index" " " (0, 0)%nat " " (0, 2)%nat (0, 1)%nat (0, 0)%nat "";
   Sheet.Index "    " "index" " " (0, 1)%nat "  " (0, 2)%nat (0, 3)%nat (3, 7)%nat "";
   Sheet.Junk "" "; the last track";
   Sheet.Track "" "TRACK" " " [1; 0]%nat "";
   Sheet.Index "" "INDEX" " " (0, 1)%nat " " (0, 9)%nat (5, 9)%nat (7, 4)%nat " "].

(** * Properties *)

(** Closed equations are settled by evaluation. *)
Ltac evaluate :=
  lazymatch goal with
  | |- ?a = ?b => vm_cast_no_check (@eq_refl _ b)
  end.

(** ** The error monad and the loops *)

Lemma foldM_app {A B} (f : A -> B -> result A) (a : A) (l1 l2 : list B) :
  foldM f a (l1 ++ l2) = (a' ← foldM f a l1; foldM f a' l2).
Proof.
  revert a. induction l1 as [|b l1 IH]; intros a; simpl; [done|].
  destruct (f a b) as [a'|e]; simpl; [apply IH|done].
Qed.

Lemma foldM_invariant {A B} (P : A -> Prop) (Q : B -> Prop)
    (f : A -> B -> result A) (a : A) (l : list B) :
  (forall a b, P a -> Q b -> exists a', f a b = Ok a' /\ P a') ->
  P a -> Forall Q l -> exists a', foldM f a l = Ok a' /\ P a'.
Proof.
  intros Hstep. revert a. induction l as [|b l IH]; intros a Ha Hl; simpl.
  - eauto.
  - inversion Hl as [|? ? Hb Hl']; subst.
    destruct (Hstep a b Ha Hb) as (a' & -> & Ha'); simpl. by apply IH.
Qed.

(** ** The scan of the cue parser *)

Lemma replaygain_key_lower (k : string) :
  Str.startswith "REPLAYGAIN_" k = true ->
  exists s, Str.lower k = String "r" s.
Proof.
  destruct k as [|c k]; cbn [Str.startswith]; [done|].
  intros H. apply andb_true_iff in H as [H _].
  apply Ascii.eqb_eq in H. subst c. eexists. reflexivity.
Qed.

Lemma step_in_track (st : state) (raw : string) :
  current_truthy st = true ->
  track_args raw = None ->
  match index01_time raw with
  | Some t =>
      parse_line st raw
      = (x ← _parse_time t; Ok (set_current "start_time" (VFloat x) st))
  | None =>
      parse_line st raw = Ok st \/
      exists k v, k <> "number" /\ k <> "start_time" /\
                  parse_line st raw = Ok (set_current k v st)
  end.
Proof.
  intros Ht. unfold track_args, index01_time, parse_line.
  destruct (lex_line raw) as [[command args]|]; [|intros _; by left].
  destruct (String.eqb command "TRACK") eqn:E1; [done|intros _].
  destruct (String.eqb command "FILE") eqn:E2.
  { apply String.eqb_eq in E2 as ->.
    rewrite (eq_refl : String.eqb "FILE" "INDEX" = false). cbn [andb].
    unfold do_file. unfold current_truthy in Ht.
    destruct (current_track_info st); [by left|done]. }
  destruct (String.eqb command "TITLE") eqn:E3.
  { apply String.eqb_eq in E3 as ->.
    rewrite (eq_refl : String.eqb "TITLE" "INDEX" = false). cbn [andb].
    right. unfold do_text. rewrite Ht.
    by exists "title", (VStr (Str.strip_char Str.dquote args)). }
  destruct (String.eqb command "PERFORMER") eqn:E4.
  { apply String.eqb_eq in E4 as ->.
    rewrite (eq_refl : String.eqb "PERFORMER" "INDEX" = false). cbn [andb].
    right. unfold do_text. rewrite Ht.
    by exists "performer", (VStr (Str.strip_char Str.dquote args)). }
  destruct (String.eqb command "INDEX") eqn:E5; cbn [andb].
  { unfold do_index. rewrite Ht. cbn [andb].
    destruct (Str.startswith "01" args); cbn [andb]; [|by left].
    destruct (1 <? length (Str.split_ws args))%nat eqn:E; [|by left].
    destruct (Str.split_ws args !! 1%nat) eqn:El; [done|].
    apply Nat.ltb_lt in E. apply lookup_ge_None in El. lia. }
  destruct (String.eqb command "REM") eqn:E6; [|by left].
  unfold do_rem.
  destruct (Str.re_split_ws1 args) as [|k [|v [|? ?]]]; try by left.
  destruct (Str.startswith "REPLAYGAIN_" (Str.upper k)) eqn:Ek; [|by left].
  rewrite Ht. cbn [andb negb].
  destruct (Str.contains "TRACK" (Str.upper k)); [|by left].
  right. destruct (replaygain_key_lower _ Ek) as [s Hs].
  exists (Str.lower (Str.upper k)), (VStr v). rewrite Hs. done.
Qed.

Lemma step_no_track (st : state) (raw : string) :
  current_track_info st = None ->
  track_number raw = None ->
  exists a, parse_line st raw = Ok (State a (tracks_data st) (store st) None).
Proof.
  intros Hc. unfold track_number, track_args, parse_line.
  assert (Ht : current_truthy st = false) by (unfold current_truthy; by rewrite Hc).
  assert (Hst : st = State (album_data st) (tracks_data st) (store st) None)
    by (destruct st; simpl in *; by subst).
  destruct (lex_line raw) as [[command args]|]; [|intros _; eexists; by rewrite <- Hst].
  destruct (String.eqb command "TRACK") eqn:E1; cbn [mbind option_bind].
  { unfold do_track. rewrite Ht.
    destruct (Str.re_match_digits args); [done|intros _].
    eexists; by rewrite <- Hst. }
  intros _.
  destruct (String.eqb command "FILE") eqn:E2.
  { unfold do_file. rewrite Hc.
    destruct (Str.re_search_quoted args); [by eexists; unfold set_album; rewrite Hc|].
    destruct (Str.split_ws args); [eexists; by rewrite <- Hst|].
    by eexists; unfold set_album; rewrite Hc. }
  destruct (String.eqb command "TITLE") eqn:E3.
  { unfold do_text. rewrite Ht. by eexists; unfold set_album; rewrite Hc. }
  destruct (String.eqb command "PERFORMER") eqn:E4.
  { unfold do_text. rewrite Ht. by eexists; unfold set_album; rewrite Hc. }
  destruct (String.eqb command "INDEX") eqn:E5.
  { unfold do_index. rewrite Ht. cbn [andb]. eexists; by rewrite <- Hst. }
  destruct (String.eqb command "REM") eqn:E6; [|eexists; by rewrite <- Hst].
  unfold do_rem.
  destruct (Str.re_split_ws1 args) as [|k [|v [|? ?]]]; try (eexists; by rewrite <- Hst).
  destruct (Str.startswith "REPLAYGAIN_" (Str.upper k)); [|eexists; by rewrite <- Hst].
  rewrite Ht. cbn [andb negb].
  destruct (Str.contains "ALBUM" (Str.upper k)); [|eexists; by rewrite <- Hst].
  by eexists; unfold set_album; rewrite Hc.
Qed.

Lemma dict_truthy_lookup (d : dict) (k : string) (v : val) :
  d !! k = Some v -> dict_truthy d = true.
Proof.
  intros H. unfold dict_truthy. apply negb_true_iff, Nat.eqb_neq.
  apply map_size_non_empty_iff. intros ->. by rewrite lookup_empty in H.
Qed.

Lemma scanned_snoc_inv info nb st :
  scanned (info ++ [nb]) st ->
  exists s d, store st = (s ++ [d])%list /\ length s = length info /\
              Forall2 track_rel s info /\ track_rel d nb /\
              current_track_info st = Some (length info) /\
              tracks_data st = seq 0 (length info) /\
              current_truthy st = true.
Proof.
  intros [Hs Ht Hc].
  apply Forall2_app_inv_r in Hs as (s & s2 & Hs1 & Hs2 & Heq).
  inversion Hs2 as [|d ? ? ? Hd Hnil]; subst. inversion Hnil; subst.
  rewrite length_app in Ht, Hc. simpl in Ht, Hc.
  replace (length info + 1 - 1)%nat with (length info) in * by lia.
  assert (Hlen : length s = length info) by by eapply Forall2_length.
  assert (Hc' : current_track_info st = Some (length info)).
  { rewrite Hc. destruct (info ++ [nb])%list eqn:E; [by destruct info|done]. }
  exists s, d. split_and!; try done.
  unfold current_truthy. rewrite Hc'.
  unfold deref. rewrite Heq, <- Hlen, list_lookup_middle by done. simpl.
  destruct Hd as [Hn _]. by eapply dict_truthy_lookup.
Qed.

Lemma parse_line_track st raw args :
  track_args raw = Some args -> parse_line st raw = Ok (do_track st args).
Proof.
  unfold track_args, parse_line.
  destruct (lex_line raw) as [[command a]|]; [|done].
  destruct (String.eqb command "TRACK"); [|done]. by intros [= ->].
Qed.

Lemma new_track_rel album n : track_rel (new_track album n) (n, false).
Proof.
  split; simpl.
  - unfold new_track. by rewrite lookup_insert_eq.
  - unfold new_track.
    rewrite !lookup_insert_ne, lookup_empty by done.
    split; [by intros [? ?]|done].
Qed.

(** A numbered [TRACK] directive finalizes the track being built and
    starts a new object. *)
Lemma scan_track info st raw n :
  scanned info st -> track_number raw = Some n ->
  exists st', parse_line st raw = Ok st' /\
              scanned (info ++ [(n, false)]) st' /\
              album_data st' = album_data st.
Proof.
  intros Hinv. unfold track_number.
  destruct (track_args raw) as [args|] eqn:Ha; [|done]. simpl.
  destruct (Str.re_match_digits args) as [ds|] eqn:Hd; [|done]. simpl.
  intros [= <-]. rewrite (parse_line_track _ _ _ Ha).
  eexists; split; [done|]. unfold do_track. rewrite Hd.
  destruct info as [|nb info _] using rev_ind.
  - destruct Hinv as [Hs Ht Hc]. simpl in *.
    inversion Hs as [Hnil|]; subst.
    assert (Htr : current_truthy st = false) by (unfold current_truthy; by rewrite Hc).
    rewrite Htr. split; [|done].
    split; simpl; rewrite <- ?Hnil; [|done|done].
    repeat constructor; apply new_track_rel.
  - destruct (scanned_snoc_inv _ _ _ Hinv)
      as (s & d & Hst & Hlen & Hs & Hd' & Hc & Ht & Htr).
    rewrite Htr. unfold append_current. rewrite Hc. simpl.
    split; [|done]. split; simpl.
    + rewrite Hst. apply Forall2_app; [apply Forall2_app; [done|by constructor]|].
      repeat constructor; apply new_track_rel.
    + rewrite Ht, !length_app. simpl.
      replace (length info + 1 + 1 - 1)%nat with (S (length info)) by lia.
      by rewrite seq_S.
    + rewrite Hst, !length_app. simpl.
      destruct ((info ++ [nb]) ++ [(_, false)])%list eqn:E;
        [by destruct info|]. f_equal. rewrite Hlen. lia.
Qed.

Lemma scanned_set_current info n b b' st k v :
  scanned (info ++ [(n, b)]) st ->
  k <> "number" ->
  (k = "start_time" -> b' = true) ->
  (k <> "start_time" -> b' = b) ->
  scanned (info ++ [(n, b')]) (set_current k v st).
Proof.
  intros Hinv Hk Hk1 Hk2.
  destruct (scanned_snoc_inv _ _ _ Hinv)
    as (s & d & Hst & Hlen & Hs & [Hdn Hds] & Hc & Ht & Htr).
  unfold set_current. rewrite Hc. split; simpl.
  - rewrite Hst. unfold setitem_at. rewrite <- Hlen.
    rewrite alter_app_r_alt, Nat.sub_diag by done. simpl.
    apply Forall2_app; [done|]. constructor; [|constructor].
    split; simpl in *.
    + by rewrite lookup_insert_ne.
    + destruct (decide (k = "start_time")) as [->|Hne].
      * rewrite lookup_insert_eq. rewrite Hk1 by done.
        split; [done|intros _; by eexists].
      * rewrite lookup_insert_ne by done. by rewrite Hk2.
  - rewrite Ht, length_app. simpl. f_equal. lia.
  - destruct (info ++ [(n, b')])%list eqn:E; [by destruct info|].
    rewrite <- E, length_app. simpl. f_equal. lia.
Qed.

(** A line that is not a [TRACK] directive, read while a track is being
    built. *)
Lemma scan_body_line info n b st raw :
  scanned (info ++ [(n, b)]) st ->
  track_args raw = None -> time_ok raw = true ->
  exists st', parse_line st raw = Ok st' /\
              scanned (info ++ [(n, b || sets_start raw)]) st' /\
              album_data st' = album_data st.
Proof.
  intros Hinv Ha Hok.
  destruct (scanned_snoc_inv _ _ _ Hinv)
    as (s & d & Hst & Hlen & Hs & Hd & Hc & Ht & Htr).
  pose proof (step_in_track st raw Htr Ha) as Hstep.
  unfold time_ok, sets_start in *.
  destruct (index01_time raw) as [t|].
  - rewrite Hstep. destruct (_parse_time t) as [x|e]; [|done]. simpl.
    eexists; split; [done|]. rewrite orb_true_r. split.
    + by eapply scanned_set_current.
    + unfold set_current. by rewrite Hc.
  - rewrite orb_false_r.
    destruct Hstep as [->|(k & v & Hk1 & Hk2 & ->)].
    + by eexists.
    + eexists; split; [done|]. split.
      * by eapply scanned_set_current.
      * unfold set_current. by rewrite Hc.
Qed.

Lemma scan_body info n st body : forall b,
  scanned (info ++ [(n, b)]) st ->
  Forall (fun l => track_args l = None) body ->
  Forall (fun l => time_ok l = true) body ->
  exists st', parse_lines st body = Ok st' /\
              scanned (info ++ [(n, b || existsb sets_start body)]) st' /\
              album_data st' = album_data st.
Proof.
  unfold parse_lines.
  revert st. induction body as [|l body IH]; intros st b Hinv Hb Ht; simpl.
  - rewrite orb_false_r. by eexists.
  - apply Forall_cons in Hb as [Hl Hb]. apply Forall_cons in Ht as [Hlt Ht].
    destruct (scan_body_line _ _ _ _ l Hinv) as (st1 & -> & Hinv1 & Ha1); [done..|].
    simpl. destruct (IH st1 _ Hinv1) as (st2 & Hst2 & Hinv2 & Ha2); [done..|].
    exists st2. rewrite orb_assoc. split; [done|]. split; [done|congruence].
Qed.

(** The lines before the first track: only the album record changes. *)
Lemma scan_header st header :
  scanned [] st ->
  Forall (fun l => track_number l = None) header ->
  exists st', parse_lines st header = Ok st' /\ scanned [] st'.
Proof.
  intros Hinv Hh. unfold parse_lines.
  apply (foldM_invariant (scanned []) (fun l => track_number l = None));
    [|done..].
  intros a l [Hs Ht Hc] Hl. simpl in *.
  destruct (step_no_track a l Hc Hl) as [al ->].
  eexists; split; [done|]. by split.
Qed.

Lemma scan_blocks blocks : forall nums info st,
  scanned info st ->
  Forall2 block_ok blocks nums ->
  exists st', parse_lines st (concat (map block_lines blocks)) = Ok st' /\
              scanned (info ++ zip_with block_info blocks nums) st' /\
              (info <> [] -> album_data st' = album_data st).
Proof.
  induction blocks as [|[t body] blocks IH]; intros nums info st Hinv Hb.
  - inversion Hb; subst. simpl. rewrite app_nil_r. by eexists.
  - inversion Hb as [|? n ? nums' (Hn & Hnt & Htm) Hb']; subst. simpl in *.
    unfold parse_lines in *.
    destruct (scan_track _ _ _ _ Hinv Hn) as (st1 & H1 & Hinv1 & Ha1).
    cbn [foldM]. rewrite H1. simpl. rewrite foldM_app.
    destruct (scan_body _ _ _ body _ Hinv1 Hnt Htm) as (st2 & H2 & Hinv2 & Ha2).
    unfold parse_lines in H2. rewrite H2. simpl.
    destruct (IH nums' _ st2 Hinv2 Hb') as (st3 & H3 & Hinv3 & Ha3).
    exists st3. split; [done|]. rewrite <- app_assoc in Hinv3. split; [done|].
    intros _. rewrite Ha3 by (by destruct info). congruence.
Qed.

Lemma frame_refl h : frame h h.
Proof. by split. Qed.

Lemma frame_trans h1 h2 h3 : frame h1 h2 -> frame h2 h3 -> frame h1 h3.
Proof.
  intros [L1 F1] [L2 F2]. split; [congruence|].
  intros l k Hk. by rewrite F2, F1.
Qed.

Lemma deref_setitem_other li k v h l :
  l <> li -> deref (setitem_at li k v h) l = deref h l.
Proof.
  intros Hne. unfold deref, setitem_at. by rewrite list_lookup_alter_ne.
Qed.

Lemma deref_setitem_ne li k v h l k' :
  k' <> k -> deref (setitem_at li k v h) l !! k' = deref h l !! k'.
Proof.
  intros Hne. destruct (decide (l = li)) as [->|Hl].
  - unfold deref, setitem_at. rewrite list_lookup_alter_eq.
    destruct (h !! li); simpl; [by rewrite lookup_insert_ne|done].
  - by rewrite deref_setitem_other.
Qed.

Lemma deref_setitem_eq li k v h :
  (li < length h)%nat -> deref (setitem_at li k v h) li !! k = Some v.
Proof.
  intros Hlt. unfold deref, setitem_at. rewrite list_lookup_alter_eq.
  destruct (lookup_lt_is_Some_2 h li Hlt) as [d ->]. simpl.
  by rewrite lookup_insert_eq.
Qed.

Lemma frame_setitem li v h : frame h (setitem_at li "end_time" v h).
Proof.
  split; [apply length_alter|]. intros l k Hk. by apply deref_setitem_ne.
Qed.

Lemma set_end_time_unfold tracks h i li :
  tracks !! i = Some li ->
  set_end_time tracks h i
  = match tracks !! (i + 1)%nat with
    | Some lj =>
        match deref h lj !! "start_time" with
        | Some v => Ok (setitem_at li "end_time" v h)
        | None => Raise (KeyError "start_time")
        end
    | None => Ok (setitem_at li "end_time" VNone h)
    end.
Proof.
  intros Hi. unfold set_end_time. rewrite Hi.
  destruct (i + 1 <? length tracks)%nat eqn:E.
  - apply Nat.ltb_lt in E. destruct (lookup_lt_is_Some_2 _ _ E) as [lj ->].
    unfold getitem. by destruct (deref h lj !! "start_time").
  - apply Nat.ltb_ge in E. by rewrite (lookup_ge_None_2 _ _ E).
Qed.

(** Whatever the track list, a prefix of the end-time loop either raises
    the [KeyError] of a missing start time or only wrote end times. *)
Lemma derive_prefix_any tracks h m :
  (m <= length tracks)%nat ->
  foldM (set_end_time tracks) h (seq 0 m) = Raise (KeyError "start_time") \/
  exists h', foldM (set_end_time tracks) h (seq 0 m) = Ok h' /\ frame h h'.
Proof.
  induction m as [|m IH]; intros Hm.
  - right. exists h. split; [done|apply frame_refl].
  - rewrite seq_S, foldM_app. simpl.
    destruct IH as [->|(h' & -> & Hf)]; [lia|by left|]. simpl.
    destruct (lookup_lt_is_Some_2 tracks m) as [li Hli]; [lia|].
    rewrite (set_end_time_unfold _ _ _ _ Hli).
    destruct (tracks !! (m + 1)%nat) as [lj|].
    + destruct (deref h' lj !! "start_time"); simpl; [|by left].
      right. eexists; split; [done|].
      eapply frame_trans; [done|apply frame_setitem].
    + right. eexists; split; [done|].
      eapply frame_trans; [done|apply frame_setitem].
Qed.

Lemma foldM_raise_app {A B} (f : A -> B -> result A) a l1 l2 e :
  foldM f a l1 = Raise e -> foldM f a (l1 ++ l2) = Raise e.
Proof. intros H. by rewrite foldM_app, H. Qed.

(** A track after the first without a start time makes the end-time loop
    raise. *)
Lemma derive_raises tracks h j lj :
  (1 <= j)%nat -> tracks !! j = Some lj ->
  deref h lj !! "start_time" = None ->
  derive_end_times tracks h = Raise (KeyError "start_time").
Proof.
  intros Hj Hlj Hnone. unfold derive_end_times.
  pose proof (lookup_lt_Some _ _ _ Hlj) as Hlt.
  replace (length tracks) with ((j - 1) + (1 + (length tracks - j)))%nat by lia.
  rewrite seq_app, foldM_app.
  destruct (derive_prefix_any tracks h (j - 1)) as [->|(h' & -> & [_ Hf])];
    [lia|done|]. simpl.
  destruct (lookup_lt_is_Some_2 tracks (j - 1)) as [li Hli]; [lia|].
  rewrite (set_end_time_unfold _ _ _ _ Hli).
  replace (j - 1 + 1)%nat with j by lia. rewrite Hlj.
  by rewrite Hf, Hnone.
Qed.

(** The end times written by a prefix of the loop, when every track after
    the first has a start time. *)
Lemma derive_prefix_ok tracks h m :
  (m <= length tracks)%nat ->
  (forall j lj, (1 <= j)%nat -> tracks !! j = Some lj ->
                is_Some (deref h lj !! "start_time")) ->
  exists h',
    foldM (set_end_time tracks) h (seq 0 m) = Ok h' /\ frame h h' /\
    (NoDup tracks -> (forall l, l ∈ tracks -> (l < length h)%nat) ->
     (forall i li, (i < m)%nat -> tracks !! i = Some li ->
        deref h' li !! "end_time"
        = match tracks !! (i + 1)%nat with
          | Some lj => deref h lj !! "start_time"
          | None => Some VNone
          end)).
Proof.
  intros Hm Hstart. induction m as [|m IH].
  - exists h. split; [done|]. split; [apply frame_refl|]. intros; lia.
  - destruct IH as (h' & Hh' & Hf & Hend); [lia|].
    rewrite seq_S, foldM_app, Hh'. simpl.
    destruct (lookup_lt_is_Some_2 tracks m) as [lm Hlm]; [lia|].
    rewrite (set_end_time_unfold _ _ _ _ Hlm).
    assert (Hstep : exists v,
      match tracks !! (m + 1)%nat with
      | Some lj =>
          match deref h' lj !! "start_time" with
          | Some v => Ok (setitem_at lm "end_time" v h')
          | None => Raise (KeyError "start_time")
          end
      | None => Ok (setitem_at lm "end_time" VNone h')
      end = Ok (setitem_at lm "end_time" v h') /\
      Some v = match tracks !! (m + 1)%nat with
               | Some lj => deref h lj !! "start_time"
               | None => Some VNone
               end).
    { destruct (tracks !! (m + 1)%nat) as [lj|] eqn:Hlj; [|by eexists].
      destruct Hf as [_ Hf]. rewrite Hf by done.
      destruct (Hstart (m + 1)%nat lj) as [v Hv]; [lia|done|].
      rewrite Hv. by exists v. }
    destruct Hstep as (v & -> & Hv).
    eexists; split; [done|].
    split; [eapply frame_trans; [done|apply frame_setitem]|].
    intros Hnd Hval i li Hi Hli.
    destruct (decide (i = m)) as [->|Hne].
    + assert (li = lm) by congruence. subst li.
      rewrite deref_setitem_eq, Hv; [done|].
      destruct Hf as [-> _]. apply Hval. by eapply list_elem_of_lookup_2.
    + rewrite deref_setitem_other.
      * apply Hend; [done..|lia|done].
      * intros ->. apply Hne. by eapply NoDup_lookup.
Qed.

Lemma derive_ok tracks h :
  (forall j lj, (1 <= j)%nat -> tracks !! j = Some lj ->
                is_Some (deref h lj !! "start_time")) ->
  exists h',
    derive_end_times tracks h = Ok h' /\ frame h h' /\
    (NoDup tracks -> (forall l, l ∈ tracks -> (l < length h)%nat) ->
     (forall i li, tracks !! i = Some li ->
        deref h' li !! "end_time"
        = match tracks !! (i + 1)%nat with
          | Some lj => deref h lj !! "start_time"
          | None => Some VNone
          end)).
Proof.
  intros Hstart.
  destruct (derive_prefix_ok tracks h (length tracks)) as (h' & H1 & H2 & H3);
    [done..|].
  exists h'. split; [done|]. split; [done|].
  intros Hnd Hval i li Hli. apply H3; [done..| |done].
  by eapply lookup_lt_Some.
Qed.

Lemma is_track_false l : is_track l = false -> track_args l = None.
Proof. unfold is_track. by destruct (track_args l). Qed.

Lemma track_args_None_number l : track_args l = None -> track_number l = None.
Proof. unfold track_number. by intros ->. Qed.

Lemma well_numbered_track l :
  is_track l = true -> well_numbered l = true -> is_Some (track_number l).
Proof.
  unfold is_track, well_numbered, track_number.
  destruct (track_args l) as [args|]; [|done]. simpl.
  destruct (Str.re_match_digits args); [by eexists|done].
Qed.

Lemma blocks_of_unblocks lines :
  unblocks (fst (blocks_of lines)) (snd (blocks_of lines)) = lines.
Proof.
  unfold unblocks. induction lines as [|l lines IH]; [done|]. simpl.
  destruct (blocks_of lines) as [header blocks]. simpl in *.
  destruct (is_track l); simpl; by rewrite IH.
Qed.

Lemma blocks_of_length lines :
  length (snd (blocks_of lines)) = track_count lines.
Proof.
  unfold track_count. induction lines as [|l lines IH]; [done|]. simpl.
  destruct (blocks_of lines) as [header blocks]. simpl in *.
  destruct (is_track l); simpl; by rewrite IH.
Qed.

Lemma blocks_of_ok lines :
  forallb well_numbered lines = true -> forallb time_ok lines = true ->
  Forall (fun l => track_args l = None /\ time_ok l = true)
         (fst (blocks_of lines)) /\
  Forall2 block_ok (snd (blocks_of lines)) (omap track_number lines).
Proof.
  induction lines as [|l lines IH]; simpl; [by split; constructor|].
  intros [Hw Hws]%andb_true_iff [Ht Hts]%andb_true_iff.
  destruct (IH Hws Hts) as [Hh Hb]. clear IH.
  destruct (blocks_of lines) as [header blocks]. simpl in *.
  destruct (is_track l) eqn:E; simpl.
  - destruct (well_numbered_track l E Hw) as [n Hn]. rewrite Hn.
    split; [constructor|]. constructor; [|done].
    split; [done|]. simpl. split; eapply Forall_impl; eauto; by intros ? [? ?].
  - rewrite (track_args_None_number l (is_track_false l E)).
    split; [|done]. constructor; [|done]. split; [by apply is_track_false|done].
Qed.

(** What the scan and the finalization of the last track leave, on
    well-formed text. *)
Lemma parse_scan lines :
  well_formed lines = true ->
  exists st,
    let info := zip_with block_info (snd (blocks_of lines))
                         (omap track_number lines) in
    parse_lines init lines = Ok st /\ scanned info st /\
    parse lines
    = match info with
      | [] => Ok (Parsed (album_data st) [] [])
      | _ =>
          h ← derive_end_times (seq 0 (length info)) (store st);
          Ok (Parsed (album_data st) (seq 0 (length info)) h)
      end.
Proof.
  intros [Hw Ht]%andb_true_iff.
  destruct (blocks_of_ok lines Hw Ht) as [Hh Hb].
  pose proof (blocks_of_unblocks lines) as Hl. unfold unblocks in Hl.
  destruct (scan_header init (fst (blocks_of lines))) as (st0 & H0 & Hinv0).
  { by split. }
  { eapply Forall_impl; [done|]. intros l [? _]. by apply track_args_None_number. }
  destruct (scan_blocks _ _ [] st0 Hinv0 Hb) as (st & H1 & Hinv & _).
  simpl in Hinv. exists st. simpl.
  assert (Hscan : parse_lines init lines = Ok st).
  { rewrite <- Hl at 1. unfold parse_lines in *. by rewrite foldM_app, H0. }
  split; [done|]. split; [done|].
  set (info := zip_with block_info _ _) in *.
  assert (Hparse : parse lines = finish st).
  { unfold parse. destruct lines as [|l lines]; [|by rewrite Hscan].
    simpl in Hscan. by injection Hscan as <-. }
  rewrite Hparse. clear Hparse. unfold finish.
  destruct info as [|nb info _] using rev_ind.
  - destruct Hinv as [Hs Htr Hc]. simpl in *.
    unfold current_truthy. rewrite Hc, Htr. inversion Hs. done.
  - destruct (scanned_snoc_inv _ _ _ Hinv)
      as (s & d & Hst & Hlen & Hs & Hd & Hc & Htr & Htruthy).
    rewrite Htruthy. unfold append_current. rewrite Hc. simpl.
    rewrite Htr, length_app. simpl.
    replace (length info + 1)%nat with (S (length info)) by lia.
    rewrite <- seq_S.
    destruct (info ++ [nb])%list eqn:E; [by destruct info|].
    destruct (seq 0 (S (length info))) eqn:E2; [done|]. done.
Qed.

Lemma info_lookup blocks nums j nb :
  zip_with block_info blocks nums !! j = Some nb ->
  exists b n, blocks !! j = Some b /\ nums !! j = Some n /\
              nb = (n, existsb sets_start (snd b)).
Proof.
  intros H. apply lookup_zip_with_Some in H as (b & n & -> & Hb & Hn).
  by exists b, n.
Qed.

Lemma scanned_deref info st j nb :
  scanned info st -> info !! j = Some nb ->
  exists d, store st !! j = Some d /\ deref (store st) j = d /\ track_rel d nb.
Proof.
  intros [Hs _ _] Hj.
  destruct (Forall2_lookup_r _ _ _ _ _ Hs Hj) as (d & Hd & Hrel).
  exists d. unfold deref. by rewrite Hd.
Qed.

Lemma later_not_indexed blocks :
  forallb (fun b : block => existsb sets_start (snd b)) (tail blocks) = false ->
  exists j b, (1 <= j)%nat /\ blocks !! j = Some b /\
              existsb sets_start (snd b) = false.
Proof.
  destruct blocks as [|b0 blocks]; [done|]. simpl.
  induction blocks as [|b blocks IH]; [done|]. simpl.
  destruct (existsb sets_start (snd b)) eqn:E; simpl.
  - intros H. destruct (IH H) as (j & b' & Hj & Hb & He).
    exists (S j), b'. split; [lia|]. split; [|done].
    destruct j; [lia|]. done.
  - intros _. by exists 1%nat, b.
Qed.

Lemma later_indexed blocks j b :
  forallb (fun b : block => existsb sets_start (snd b)) (tail blocks) = true ->
  (1 <= j)%nat -> blocks !! j = Some b -> existsb sets_start (snd b) = true.
Proof.
  intros H Hj Hb. destruct blocks as [|b0 blocks]; [done|].
  destruct j as [|j]; [lia|]. simpl in *.
  rewrite forallb_forall in H. apply H.
  apply list_elem_of_In. by eapply list_elem_of_lookup_2.
Qed.

Lemma seq_lookup_inv n j l : seq 0 n !! j = Some l -> l = j /\ (j < n)%nat.
Proof. intros H. apply lookup_seq in H. lia. Qed.

(** On well-formed text, [parse] raises exactly when a track after the
    first has no start time. *)
Lemma parse_raises lines :
  well_formed lines = true -> later_tracks_indexed lines = false ->
  parse lines = Raise (KeyError "start_time").
Proof.
  intros Hwf Hlater.
  destruct (parse_scan lines Hwf) as (st & _ & Hinv & ->).
  destruct (later_not_indexed _ Hlater) as (j & b & Hj & Hb & He).
  pose proof (proj2 (blocks_of_ok lines
    (proj1 (proj1 (andb_true_iff _ _) Hwf))
    (proj2 (proj1 (andb_true_iff _ _) Hwf)))) as Hok.
  destruct (Forall2_lookup_l _ _ _ _ _ Hok Hb) as (n & Hn & _).
  set (info := zip_with block_info _ _) in *.
  assert (Hinfo : info !! j = Some (n, false)).
  { unfold info. apply lookup_zip_with_Some. exists b, n.
    unfold block_info. by rewrite He. }
  destruct (scanned_deref _ _ _ _ Hinv Hinfo) as (d & Hd & Hderef & Hn' & Hs).
  simpl in Hs.
  assert (Hnone : deref (store st) j !! "start_time" = None).
  { rewrite Hderef. destruct (d !! "start_time") eqn:E; [|done].
    assert (false = true) by (apply Hs; by eexists). done. }
  pose proof (lookup_lt_Some _ _ _ Hinfo) as Hlt.
  destruct info as [|nb info']; [simpl in Hlt; lia|].
  rewrite (derive_raises _ _ j j Hj); [done| |done].
  apply lookup_seq. lia.
Qed.

Lemma parse_returns lines :
  well_formed lines = true -> later_tracks_indexed lines = true ->
  exists st h,
    let info := zip_with block_info (snd (blocks_of lines))
                         (omap track_number lines) in
    scanned info st /\ frame (store st) h /\
    parse lines = Ok (Parsed (album_data st) (seq 0 (length info)) h) /\
    (forall i, (i < length info)%nat ->
       deref h i !! "end_time"
       = if decide (i + 1 < length info)%nat
         then deref (store st) (i + 1) !! "start_time"
         else Some VNone) /\
    (forall j, (1 <= j < length info)%nat ->
       is_Some (deref h j !! "start_time")).
Proof.
  intros Hwf Hlater.
  destruct (parse_scan lines Hwf) as (st & _ & Hinv & Hparse).
  simpl in *. set (info := zip_with block_info _ _) in *.
  assert (Hstart : forall j, (1 <= j < length info)%nat ->
                     is_Some (deref (store st) j !! "start_time")).
  { intros j [Hj Hlt].
    destruct (lookup_lt_is_Some_2 info j Hlt) as [nb Hnb].
    destruct (info_lookup _ _ _ _ Hnb) as (b & n & Hb & Hn & ->).
    destruct (scanned_deref _ _ _ _ Hinv Hnb) as (d & Hd & -> & _ & Hs).
    apply Hs. simpl. by eapply later_indexed. }
  destruct (derive_ok (seq 0 (length info)) (store st)) as (h & Hh & Hf & Hend).
  { intros j lj Hj [-> Hlt]%seq_lookup_inv. apply Hstart. lia. }
  exists st, h. split; [done|]. split; [done|].
  split; [|split].
  - rewrite Hparse. destruct info; [|by rewrite Hh].
    simpl in Hh. injection Hh as <-. destruct Hinv as [Hs _ _].
    inversion Hs. simpl. by f_equal.
  - intros i Hi.
    assert (Hlen : length (store st) = length info).
    { destruct Hinv as [Hs _ _]. by eapply Forall2_length. }
    rewrite (Hend (NoDup_seq _ _)) with (i := i) (li := i).
    + destruct (decide (i + 1 < length info)%nat) as [Hlt|Hge].
      * by rewrite (proj2 (lookup_seq 0 (length info) (i + 1) (i + 1))) by lia.
      * rewrite lookup_ge_None_2; [done|]. rewrite length_seq. lia.
    + intros l Hl. apply elem_of_seq in Hl. lia.
    + apply lookup_seq. lia.
  - intros j Hj. destruct Hf as [_ Hf]. rewrite Hf by done. by apply Hstart.
Qed.

Lemma parse_line_file st raw args :
  file_args raw = Some args -> parse_line st raw = Ok (do_file st args).
Proof.
  unfold file_args, parse_line.
  destruct (lex_line raw) as [[command a]|]; [|done].
  destruct (String.eqb command "FILE") eqn:E; [|done].
  apply String.eqb_eq in E as ->. intros [= ->].
  by rewrite (eq_refl : String.eqb "FILE" "TRACK" = false).
Qed.

Lemma set_current_current k v st :
  current_track_info (set_current k v st) = current_track_info st.
Proof. unfold set_current. by destruct (current_track_info st) eqn:E. Qed.

(** Once a track is being built, one is being built for the rest of the
    scan: no line resets [current_track_info]. *)
Lemma parse_line_current st raw st' :
  parse_line st raw = Ok st' ->
  (is_Some (current_track_info st) \/ starts_track raw = true) ->
  is_Some (current_track_info st').
Proof.
  unfold parse_line, starts_track, track_number, track_args.
  destruct (lex_line raw) as [[command args]|]; simpl.
  2:{ intros [= <-] [H|H]; done. }
  destruct (String.eqb command "TRACK") eqn:E1; simpl.
  { intros [= <-] H. unfold do_track.
    destruct (Str.re_match_digits args); simpl in *; [by eexists|].
    destruct H as [[c Hc]|H]; [|done].
    destruct (current_truthy st); [|by rewrite Hc].
    unfold append_current. by rewrite Hc. }
  intros Hstep [[c Hc]|H]; [|done]. revert Hstep.
  destruct (String.eqb command "FILE").
  { intros [= <-]. unfold do_file. by rewrite Hc. }
  destruct (String.eqb command "TITLE").
  { intros [= <-]. unfold do_text.
    destruct (current_truthy st); [by rewrite set_current_current, Hc|].
    simpl. by rewrite Hc. }
  destruct (String.eqb command "PERFORMER").
  { intros [= <-]. unfold do_text.
    destruct (current_truthy st); [by rewrite set_current_current, Hc|].
    simpl. by rewrite Hc. }
  destruct (String.eqb command "INDEX").
  { unfold do_index.
    destruct (current_truthy st && Str.startswith "01" args
              && (1 <? length (Str.split_ws args))%nat);
      [|intros [= <-]; by rewrite Hc].
    destruct (Str.split_ws args !! 1%nat) as [t|]; [|done].
    destruct (_parse_time t); simpl; [|done].
    intros [= <-]. by rewrite set_current_current, Hc. }
  destruct (String.eqb command "REM"); [|intros [= <-]; by rewrite Hc].
  intros [= <-]. unfold do_rem.
  destruct (Str.re_split_ws1 args) as [|k [|v [|? ?]]]; try by rewrite Hc.
  destruct (Str.startswith "REPLAYGAIN_" (Str.upper k)); [|by rewrite Hc].
  destruct (current_truthy st && Str.contains "TRACK" (Str.upper k));
    [by rewrite set_current_current, Hc|].
  destruct (negb (current_truthy st) && Str.contains "ALBUM" (Str.upper k));
    simpl; by rewrite Hc.
Qed.

Lemma parse_lines_current lines : forall st st',
  parse_lines st lines = Ok st' ->
  (is_Some (current_track_info st) \/ existsb starts_track lines = true) ->
  is_Some (current_track_info st').
Proof.
  unfold parse_lines.
  induction lines as [|l lines IH]; simpl; intros st st' Hscan H.
  - injection Hscan as <-. by destruct H.
  - destruct (parse_line st l) as [st1|] eqn:E; [|done]. simpl in Hscan.
    apply (IH st1 st' Hscan).
    destruct H as [H|H]; [left; eapply parse_line_current; eauto|].
    apply orb_true_iff in H as [H|H]; [|by right].
    left. eapply parse_line_current; eauto.
Qed.

Lemma parse_nonempty lines :
  lines <> [] -> parse lines = (st ← parse_lines init lines; finish st).
Proof. by destruct lines. Qed.

Lemma file_ignored_in_track raw args pre post :
  file_args raw = Some args -> existsb starts_track pre = true ->
  parse (pre ++ raw :: post) = parse (pre ++ post).
Proof.
  intros Hf Hpre.
  rewrite !parse_nonempty by (by destruct pre).
  f_equal. unfold parse_lines. rewrite !foldM_app.
  destruct (foldM parse_line init pre) as [st|e] eqn:E; [|done]. simpl.
  rewrite (parse_line_file _ _ _ Hf). simpl.
  assert (Hc : is_Some (current_track_info st)).
  { eapply parse_lines_current; [exact E|by right]. }
  unfold do_file. by destruct Hc as [c ->].
Qed.

Lemma no_track_started lines :
  existsb starts_track lines = false ->
  Forall (fun l => track_number l = None) lines.
Proof.
  induction lines as [|l lines IH]; simpl; [constructor|].
  intros [Hl Hls]%orb_false_iff. constructor; [|by apply IH].
  unfold starts_track in Hl. by destruct (track_number l).
Qed.

Lemma info_length lines :
  well_formed lines = true ->
  length (zip_with block_info (snd (blocks_of lines)) (omap track_number lines))
  = track_count lines
  /\ length (omap track_number lines) = track_count lines.
Proof.
  intros [Hw Ht]%andb_true_iff.
  destruct (blocks_of_ok lines Hw Ht) as [_ Hb].
  pose proof (Forall2_length _ _ _ Hb) as Hlen.
  rewrite length_zip_with, <- Hlen, blocks_of_length. lia.
Qed.

(** ** Strings of digits and the time stamp conversion *)

Lemma append_cons (c : ascii) (s t : string) :
  String c s ++ t = String c (s ++ t).
Proof. done. Qed.

Lemma append_empty_r (s : string) : s ++ "" = s.
Proof. induction s as [|c s IH]; [done|]. by rewrite append_cons, IH. Qed.

Lemma append_assoc (a b c : string) : (a ++ b) ++ c = a ++ b ++ c.
Proof. induction a as [|x a IH]; [done|]. by rewrite !append_cons, IH. Qed.

Lemma rev_acc_append (a b : string) : Str.rev_acc a b = Str.rev a ++ b.
Proof.
  unfold Str.rev. revert b. induction a as [|c a IH]; intros b; simpl; [done|].
  rewrite IH, (IH (String c "")), append_assoc. done.
Qed.

Lemma rev_acc_rev_acc (s a b : string) :
  Str.rev_acc (Str.rev_acc s a) b = Str.rev_acc a (s ++ b).
Proof.
  revert a b. induction s as [|c s IH]; intros a b; simpl; [done|].
  by rewrite IH, append_cons.
Qed.

Lemma rev_rev_acc (s a : string) : Str.rev (Str.rev_acc s a) = Str.rev a ++ s.
Proof.
  unfold Str.rev at 1. rewrite rev_acc_rev_acc, rev_acc_append.
  by rewrite append_empty_r.
Qed.

Lemma rev_involutive (s : string) : Str.rev (Str.rev s) = s.
Proof. unfold Str.rev at 2. by rewrite rev_rev_acc. Qed.

Lemma forall_chars_rev_acc p s a :
  Str.forall_chars p (Str.rev_acc s a)
  = Str.forall_chars p s && Str.forall_chars p a.
Proof.
  revert a. induction s as [|c s IH]; intros a; simpl; [done|].
  rewrite IH. simpl. by destruct (p c), (Str.forall_chars p s).
Qed.

Lemma forall_chars_impl (p q : ascii -> bool) s :
  (forall c, p c = true -> q c = true) ->
  Str.forall_chars p s = true -> Str.forall_chars q s = true.
Proof.
  intros Hpq. induction s as [|c s IH]; simpl; [done|].
  intros [Hc Hs]%andb_true_iff. by rewrite (Hpq c Hc), IH.
Qed.

Lemma drop_while_none p s :
  Str.forall_chars (fun c => negb (p c)) s = true -> Str.drop_while p s = s.
Proof.
  destruct s as [|c s]; simpl; [done|].
  intros [Hc _]%andb_true_iff. by destruct (p c).
Qed.

Lemma take_while_all p s :
  Str.forall_chars p s = true -> Str.take_while p s = s.
Proof.
  induction s as [|c s IH]; simpl; [done|].
  intros [Hc Hs]%andb_true_iff. by rewrite Hc, IH.
Qed.

(** Stripping leaves a string without the stripped characters alone. *)
Lemma strip_by_none p s :
  Str.forall_chars (fun c => negb (p c)) s = true ->
  Str.rstrip_by p (Str.lstrip_by p s) = s.
Proof.
  intros H. unfold Str.rstrip_by, Str.lstrip_by.
  rewrite (drop_while_none p s H), drop_while_none, rev_involutive; [done|].
  unfold Str.rev. by rewrite forall_chars_rev_acc, H.
Qed.

Lemma between_digit c :
  Str.is_digit c = true -> (48 <= Str.code c <= 57)%nat.
Proof.
  unfold Str.is_digit, Str.between.
  intros [H1 H2]%andb_true_iff. apply Nat.leb_le in H1, H2. lia.
Qed.

Lemma digit_not_space c : Str.is_digit c = true -> negb (Str.is_space c) = true.
Proof.
  intros H%between_digit. unfold Str.is_space, Str.between.
  apply negb_true_iff, orb_false_iff.
  split; apply andb_false_iff; right; apply Nat.leb_gt; lia.
Qed.

Lemma digit_not_c_space c :
  Str.is_digit c = true -> negb (Str.is_c_space c) = true.
Proof.
  intros H%between_digit. unfold Str.is_c_space, Str.between.
  apply negb_true_iff, orb_false_iff.
  split; apply andb_false_iff; right; apply Nat.leb_gt; lia.
Qed.

Lemma digit_not_char c x :
  Str.is_digit c = true -> (Str.code x < 48 \/ 57 < Str.code x)%nat ->
  Ascii.eqb c x = false.
Proof.
  intros H%between_digit Hx. apply Ascii.eqb_neq. intros ->. lia.
Qed.

Lemma digit_value_range c :
  Str.is_digit c = true -> (0 <= Str.digit_value c <= 9)%Z.
Proof. intros H%between_digit. unfold Str.digit_value. lia. Qed.

Lemma int_body_digits s : forall prev acc,
  Str.forall_chars Str.is_digit s = true ->
  (s <> "" \/ prev = true) ->
  Str.int_body s prev acc = Some (Str.digits_value acc s).
Proof.
  induction s as [|c s IH]; intros prev acc Hs Hne; simpl.
  - destruct Hne as [? | ->]; done.
  - simpl in Hs. apply andb_true_iff in Hs as [Hc Hs].
    rewrite Hc. apply IH; [done|by right].
Qed.

(** [int] of a string of decimal digits is its value. *)
Lemma py_int_digits s :
  digits s = true -> Str.py_int s = Some (Str.digits_value 0 s).
Proof.
  unfold digits. intros [Hne Hd]%andb_true_iff.
  unfold Str.py_int.
  rewrite strip_by_none
    by (eapply forall_chars_impl; [apply digit_not_c_space|done]).
  destruct s as [|c s]; [done|].
  pose proof Hd as Hd'. simpl in Hd'. apply andb_true_iff in Hd' as [Hc _].
  assert (Hm : Ascii.eqb c "-" = false) by (apply digit_not_char; [done|left; compute; lia]).
  assert (Hp : Ascii.eqb c "+" = false) by (apply digit_not_char; [done|left; compute; lia]).
  rewrite <- (int_body_digits (String c s) false 0 Hd) by (by left).
  apply Ascii.eqb_neq in Hm, Hp.
  destruct c as [[] [] [] [] [] [] [] []]; try done.
Qed.

Lemma split_on_go_field sep a rest cur :
  Str.forall_chars (fun c => negb (Ascii.eqb c sep)) a = true ->
  Str.split_on_go sep (a ++ String sep rest) cur
  = (Str.rev cur ++ a) :: Str.split_on_go sep rest "".
Proof.
  revert cur. induction a as [|c a IH]; intros cur.
  - intros _. simpl. by rewrite Ascii.eqb_refl, append_empty_r.
  - rewrite append_cons. simpl.
    intros [Hc Ha]%andb_true_iff. apply negb_true_iff in Hc. rewrite Hc.
    rewrite IH by done. f_equal. unfold Str.rev. simpl.
    by rewrite rev_acc_append, append_assoc.
Qed.

Lemma split_on_go_last sep a cur :
  Str.forall_chars (fun c => negb (Ascii.eqb c sep)) a = true ->
  Str.split_on_go sep a cur = [Str.rev cur ++ a].
Proof.
  revert cur. induction a as [|c a IH]; intros cur; simpl.
  - intros _. by rewrite append_empty_r.
  - intros [Hc Ha]%andb_true_iff. apply negb_true_iff in Hc. rewrite Hc.
    rewrite IH by done. f_equal. unfold Str.rev. simpl.
    by rewrite rev_acc_append, append_assoc.
Qed.

Lemma digits_no_colon s :
  digits s = true ->
  Str.forall_chars (fun c => negb (Ascii.eqb c ":")) s = true.
Proof.
  unfold digits. intros [_ Hd]%andb_true_iff.
  eapply forall_chars_impl; [|done]. intros c Hc.
  apply negb_true_iff, digit_not_char; [done|right; compute; lia].
Qed.

Lemma split_on_timestamp dm ds df :
  digits dm = true -> digits ds = true -> digits df = true ->
  Str.split_on ":" (dm ++ ":" ++ ds ++ ":" ++ df) = [dm; ds; df].
Proof.
  intros Hm Hs Hf. unfold Str.split_on.
  change (dm ++ ":" ++ ds ++ ":" ++ df)
    with (dm ++ String ":" (ds ++ String ":" df)).
  rewrite !split_on_go_field, split_on_go_last by by apply digits_no_colon.
  done.
Qed.

(** The conversion of a time stamp made of three fields of decimal
    digits. *)
Lemma parse_time_digits dm ds df :
  digits dm = true -> digits ds = true -> digits df = true ->
  _parse_time (dm ++ ":" ++ ds ++ ":" ++ df)
  = timestamp_seconds (Str.digits_value 0 dm) (Str.digits_value 0 ds)
                      (Str.digits_value 0 df).
Proof.
  intros Hm Hs Hf. unfold _parse_time.
  rewrite split_on_timestamp by done. simpl.
  by rewrite !py_int_digits.
Qed.

(** A time stamp that is not three colon-separated integers converts to
    0.0. *)
Lemma parse_time_malformed t :
  (forall m s f,
     map Str.py_int (Str.split_on ":" t) <> [Some m; Some s; Some f]) ->
  _parse_time t = Ok 0%float.
Proof.
  intros H. unfold _parse_time.
  destruct (map Str.py_int (Str.split_on ":" t))
    as [|[m|] [|[s|] [|[f|] [|? ?]]]]; try done.
  by destruct (H m s f).
Qed.

(** Integers below 6040 (99 minutes and 99 seconds) convert to floats. *)
Lemma float_of_int_small_table :
  forallb (fun n => is_ok (float_of_int (Z.of_nat n))) (seq 0 (Z.to_nat 6040))
  = true.
Proof. vm_cast_no_check (@eq_refl bool true). Qed.

Lemma float_of_int_small z :
  (0 <= z < 6040)%Z -> exists x, float_of_int z = Ok x.
Proof.
  intros Hz. pose proof float_of_int_small_table as H.
  rewrite forallb_forall in H.
  assert (Hin : In (Z.to_nat z) (seq 0 (Z.to_nat 6040))) by (apply in_seq; lia).
  specialize (H _ Hin). rewrite Z2Nat.id in H by lia.
  destruct (float_of_int z) as [x|]; [by eexists|done].
Qed.

Lemma two_digit_field_value s :
  two_digit_field s = true -> digits s = true /\ (0 <= Str.digits_value 0 s <= 99)%Z.
Proof.
  unfold two_digit_field. intros [Hd Hl]%andb_true_iff. split; [done|].
  apply Nat.eqb_eq in Hl. unfold digits in Hd.
  apply andb_true_iff in Hd as [_ Hd].
  destruct s as [|a [|b [|? ?]]]; try done. simpl in *.
  apply andb_true_iff in Hd as [Ha Hd]. apply andb_true_iff in Hd as [Hb _].
  apply digit_value_range in Ha, Hb. lia.
Qed.

(** ** The logging monad *)

Lemma trace_bind {A B} (m : io A) (k : A -> io B) :
  trace (m ≫= k)
  = (trace m ++ match outcome m with
                | Ok a => trace (k a)
                | Raise _ => []
                end)%list.
Proof.
  destruct m as [t [a|e]]; simpl; [|by rewrite app_nil_r].
  by destruct (k a).
Qed.

Lemma outcome_bind {A B} (m : io A) (k : A -> io B) :
  outcome (m ≫= k)
  = match outcome m with
    | Ok a => outcome (k a)
    | Raise e => Raise e
    end.
Proof. destruct m as [t [a|e]]; simpl; [|done]. by destruct (k a). Qed.

Lemma trace_lift {A} (r : result A) : trace (lift r) = [].
Proof. done. Qed.

Lemma outcome_lift {A} (r : result A) : outcome (lift r) = r.
Proof. done. Qed.

(** Results of a loop that returned: one per element, in order. *)
Lemma mapM_io_outcome {A B} (f : A -> io B) (l : list A) (rs : list B) :
  outcome (mapM_io f l) = Ok rs ->
  Forall2 (fun a r => outcome (f a) = Ok r) l rs.
Proof.
  revert rs. induction l as [|a l IH]; intros rs; simpl.
  - intros [= <-]. constructor.
  - rewrite outcome_bind. destruct (outcome (f a)) as [b|e] eqn:E; [|done].
    rewrite outcome_bind. destruct (outcome (mapM_io f l)) as [bs|e]; [|done].
    simpl. intros [= <-]. constructor; [done|by apply IH].
Qed.

(** An observation that is silent on every iteration is silent on the
    loop. *)
Lemma mapM_io_silent_on {A B C} (obs : event -> option C) (f : A -> io B)
    (l : list A) :
  Forall (fun a => omap obs (trace (f a)) = []) l ->
  omap obs (trace (mapM_io f l)) = [].
Proof.
  induction 1 as [|a l Ha _ IH]; simpl; [done|].
  rewrite trace_bind, omap_app, Ha. simpl.
  destruct (outcome (f a)); [|done].
  rewrite trace_bind, omap_app, IH. simpl.
  by destruct (outcome (mapM_io f l)).
Qed.

Lemma mapM_io_silent {A B C} (obs : event -> option C) (f : A -> io B)
    (l : list A) :
  (forall a, omap obs (trace (f a)) = []) ->
  omap obs (trace (mapM_io f l)) = [].
Proof. intros Hf. apply mapM_io_silent_on, Forall_forall. auto. Qed.

(** The same for the tasks of a pool. *)
Lemma pool_map_trace {A B} (f : A -> io B) (l : list A) :
  trace (pool_map f l) = concat (map (fun a => trace (f a)) l).
Proof.
  induction l as [|a l IH]; simpl; [done|].
  destruct (f a) as [t1 r1]. destruct (pool_map f l) as [t2 r2].
  simpl in *. by rewrite IH.
Qed.

Lemma pool_map_outcome {A B} (f : A -> io B) (l : list A) (rs : list B) :
  outcome (pool_map f l) = Ok rs ->
  Forall2 (fun a r => outcome (f a) = Ok r) l rs.
Proof.
  revert rs. induction l as [|a l IH]; intros rs; simpl.
  - intros [= <-]. constructor.
  - destruct (f a) as [t1 [b|e]] eqn:Ef;
      destruct (pool_map f l) as [t2 [bs|e']]; simpl in *; try done.
    intros [= <-]. constructor; [by rewrite Ef|by apply IH].
Qed.

Lemma pool_map_silent_on {A B C} (obs : event -> option C) (f : A -> io B)
    (l : list A) :
  Forall (fun a => omap obs (trace (f a)) = []) l ->
  omap obs (trace (pool_map f l)) = [].
Proof.
  rewrite pool_map_trace.
  induction 1 as [|a l Ha _ IH]; simpl; [done|].
  by rewrite omap_app, Ha, IH.
Qed.

Lemma pool_map_silent {A B C} (obs : event -> option C) (f : A -> io B)
    (l : list A) :
  (forall a, omap obs (trace (f a)) = []) ->
  omap obs (trace (pool_map f l)) = [].
Proof. intros Hf. apply pool_map_silent_on, Forall_forall. auto. Qed.

Section ProcessorFacts.

Context (w : world) (od : option string).

Lemma split_task_trace album input output total d :
  trace (split_task w album input output total d) = [ESplit d].
Proof. unfold split_task. by rewrite trace_bind. Qed.

Lemma split_task_outcome album input output total d :
  outcome (split_task w album input output total d)
  = _process_single_track w d album input output total.
Proof. unfold split_task. by rewrite outcome_bind. Qed.

Lemma sequential_task_pools album input output total it :
  track_pools (trace (sequential_task w album input output total it)) = [].
Proof.
  destruct it as [i d]. unfold sequential_task. lazy beta iota zeta.
  rewrite trace_bind, trace_lift, outcome_lift.
  destruct (getitem d "title"); [|done].
  by rewrite trace_bind, split_task_trace.
Qed.

Lemma sequential_task_outcome album input output total i d r :
  outcome (sequential_task w album input output total (i, d)) = Ok r ->
  _process_single_track w d album input output total = Ok r.
Proof.
  unfold sequential_task. lazy beta iota zeta.
  rewrite outcome_bind, outcome_lift.
  destruct (getitem d "title"); [|done].
  by rewrite outcome_bind, split_task_outcome.
Qed.

Lemma Forall2_imap_pairs {A B} (Q : A -> B -> Prop) (l : list A) :
  forall (g : nat -> nat) (rs : list B),
    Forall2 (fun (it : nat * A) r => Q (snd it) r)
            (imap (fun i d => (g i, d)) l) rs ->
    Forall2 Q l rs.
Proof.
  induction l as [|a l IH]; intros g rs H; simpl in *.
  - inversion H. constructor.
  - inversion H as [|? r ? rs' Ha Hl]; subst. constructor; [done|].
    by apply (IH (g ∘ S)).
Qed.

(** The pool of the track level: created only when the flag is set and
    there is more than one track, with the size of the formula. *)
Lemma dispatch_tracks_pools album input output tasks flag :
  track_pools (trace (dispatch_tracks w album input output tasks flag))
  = if flag && (1 <? length tasks)%nat
    then [Nat.min (cpu_count w) (Nat.min (length tasks) 4)]
    else [].
Proof.
  unfold dispatch_tracks.
  destruct (flag && (1 <? length tasks)%nat).
  - rewrite !trace_bind. simpl. unfold track_pools. simpl. f_equal.
    apply (pool_map_silent _ _ tasks). intros d.
    by rewrite split_task_trace.
  - rewrite trace_bind. simpl. unfold track_pools. simpl.
    apply (mapM_io_silent _ _ _). intros it.
    apply sequential_task_pools.
Qed.

(** The results of the dispatch are the outcomes of the split jobs, one
    per track, in track order, in both modes. *)
Lemma dispatch_tracks_outcome album input output tasks flag results :
  outcome (dispatch_tracks w album input output tasks flag) = Ok results ->
  Forall2 (fun d r => _process_single_track w d album input output
                        (length tasks) = Ok r) tasks results.
Proof.
  unfold dispatch_tracks.
  destruct (flag && (1 <? length tasks)%nat).
  - rewrite !outcome_bind. simpl. intros H%pool_map_outcome.
    eapply Forall2_impl; [exact H|]. intros d r Hd. rewrite <- Hd.
    symmetry. apply split_task_outcome.
  - rewrite outcome_bind. simpl. intros H%mapM_io_outcome.
    apply (Forall2_imap_pairs _ _ id).
    eapply Forall2_impl; [exact H|]. intros [i d] r. simpl.
    apply sequential_task_outcome.
Qed.

End ProcessorFacts.

(** Aggregation of the track outcomes (lines 91-94). *)
Lemma failed_tracks_forallb results :
  forallb fst results
  = match failed_tracks results with [] => true | _ => false end.
Proof.
  unfold failed_tracks. induction results as [|[b d] rs IH]; [done|].
  rewrite filter_cons. destruct b; simpl; [apply IH|done].
Qed.

Lemma mapM_id_Some (l : list (option string)) (strs : list string) :
  mapM id l = Some strs -> l = map Some strs /\ omap id l = strs.
Proof.
  intros H%mapM_Some.
  induction H as [|x y l k Hx _ [IH1 IH2]]; [done|].
  simpl in Hx. subst x. split.
  - by rewrite IH1 at 1.
  - change (omap id (Some y :: l)) with (y :: omap id l). by rewrite IH2.
Qed.

(** Lines 91-94: success exactly when no track failed; otherwise the
    diagnostics of all the failed tracks, joined by newlines. *)
Lemma aggregate_result results r :
  aggregate results = Ok r ->
  failed_tracks results = map Some (failed_diagnostics results) /\
  r = (forallb fst results,
       if forallb fst results then None
       else Some (Str.join nl (failed_diagnostics results))).
Proof.
  unfold aggregate, failed_diagnostics. rewrite failed_tracks_forallb.
  destruct (failed_tracks results) as [|m ms] eqn:E.
  - by intros [= <-].
  - unfold join_diagnostics.
    destruct (mapM id (m :: ms)) as [strs|] eqn:Em; [|done].
    apply mapM_id_Some in Em as [Hl Ho]. rewrite Ho.
    intros [= <-]. done.
Qed.

(** A failed split outcome always carries a diagnostic, so joining the
    diagnostics of the failed tracks never raises. *)
Lemma single_track_diagnostic w d album input output total r :
  _process_single_track w d album input output total = Ok r ->
  fst r = false -> is_Some (snd r).
Proof.
  unfold _process_single_track.
  destruct (getitem d "number") as [v|]; simpl; [|done].
  destruct (as_int v) as [n|]; simpl; [|done].
  destruct (split_body _ _ _ _ _ _ _) as [|[]]; intros [= <-]; simpl;
    try done; intros _; by eexists.
Qed.

Lemma aggregate_total results :
  Forall (fun r : outcome_t => fst r = false -> is_Some (snd r)) results ->
  is_ok (aggregate results) = true.
Proof.
  intros H. unfold aggregate.
  destruct (failed_tracks results) as [|m ms] eqn:E; [done|].
  unfold join_diagnostics.
  assert (Hs : Forall (fun o : option string => is_Some o) (m :: ms)).
  { rewrite <- E. unfold failed_tracks. clear E.
    induction H as [|[b d] rs Hr _ IH]; simpl; [constructor|].
    rewrite filter_cons. destruct b; simpl; [done|].
    constructor; [by apply Hr|done]. }
  destruct (mapM id (m :: ms)) as [strs|] eqn:Em; simpl; [done|].
  exfalso. revert Em Hs. generalize (m :: ms). intros l.
  induction l as [|o l IH]; simpl; [done|].
  intros Hm Hs. inversion Hs as [|? ? [s ->] Hs']; subst. simpl in Hm.
  destruct (mapM id l); simpl in *; [done|]. by apply IH.
Qed.

Lemma outcome_emit_bind {B} (e : event) (k : unit -> io B) :
  outcome (emit e ≫= k) = outcome (k tt).
Proof. by rewrite outcome_bind. Qed.

Lemma trace_emit_bind {B} (e : event) (k : unit -> io B) :
  trace (emit e ≫= k) = e :: trace (k tt).
Proof. by rewrite trace_bind. Qed.

Lemma outcome_lift_bind {A B} (r : result A) (k : A -> io B) :
  outcome (lift r ≫= k)
  = match r with Ok a => outcome (k a) | Raise e => Raise e end.
Proof. by rewrite outcome_bind. Qed.

Lemma trace_lift_bind {A B} (r : result A) (k : A -> io B) :
  trace (lift r ≫= k) = match r with Ok a => trace (k a) | Raise e => [] end.
Proof. by rewrite trace_bind. Qed.

Lemma track_pools_app t1 t2 :
  track_pools (t1 ++ t2) = (track_pools t1 ++ track_pools t2)%list.
Proof. apply omap_app. Qed.

Lemma track_pools_cons e t :
  track_pools (e :: t)
  = match e with
    | ETrackPool n => n :: track_pools t
    | _ => track_pools t
    end.
Proof. by destruct e. Qed.

Lemma worker_calls_cons e t :
  worker_calls (e :: t)
  = match e with
    | EWorker p b => (p, b) :: worker_calls t
    | _ => worker_calls t
    end.
Proof. by destruct e. Qed.

Lemma album_pools_cons e t :
  album_pools (e :: t)
  = match e with
    | EAlbumPool n => n :: album_pools t
    | _ => album_pools t
    end.
Proof. by destruct e. Qed.

Section AlbumFacts.

Context (w : world) (od : option string).

(** The result of [process_album] on a non-empty track list is the
    aggregate of the split outcomes of its tracks. *)
Lemma process_album_outcome album tracks h dir flag h' r :
  outcome (process_album w od album tracks h dir flag) = Ok (h', r) ->
  tracks <> [] ->
  exists input output results,
    Forall2 (fun l res =>
               _process_single_track w (deref h' l) album input output
                 (length tracks) = Ok res) tracks results /\
    aggregate results = Ok r.
Proof.
  unfold process_album. intros H Hne.
  rewrite outcome_lift_bind in H.
  destruct (_ ← as_str _; _) as [title|]; [|done].
  rewrite outcome_emit_bind, outcome_lift_bind in H.
  destruct (makedirs w _) as [[]|]; [|done].
  rewrite outcome_emit_bind, outcome_lift_bind in H.
  destruct (_ ← getitem album "file"; _) as [input|]; [|done].
  destruct tracks as [|l0 tracks0]; [done|]. set (tracks := l0 :: tracks0) in *.
  change (length tracks =? 0)%nat with false in H. cbv iota in H.
  rewrite outcome_emit_bind, outcome_lift_bind in H.
  destruct (probe_duration _ _ _ _) as [h1|]; [|done].
  rewrite outcome_bind in H.
  destruct (outcome (dispatch_tracks _ _ _ _ _ _)) as [results|] eqn:Hd; [|done].
  rewrite outcome_lift_bind in H.
  destruct (aggregate results) as [r'|] eqn:Ha; [|done].
  injection H as <- <-.
  apply dispatch_tracks_outcome in Hd.
  eexists _, _, results. split; [|done].
  rewrite length_map in Hd. by apply Forall2_fmap_l in Hd.
Qed.

(** The track-level pool of one album. *)
Lemma process_album_pools album tracks h dir flag :
  track_pools (trace (process_album w od album tracks h dir flag)) = [] \/
  (flag = true /\ (1 < length tracks)%nat /\
   track_pools (trace (process_album w od album tracks h dir flag))
   = [Nat.min (cpu_count w) (Nat.min (length tracks) 4)]).
Proof.
  unfold process_album.
  rewrite trace_lift_bind.
  destruct (_ ← as_str _; _) as [title|]; [|by left].
  rewrite trace_emit_bind, trace_lift_bind.
  destruct (makedirs w _) as [[]|]; [|by left].
  rewrite trace_emit_bind, trace_lift_bind.
  destruct (_ ← getitem album "file"; _) as [input|]; [|by left].
  destruct (length tracks =? 0)%nat; [by left|].
  rewrite trace_emit_bind, trace_lift_bind.
  destruct (probe_duration _ _ _ _) as [h1|]; [|by left].
  rewrite trace_bind.
  assert (Hrest : forall o : result (list outcome_t),
    track_pools match o with
                | Ok a => trace (r ← lift (aggregate a); mret (h1, r))
                | Raise _ => []
                end = []).
  { intros [a|]; [|done]. rewrite trace_lift_bind. by destruct (aggregate a). }
  rewrite !track_pools_cons, track_pools_app, Hrest, app_nil_r.
  rewrite dispatch_tracks_pools, length_map.
  destruct flag; simpl; [|by left].
  destruct (1 <? length tracks)%nat eqn:E; [|by left].
  right. apply Nat.ltb_lt in E. done.
Qed.

End AlbumFacts.

Section Silent.

Context {C : Type} (obs : event -> option C).
Context (Hobs : forall e, album_event e = true -> obs e = None).
Context (w : world) (od : option string).

Lemma omap_cons_silent e t :
  album_event e = true -> omap obs (e :: t) = omap obs t.
Proof. intros H. simpl. by rewrite (Hobs e H). Qed.

Lemma sequential_task_silent album input output total it :
  omap obs (trace (sequential_task w album input output total it)) = [].
Proof.
  destruct it as [i d]. unfold sequential_task. lazy beta iota zeta.
  rewrite trace_lift_bind.
  destruct (getitem d "title"); [|done].
  rewrite trace_emit_bind, split_task_trace.
  by rewrite !omap_cons_silent.
Qed.

Lemma dispatch_tracks_silent album input output tasks flag :
  omap obs (trace (dispatch_tracks w album input output tasks flag)) = [].
Proof.
  unfold dispatch_tracks.
  destruct (flag && (1 <? length tasks)%nat).
  - rewrite !trace_emit_bind, !omap_cons_silent by done.
    apply pool_map_silent. intros d.
    by rewrite split_task_trace, omap_cons_silent.
  - rewrite trace_emit_bind, omap_cons_silent by done.
    apply mapM_io_silent. intros it. apply sequential_task_silent.
Qed.

(** [process_album] only creates the directory, prints, probes, creates
    the track pool and splits. *)
Lemma process_album_silent album tracks h dir flag :
  omap obs (trace (process_album w od album tracks h dir flag)) = [].
Proof.
  unfold process_album.
  rewrite trace_lift_bind.
  destruct (_ ← as_str _; _) as [title|]; [|done].
  rewrite trace_emit_bind, trace_lift_bind, omap_cons_silent by done.
  destruct (makedirs w _) as [[]|]; [|done].
  rewrite trace_emit_bind, trace_lift_bind, omap_cons_silent by done.
  destruct (_ ← getitem album "file"; _) as [input|]; [|done].
  destruct (length tracks =? 0)%nat; [done|].
  rewrite trace_emit_bind, trace_lift_bind, omap_cons_silent by done.
  destruct (probe_duration _ _ _ _) as [h1|]; [|done].
  rewrite trace_bind, omap_app, dispatch_tracks_silent, app_nil_l.
  destruct (outcome (dispatch_tracks _ _ _ _ _ _)) as [a|]; [|done].
  rewrite trace_lift_bind. by destruct (aggregate a).
Qed.

End Silent.

(** ** The worker and the dispatch block *)

Lemma processor_events_app t1 t2 :
  processor_events (t1 ++ t2)
  = (processor_events t1 ++ processor_events t2)%list.
Proof. apply List.filter_app. Qed.

Lemma processor_events_concat (ts : list (list event)) :
  processor_events (concat ts) = concat (map processor_events ts).
Proof.
  induction ts as [|t ts IH]; [done|].
  simpl. by rewrite processor_events_app, IH.
Qed.

Lemma track_pools_processor_events t :
  track_pools (processor_events t) = track_pools t.
Proof.
  induction t as [|e t IH]; [done|].
  unfold processor_events in *. simpl.
  destruct e; simpl; by rewrite ?IH.
Qed.

Section BatchFacts.

Context (w : world) (prepare : string -> result prepared).

Lemma trace_try_except {A} (m : io A) (handler : exn -> A) :
  trace (try_except m handler) = trace m.
Proof. by destruct m as [t [a|e]]. Qed.

Lemma outcome_try_except {A} (m : io A) (handler : exn -> A) :
  outcome (try_except m handler)
  = Ok match outcome m with Ok a => a | Raise e => handler e end.
Proof. by destruct m as [t [a|e]]. Qed.

Lemma worker_trace file_path flag :
  trace (process_album_worker w prepare (file_path, flag))
  = EWorker file_path flag
    :: EPrint [VStr (log_prefix w file_path); VStr " 开始处理..."]
    :: trace (worker_body w prepare file_path flag).
Proof.
  unfold process_album_worker.
  by rewrite !trace_emit_bind, trace_try_except.
Qed.

(** The events of the body of the worker: those of the album processor,
    called with the flag of the task, and at most the success line. *)
Lemma worker_body_trace file_path flag :
  exists tail,
    (tail = [] \/ exists parts, tail = [EPrint parts]) /\
    trace (worker_body w prepare file_path flag)
    = match prepare file_path with
      | Ok (inr (album, tracks, h, dir)) =>
          (trace (process_album w None album tracks h dir flag) ++ tail)%list
      | _ => []
      end.
Proof.
  unfold worker_body. lazy zeta. rewrite trace_lift_bind.
  destruct (prepare file_path) as [[msg|[[[album tracks] h] dir]]|];
    [by exists []; split; [left|]| |by exists []; split; [left|]].
  rewrite trace_bind.
  destruct (outcome (process_album w None album tracks h dir flag))
    as [[h' [[] msg]]|].
  - eexists. split; [right; by eexists|]. done.
  - exists []. by split; [left|].
  - exists []. by split; [left|].
Qed.

Lemma worker_observed {C} (obs : event -> option C) file_path flag :
  (forall parts, obs (EPrint parts) = None) ->
  omap obs (trace (process_album_worker w prepare (file_path, flag)))
  = (omap obs [EWorker file_path flag]
     ++ match prepare file_path with
        | Ok (inr (album, tracks, h, dir)) =>
            omap obs (trace (process_album w None album tracks h dir flag))
        | _ => []
        end)%list.
Proof.
  intros Hobs. rewrite worker_trace.
  destruct (worker_body_trace file_path flag) as (tail & Htail & ->).
  change (EWorker file_path flag :: ?x :: ?t)
    with ([EWorker file_path flag] ++ [x] ++ t)%list.
  rewrite !omap_app. f_equal. simpl. rewrite Hobs. simpl.
  destruct (prepare file_path) as [[msg|[[[album tracks] h] dir]]|]; try done.
  rewrite omap_app.
  destruct Htail as [->|[parts ->]]; simpl; by rewrite ?Hobs, app_nil_r.
Qed.

Lemma worker_calls_worker file_path flag :
  worker_calls (trace (process_album_worker w prepare (file_path, flag)))
  = [(file_path, flag)].
Proof.
  unfold worker_calls. rewrite worker_observed by done. simpl.
  destruct (prepare file_path) as [[msg|[[[album tracks] h] dir]]|]; try done.
  f_equal. by apply process_album_silent; intros [].
Qed.

Lemma album_pools_worker args :
  album_pools (trace (process_album_worker w prepare args)) = [].
Proof.
  destruct args as [file_path flag].
  unfold album_pools. rewrite worker_observed by done. simpl.
  destruct (prepare file_path) as [[msg|[[[album tracks] h] dir]]|]; try done.
  by apply process_album_silent; intros [].
Qed.

Lemma processor_events_worker file_path flag :
  processor_events (trace (process_album_worker w prepare (file_path, flag)))
  = album_run w prepare flag file_path.
Proof.
  rewrite worker_trace.
  destruct (worker_body_trace file_path flag) as (tail & Htail & ->).
  unfold album_run, processor_events. cbn [List.filter processor_event].
  destruct (prepare file_path) as [[msg|[[[album tracks] h] dir]]|]; try done.
  rewrite List.filter_app.
  destruct Htail as [->|[parts ->]]; simpl; by rewrite app_nil_r.
Qed.

Lemma track_pools_worker file_path flag :
  track_pools (trace (process_album_worker w prepare (file_path, flag)))
  = track_pools (album_run w prepare flag file_path).
Proof.
  by rewrite <- processor_events_worker, track_pools_processor_events.
Qed.

Lemma album_run_sequential file_path :
  track_pools (album_run w prepare false file_path) = [].
Proof.
  unfold album_run.
  destruct (prepare file_path) as [[msg|[[[album tracks] h] dir]]|]; try done.
  rewrite track_pools_processor_events.
  destruct (process_album_pools w None album tracks h dir false)
    as [H|[H _]]; done.
Qed.

End BatchFacts.

Section DispatchFacts.

Context (w : world) (prepare : string -> result prepared).

(** The trace of the dispatch block with more than one task: the two mode
    lines, the album pool, the workers in task order with the flag off,
    and the terminal reset when the pool has returned. *)
Lemma run_tasks_concurrent_trace tasks :
  (1 < length tasks)%nat ->
  exists head tail,
    trace (run_tasks w prepare tasks)
    = (head
       :: EPrint [VStr "开始处理 "; VInt (Z.of_nat (length tasks));
                  VStr " 个任务，使用 ";
                  VInt (Z.of_nat (Nat.min (cpu_count w)
                                    (Nat.min (length tasks) 4)));
                  VStr " 个核心。"]
       :: EAlbumPool (Nat.min (cpu_count w) (Nat.min (length tasks) 4))
       :: concat (map (fun t => trace (process_album_worker w prepare
                                         (t, false))) tasks)
       ++ tail)%list /\
    head = EPrint [VStr nl; VStr "检测到多个专辑，将启用【专辑并发】模式。"] /\
    (tail = [] \/
     tail = [EPrint [VStr "...并发任务完成，正在重置终端..."]; EReset]).
Proof.
  intros Hlen. unfold run_tasks. apply Nat.ltb_lt in Hlen. rewrite Hlen.
  lazy zeta. rewrite trace_bind.
  set (m := _ ← emit _; _ ← emit _; _ ← emit _; pool_map _ _).
  assert (Hm : trace m
    = EPrint [VStr nl; VStr "检测到多个专辑，将启用【专辑并发】模式。"]
      :: EPrint [VStr "开始处理 "; VInt (Z.of_nat (length tasks));
                 VStr " 个任务，使用 ";
                 VInt (Z.of_nat (Nat.min (cpu_count w)
                                   (Nat.min (length tasks) 4)));
                 VStr " 个核心。"]
      :: EAlbumPool (Nat.min (cpu_count w) (Nat.min (length tasks) 4))
      :: concat (map (fun t => trace (process_album_worker w prepare
                                        (t, false))) tasks)).
  { unfold m. rewrite !trace_emit_bind, pool_map_trace, map_map. done. }
  rewrite Hm. eexists _, _. split; [done|]. split; [done|].
  destruct (outcome m); [right|left]; done.
Qed.

(** The trace of the dispatch block with one task: the mode line and the
    worker, run in place with the flag on. *)
Lemma run_tasks_single_trace t :
  trace (run_tasks w prepare [t])
  = EPrint [VStr nl; VStr "将以【顺序】模式处理专辑。"]
    :: trace (process_album_worker w prepare (t, true)).
Proof.
  unfold run_tasks. simpl length. change (1 <? 1)%nat with false.
  lazy zeta iota. rewrite trace_bind.
  set (m := emit _ ≫= _).
  assert (Htail : match outcome m with
                  | Ok a => trace (_ ← (mret tt : io unit);
                                   (mret a : io (list task_outcome)))
                  | Raise _ => []
                  end = []) by (by destruct (outcome m)).
  rewrite Htail, app_nil_r. unfold m. clear m Htail.
  rewrite trace_emit_bind. cbn [mapM_io]. rewrite trace_bind.
  set (wk := process_album_worker w prepare (t, true)).
  assert (Htail : match outcome wk with
                  | Ok b => trace (bs ← (mret [] : io (list task_outcome));
                                   (mret (b :: bs) : io (list task_outcome)))
                  | Raise _ => []
                  end = []) by (by destruct (outcome wk)).
  by rewrite Htail, app_nil_r.
Qed.

Lemma omap_concat_map {A C} (obs : event -> option C) (f : A -> list event)
    (l : list A) :
  omap obs (concat (map f l)) = concat (map (fun a => omap obs (f a)) l).
Proof.
  induction l as [|a l IH]; [done|]. simpl. by rewrite omap_app, IH.
Qed.

Lemma concat_map_nil {A B} (f : A -> list B) (l : list A) :
  (forall a, f a = []) -> concat (map f l) = [].
Proof. intros Hf. induction l as [|a l IH]; [done|]. simpl. by rewrite Hf. Qed.

Lemma concat_map_singleton {A B} (f : A -> B) (l : list A) :
  concat (map (fun a => [f a]) l) = map f l.
Proof. induction l as [|a l IH]; [done|]. simpl. by rewrite IH. Qed.

Lemma run_tasks_concurrent tasks :
  (1 < length tasks)%nat ->
  let r := run_tasks w prepare tasks in
  album_pools (trace r) = [Nat.min (cpu_count w) (Nat.min (length tasks) 4)] /\
  worker_calls (trace r) = map (fun t => (t, false)) tasks /\
  processor_events (trace r) = concat (map (album_run w prepare false) tasks) /\
  track_pools (trace r) = [].
Proof.
  intros Hlen.
  destruct (run_tasks_concurrent_trace tasks Hlen) as (hd & tl & Ht & -> & Htl).
  cbv zeta. rewrite Ht. clear Ht.
  assert (Hobs : forall {C} (obs : event -> option C),
            (forall parts, obs (EPrint parts) = None) -> obs EReset = None ->
            omap obs tl = []).
  { intros C obs Hp Hr. destruct Htl as [-> | ->]; simpl; by rewrite ?Hp, ?Hr. }
  split_and!.
  - rewrite !album_pools_cons. unfold album_pools.
    rewrite omap_app, Hobs, app_nil_r, omap_concat_map by done.
    f_equal. apply concat_map_nil. intros t. apply album_pools_worker.
  - rewrite !worker_calls_cons. unfold worker_calls.
    rewrite omap_app, Hobs, app_nil_r, omap_concat_map by done.
    rewrite <- (concat_map_singleton (fun t => (t, false)) tasks).
    f_equal. apply map_ext. intros t. apply worker_calls_worker.
  - unfold processor_events. cbn [List.filter processor_event].
    rewrite List.filter_app.
    assert (Htl' : List.filter processor_event tl = [])
      by (by destruct Htl as [-> | ->]).
    rewrite Htl', app_nil_r.
    fold (processor_events
            (concat (map (fun t => trace (process_album_worker w prepare
                                            (t, false))) tasks))).
    rewrite processor_events_concat, map_map. f_equal. apply map_ext.
    intros t. apply processor_events_worker.
  - rewrite !track_pools_cons. unfold track_pools.
    rewrite omap_app, Hobs, app_nil_r, omap_concat_map by done.
    apply concat_map_nil. intros t.
    fold (track_pools (trace (process_album_worker w prepare (t, false)))).
    rewrite track_pools_worker. apply album_run_sequential.
Qed.

Lemma run_tasks_single t :
  let r := run_tasks w prepare [t] in
  album_pools (trace r) = [] /\
  worker_calls (trace r) = [(t, true)] /\
  processor_events (trace r) = album_run w prepare true t.
Proof.
  cbv zeta. rewrite run_tasks_single_trace.
  rewrite album_pools_cons, worker_calls_cons.
  rewrite album_pools_worker, worker_calls_worker.
  split; [done|]. split; [done|].
  unfold processor_events. cbn [List.filter processor_event].
  apply processor_events_worker.
Qed.

End DispatchFacts.

(** When [process_album] returns, the track pool is there exactly when the
    flag is set and there is more than one track. *)
Lemma process_album_pools_returned w od album tracks h dir flag x :
  outcome (process_album w od album tracks h dir flag) = Ok x ->
  track_pools (trace (process_album w od album tracks h dir flag))
  = if flag && (1 <? length tracks)%nat
    then [Nat.min (cpu_count w) (Nat.min (length tracks) 4)]
    else [].
Proof.
  unfold process_album.
  rewrite outcome_lift_bind, trace_lift_bind.
  destruct (_ ← as_str _; _) as [title|]; [|done].
  rewrite outcome_emit_bind, outcome_lift_bind, trace_emit_bind, trace_lift_bind.
  destruct (makedirs w _) as [[]|]; [|done].
  rewrite outcome_emit_bind, outcome_lift_bind, trace_emit_bind, trace_lift_bind.
  destruct (_ ← getitem album "file"; _) as [input|]; [|done].
  destruct tracks as [|l0 tracks0].
  { intros _. by rewrite andb_false_r. }
  set (tracks := l0 :: tracks0) in *.
  change (length tracks =? 0)%nat with false. cbv iota.
  rewrite outcome_emit_bind, outcome_lift_bind, trace_emit_bind, trace_lift_bind.
  destruct (probe_duration _ _ _ _) as [h1|]; [|done].
  rewrite outcome_bind, trace_bind.
  destruct (outcome (dispatch_tracks _ _ _ _ _ _)) as [results|]; [|done].
  rewrite outcome_lift_bind, trace_lift_bind.
  intros _. rewrite !track_pools_cons, track_pools_app.
  rewrite dispatch_tracks_pools, length_map.
  destruct (aggregate results); by rewrite app_nil_r.
Qed.

(** ** The aggregation of the track outcomes *)

Lemma join_concat sep l : Str.join sep l = String.concat sep l.
Proof.
  induction l as [|x [|y l] IH]; [done|done|].
  change (Str.join sep (x :: y :: l)) with (x ++ sep ++ Str.join sep (y :: l)).
  by rewrite IH.
Qed.

Lemma failed_diagnostics_omap results :
  failed_diagnostics results
  = omap (fun res : outcome_t => if fst res then None else snd res) results.
Proof.
  unfold failed_diagnostics, failed_tracks.
  induction results as [|[[] d] results IH]; [done| |].
  - rewrite filter_cons_False by (simpl; tauto). exact IH.
  - rewrite filter_cons_True by done.
    destruct d; cbn [map omap list_omap fst snd id mbind option_bind];
      [f_equal|]; exact IH.
Qed.

Lemma forallb_fst_Forall (results : list outcome_t) :
  forallb fst results = true <-> Forall (fun res => fst res = true) results.
Proof.
  induction results as [|[b d] results IH]; simpl.
  - split; [constructor|done].
  - rewrite andb_true_iff, IH. split.
    + intros [-> H]. by constructor.
    + inversion 1; subst. by split.
Qed.

(** ** Reading a written line *)

(** Facts about one character are settled by going through the
    characters. *)
Ltac by_characters c :=
  destruct c as [[] [] [] [] [] [] [] []]; vm_compute; try done; auto.

Lemma word_not_space c : Str.is_word c = true -> Str.is_space c = false.
Proof. by_characters c. Qed.

Lemma space_not_word c : Str.is_space c = true -> Str.is_word c = false.
Proof. by_characters c. Qed.

Lemma digit_inline c : Str.is_digit c = true -> Sheet.inline c = true.
Proof. by_characters c. Qed.

Lemma solid_inline c : Sheet.solid c = true -> Sheet.inline c = true.
Proof. by_characters c. Qed.

Lemma upper_letter u :
  Str.is_upper u = true ->
  Str.upper_char u = u /\ Str.is_word u = true /\
  Str.upper_char (ascii_of_nat (nat_of_ascii u + 32)) = u /\
  Str.is_word (ascii_of_nat (nat_of_ascii u + 32)) = true.
Proof. by_characters u. Qed.

Lemma upper_char_letter c :
  Str.is_upper (Str.upper_char c) = true ->
  Sheet.letter_of (Str.upper_char c) c = true.
Proof. by_characters c. Qed.

Lemma letter_of_upper u c :
  Str.is_upper u = true -> Sheet.letter_of u c = true ->
  Str.upper_char c = u /\ Str.is_word c = true.
Proof.
  intros Hu [Hc|Hc]%orb_true_iff.
  - apply Ascii.eqb_eq in Hc as ->. by destruct (upper_letter u Hu) as (? & ? & _).
  - apply Nat.eqb_eq in Hc.
    rewrite <- (ascii_nat_embedding c), Hc.
    by destruct (upper_letter u Hu) as (_ & _ & ? & ?).
Qed.

(** A string that spells a keyword is a word which the parser reads as the
    keyword, and only such a string is. *)
Lemma spells_upper name s :
  Str.forall_chars Str.is_upper name = true ->
  Sheet.spells name s = true ->
  Str.upper s = name /\ Str.forall_chars Str.is_word s = true.
Proof.
  unfold Str.upper.
  revert s. induction name as [|u name IH]; intros [|c s]; simpl; try done.
  intros [Hu Hn]%andb_true_iff [Hc Hs]%andb_true_iff.
  destruct (letter_of_upper u c Hu Hc) as [-> ->].
  destruct (IH s Hn Hs) as [-> ->]. done.
Qed.

Lemma upper_spells name s :
  Str.forall_chars Str.is_upper name = true ->
  Str.upper s = name -> Sheet.spells name s = true.
Proof.
  unfold Str.upper.
  revert s. induction name as [|u name IH]; intros [|c s]; simpl; try done.
  intros [Hu Hn]%andb_true_iff [= <- Hs].
  by rewrite (upper_char_letter c Hu), (IH s Hn Hs).
Qed.

Lemma spells_nonempty name s :
  name <> "" -> Sheet.spells name s = true -> Str.is_empty s = false.
Proof. by destruct name, s. Qed.

(** Appending and the scanning functions. *)
Lemma first_app p a b :
  Str.is_empty a = false -> Sheet.first p a = true ->
  Sheet.first p (a ++ b) = true.
Proof. by destruct a. Qed.

Lemma first_all p a :
  Str.forall_chars p a = true -> Sheet.first p a = true.
Proof. destruct a; simpl; [done|]. by intros [? _]%andb_true_iff. Qed.

Lemma first_prefix p a t : Sheet.first p (a ++ t) = true -> Sheet.first p a = true.
Proof. by destruct a. Qed.

Lemma forall_chars_app p a b :
  Str.forall_chars p (a ++ b) = Str.forall_chars p a && Str.forall_chars p b.
Proof.
  induction a as [|c a IH]; simpl; [done|]. by rewrite IH, andb_assoc.
Qed.

Lemma drop_while_app_all p a b :
  Str.forall_chars p a = true ->
  Str.drop_while p (a ++ b) = Str.drop_while p b.
Proof.
  induction a as [|c a IH]; simpl; [done|].
  intros [-> Ha]%andb_true_iff. auto.
Qed.

Lemma drop_while_first p s :
  Sheet.first (fun c => negb (p c)) s = true -> Str.drop_while p s = s.
Proof. destruct s as [|c s]; simpl; [done|]. by destruct (p c). Qed.

Lemma take_while_app_all p a b :
  Str.forall_chars p a = true ->
  Str.take_while p (a ++ b) = a ++ Str.take_while p b.
Proof.
  induction a as [|c a IH]; simpl; [done|].
  intros [-> Ha]%andb_true_iff. by rewrite IH.
Qed.

Lemma take_while_first p s :
  Sheet.first (fun c => negb (p c)) s = true -> Str.take_while p s = "".
Proof. destruct s as [|c s]; simpl; [done|]. by destruct (p c). Qed.

Lemma take_drop_while p s : s = Str.take_while p s ++ Str.drop_while p s.
Proof.
  induction s as [|c s IH]; [done|].
  cbn [Str.take_while Str.drop_while].
  destruct (p c); [|done]. rewrite append_cons. by f_equal.
Qed.

Lemma first_take_while p q s :
  Sheet.first q s = true -> Sheet.first q (Str.take_while p s) = true.
Proof. destruct s as [|c s]; simpl; [done|]. by destruct (p c). Qed.

Lemma drop_while_app_stop p u s :
  Str.is_empty s = false -> Sheet.first (fun c => negb (p c)) s = true ->
  Str.drop_while p (u ++ s) = Str.drop_while p u ++ s.
Proof.
  intros Hs Hf. induction u as [|c u IH]; simpl.
  - by apply drop_while_first.
  - by destruct (p c).
Qed.

Lemma rev_acc_app a b acc :
  Str.rev_acc (a ++ b) acc = Str.rev_acc b (Str.rev_acc a acc).
Proof.
  revert acc. induction a as [|c a IH]; intros acc; [done|].
  rewrite append_cons. cbn [Str.rev_acc]. apply IH.
Qed.

Lemma rev_app a b : Str.rev (a ++ b) = Str.rev b ++ Str.rev a.
Proof. unfold Str.rev at 1. by rewrite rev_acc_app, rev_acc_append. Qed.

Lemma rev_is_empty s : Str.is_empty (Str.rev s) = Str.is_empty s.
Proof.
  destruct s as [|c s]; [done|]. unfold Str.rev. simpl.
  rewrite rev_acc_append. by destruct (Str.rev s).
Qed.

Lemma is_empty_app a b : Str.is_empty (a ++ b) = Str.is_empty a && Str.is_empty b.
Proof. by destruct a. Qed.

Lemma ends_solid_app p a b : ends_solid p b -> ends_solid p (a ++ b).
Proof.
  intros [Hb Hf]. split.
  - rewrite is_empty_app, Hb. by destruct (Str.is_empty a).
  - rewrite rev_app. apply first_app; [by rewrite rev_is_empty|done].
Qed.

Lemma ends_solid_all p s :
  Str.is_empty s = false ->
  Str.forall_chars (fun c => negb (p c)) s = true -> ends_solid p s.
Proof.
  intros Hs Ha. split; [done|]. apply first_all.
  unfold Str.rev. by rewrite forall_chars_rev_acc, Ha.
Qed.

Lemma rstrip_app p x b :
  ends_solid p x -> Str.rstrip_by p (x ++ b) = x ++ Str.rstrip_by p b.
Proof.
  intros [Hx Hf]. unfold Str.rstrip_by.
  rewrite rev_app, drop_while_app_stop, rev_app, rev_involutive;
    [done|by rewrite rev_is_empty|done].
Qed.

Lemma rstrip_all p b : Str.forall_chars p b = true -> Str.rstrip_by p b = "".
Proof.
  intros Hb. unfold Str.rstrip_by.
  assert (H : Str.forall_chars p (Str.rev b) = true)
    by (unfold Str.rev; by rewrite forall_chars_rev_acc, Hb).
  rewrite <- (append_empty_r (Str.rev b)), drop_while_app_all by done. done.
Qed.

Lemma rstrip_prefix p s : exists t, s = Str.rstrip_by p s ++ t.
Proof.
  exists (Str.rev (Str.take_while p (Str.rev s))). unfold Str.rstrip_by.
  rewrite <- rev_app, <- take_drop_while. by rewrite rev_involutive.
Qed.

Lemma first_rstrip p q s :
  Sheet.first q s = true -> Sheet.first q (Str.rstrip_by p s) = true.
Proof.
  intros H. destruct (rstrip_prefix p s) as [t Ht].
  rewrite Ht in H. by apply first_prefix in H.
Qed.

Lemma all_word_solid s :
  Str.forall_chars Str.is_word s = true ->
  Str.forall_chars (fun c => negb (Str.is_space c)) s = true.
Proof.
  apply forall_chars_impl. intros c H. by rewrite (word_not_space c H).
Qed.

(** A line that begins, after its indentation, with a word which the rest
    of the line does not continue is read as the command spelled by that
    word. *)
Lemma lex_keyword indent keyword tail :
  Sheet.blank indent = true -> Sheet.word keyword = true ->
  Sheet.first (fun c => negb (Str.is_word c)) tail = true ->
  lex_line (indent ++ keyword ++ tail) = Some (Str.upper keyword, arguments tail).
Proof.
  intros Hi [Hne Hw]%andb_true_iff Ht. apply negb_true_iff in Hne.
  pose proof (all_word_solid keyword Hw) as Hsolid.
  unfold lex_line, Str.strip, Str.lstrip_by.
  rewrite drop_while_app_all by done.
  rewrite drop_while_first
    by (apply first_app; [done|by apply first_all]).
  rewrite rstrip_app by (by apply ends_solid_all).
  set (t := Str.rstrip_by Str.is_space tail).
  assert (Ht' : Sheet.first (fun c => negb (Str.is_word c)) t = true)
    by (by apply first_rstrip).
  rewrite is_empty_app, Hne. simpl andb. cbv iota.
  unfold match_command.
  rewrite drop_while_first
    by (apply first_app; [done|by apply first_all]).
  rewrite take_while_app_all, take_while_first, append_empty_r by done.
  rewrite drop_while_app_all, (drop_while_first Str.is_word) by done.
  by destruct keyword.
Qed.

(** A line that begins, after its indentation, with a character of no
    word is skipped. *)
Lemma lex_junk indent rest :
  Sheet.blank indent = true ->
  Sheet.first (fun c => negb (Str.is_word c) && negb (Str.is_space c)) rest = true ->
  lex_line (indent ++ rest) = None.
Proof.
  intros Hi Hr. unfold lex_line, Str.strip, Str.lstrip_by.
  rewrite drop_while_app_all by done.
  destruct rest as [|c r].
  { reflexivity. }
  simpl in Hr. apply andb_true_iff in Hr as [Hw Hs].
  simpl Str.drop_while. apply negb_true_iff in Hs. rewrite Hs.
  change (String c r) with (String c "" ++ r).
  rewrite rstrip_app
    by (apply ends_solid_all; [done|]; simpl; by rewrite Hs).
  simpl. unfold match_command. simpl. rewrite Hs. simpl.
  apply negb_true_iff in Hw. by rewrite Hw.
Qed.

(** Numerals. *)
Lemma digit_facts d :
  (d < 10)%nat ->
  Str.is_digit (Sheet.digit d) = true /\
  Str.digit_value (Sheet.digit d) = Z.of_nat d /\
  Ascii.eqb "0" (Sheet.digit d) = (d =? 0)%nat /\
  Ascii.eqb "1" (Sheet.digit d) = (d =? 1)%nat.
Proof.
  intros Hd. do 10 (destruct d as [|d]; [by vm_compute|]). lia.
Qed.

Lemma numeral_digits ds :
  forallb (fun d => d <? 10)%nat ds = true ->
  Str.forall_chars Str.is_digit (Sheet.numeral ds) = true.
Proof.
  induction ds as [|d ds IH]; [done|].
  cbn [forallb Sheet.numeral fold_right Str.forall_chars].
  intros [Hd Hds]%andb_true_iff. apply Nat.ltb_lt in Hd.
  destruct (digit_facts d Hd) as (-> & _). auto.
Qed.

Lemma numeral_value ds acc :
  forallb (fun d => d <? 10)%nat ds = true ->
  Str.digits_value acc (Sheet.numeral ds)
  = fold_left (fun a d => (10 * a + Z.of_nat d)%Z) ds acc.
Proof.
  revert acc. induction ds as [|d ds IH]; intros acc; [done|].
  cbn [forallb Sheet.numeral fold_right fold_left Str.digits_value].
  intros [Hd Hds]%andb_true_iff. apply Nat.ltb_lt in Hd.
  destruct (digit_facts d Hd) as (_ & -> & _). auto.
Qed.

Lemma decimal_numeral ds :
  Sheet.decimal ds = true ->
  forallb (fun d => d <? 10)%nat ds = true /\
  Str.is_empty (Sheet.numeral ds) = false /\
  digits (Sheet.numeral ds) = true.
Proof.
  unfold Sheet.decimal, digits. destruct ds as [|d ds]; [done|].
  intros H. split; [done|]. split; [done|].
  by rewrite (numeral_digits _ H).
Qed.

Lemma digits_solid s :
  Str.forall_chars Str.is_digit s = true ->
  Str.forall_chars (fun c => negb (Str.is_space c)) s = true.
Proof. apply forall_chars_impl, digit_not_space. Qed.

Lemma numeral_ends_solid ds :
  Sheet.decimal ds = true -> ends_solid Str.is_space (Sheet.numeral ds).
Proof.
  intros (Hds & Hne & _)%decimal_numeral.
  apply ends_solid_all; [done|]. by apply digits_solid, numeral_digits.
Qed.

Lemma spacing_first s :
  Sheet.spacing s = true ->
  Str.is_empty s = false /\ Str.forall_chars Str.is_space s = true /\
  Sheet.first (fun c => negb (Str.is_word c)) s = true.
Proof.
  intros [Hne Hb]%andb_true_iff. apply negb_true_iff in Hne.
  split; [done|]. split; [done|].
  apply first_all. revert Hb. apply forall_chars_impl.
  intros c H. by rewrite (space_not_word c H).
Qed.

(** The arguments of a written [TRACK] directive begin with its number. *)
Lemma arguments_track sep ds rest :
  Sheet.spacing sep = true -> Sheet.decimal ds = true ->
  Sheet.first (fun c => negb (Str.is_digit c)) rest = true ->
  exists r,
    arguments (sep ++ Sheet.numeral ds ++ rest) = Sheet.numeral ds ++ r /\
    Sheet.first (fun c => negb (Str.is_digit c)) r = true.
Proof.
  intros (Hsne & Hsb & _)%spacing_first Hd Hr.
  pose proof (numeral_ends_solid ds Hd) as Hends.
  destruct (decimal_numeral ds Hd) as (Hds & Hne & _).
  pose proof (numeral_digits ds Hds) as Hdig.
  exists (Str.take_while Sheet.inline (Str.rstrip_by Str.is_space rest)).
  split; [|by apply first_take_while, first_rstrip].
  unfold arguments.
  rewrite <- append_assoc, rstrip_app by (by apply ends_solid_app).
  rewrite append_assoc, drop_while_app_all by done.
  rewrite drop_while_first
    by (apply first_app; [done|]; by apply first_all, digits_solid).
  apply take_while_app_all. revert Hdig.
  apply forall_chars_impl, digit_inline.
Qed.

Lemma track_number_text indent keyword sep ds rest :
  Sheet.line_ok (Sheet.Track indent keyword sep ds rest) = true ->
  track_number (Sheet.text (Sheet.Track indent keyword sep ds rest))
  = Some (Sheet.value ds) /\
  index01_time (Sheet.text (Sheet.Track indent keyword sep ds rest)) = None.
Proof.
  simpl. intros H. repeat (apply andb_true_iff in H as [H ?]).
  destruct (spells_upper "TRACK" keyword) as [Hup Hw]; [done|done|].
  destruct (arguments_track sep ds rest) as (r & Hargs & Hr); [done..|].
  destruct (decimal_numeral ds) as (Hds & Hne & _); [done|].
  assert (Hlex : lex_line (indent ++ keyword ++ sep ++ Sheet.numeral ds ++ rest)
                 = Some ("TRACK", Sheet.numeral ds ++ r)).
  { rewrite lex_keyword, Hup, Hargs; [done|done| |].
    - unfold Sheet.word. rewrite Hw.
      by rewrite (spells_nonempty "TRACK" keyword).
    - apply first_app; by apply spacing_first. }
  unfold track_number, track_args, index01_time. rewrite Hlex. simpl.
  split; [|done].
  unfold Str.re_match_digits.
  rewrite take_while_app_all, take_while_first, append_empty_r
    by (done || by apply numeral_digits).
  destruct (Sheet.numeral ds) eqn:E; [done|]. rewrite <- E. simpl.
  by rewrite numeral_value.
Qed.

(** White-space-delimited tokens. *)
Lemma split_ws_go_token a rest cur :
  Str.forall_chars (fun c => negb (Str.is_space c)) a = true ->
  Str.is_empty a = false ->
  Str.split_ws_go (a ++ rest) cur
  = Str.split_ws_go rest (Some (Str.rev_acc a (default "" cur))).
Proof.
  revert cur. induction a as [|c a IH]; intros cur; simpl; [done|].
  intros [Hc Ha]%andb_true_iff _. apply negb_true_iff in Hc. rewrite Hc.
  destruct a as [|c' a]; [done|]. by rewrite IH.
Qed.

Lemma split_ws_go_blank g rest :
  Str.forall_chars Str.is_space g = true ->
  Str.split_ws_go (g ++ rest) None = Str.split_ws_go rest None.
Proof.
  induction g as [|c g IH]; simpl; [done|].
  intros [-> Hg]%andb_true_iff. auto.
Qed.

Lemma split_ws_go_gap g rest t :
  Str.forall_chars Str.is_space g = true -> Str.is_empty g = false ->
  Str.split_ws_go (g ++ rest) (Some t) = Str.rev t :: Str.split_ws_go rest None.
Proof.
  destruct g as [|c g]; simpl; [done|].
  intros [-> Hg]%andb_true_iff _. by rewrite split_ws_go_blank.
Qed.

Lemma rev_rev_acc_empty a : Str.rev (Str.rev_acc a "") = a.
Proof. apply rev_involutive. Qed.

Lemma split_ws_two a g b :
  Str.forall_chars (fun c => negb (Str.is_space c)) a = true ->
  Str.is_empty a = false ->
  Sheet.spacing g = true ->
  Str.forall_chars (fun c => negb (Str.is_space c)) b = true ->
  Str.is_empty b = false ->
  Str.split_ws (a ++ g ++ b) = [a; b].
Proof.
  intros Ha Hane (Hgne & Hg & _)%spacing_first Hb Hbne. unfold Str.split_ws.
  rewrite split_ws_go_token, split_ws_go_gap by done.
  rewrite <- (append_empty_r b), split_ws_go_token by done.
  simpl. by rewrite !rev_rev_acc_empty, append_empty_r.
Qed.

(** The first token of a string that begins with one. *)
Lemma split_ws_head a rest :
  Str.forall_chars (fun c => negb (Str.is_space c)) a = true ->
  Str.is_empty a = false ->
  Sheet.first Str.is_space rest = true ->
  exists l, Str.split_ws (a ++ rest) = a :: l.
Proof.
  intros Ha Hane Hr. unfold Str.split_ws.
  rewrite split_ws_go_token by done. simpl.
  destruct rest as [|c rest]; simpl.
  - exists []. by rewrite rev_rev_acc_empty.
  - simpl in Hr. rewrite Hr. eexists. by rewrite rev_rev_acc_empty.
Qed.

(** Time stamps of two-digit fields. *)
Lemma two_field p :
  Sheet.two_ok p = true ->
  two_digit_field (Sheet.two p) = true /\
  Str.digits_value 0 (Sheet.two p) = Sheet.value [fst p; snd p].
Proof.
  intros H. pose proof (decimal_numeral _ H) as (Hds & Hne & Hdig).
  unfold two_digit_field, Sheet.two. rewrite Hdig. split; [done|].
  by rewrite numeral_value.
Qed.

Lemma timestamp_ok mm ss ff :
  Sheet.two_ok mm = true -> Sheet.two_ok ss = true -> Sheet.two_ok ff = true ->
  is_ok (_parse_time (Sheet.two mm ++ ":" ++ Sheet.two ss ++ ":" ++ Sheet.two ff))
  = true.
Proof.
  intros [Hm _]%two_field [Hs _]%two_field [Hf _]%two_field.
  apply two_digit_field_value in Hm as [Hm Hmv], Hs as [Hs Hsv], Hf as [Hf Hfv].
  rewrite parse_time_digits by done. unfold timestamp_seconds.
  destruct (float_of_int_small (Str.digits_value 0 (Sheet.two ff))) as [x Hx];
    [lia|].
  destruct (float_of_int_small (Str.digits_value 0 (Sheet.two mm) * 60
                                + Str.digits_value 0 (Sheet.two ss))) as [y Hy];
    [lia|].
  by rewrite Hx, Hy.
Qed.

Lemma timestamp_chars mm ss ff :
  Sheet.two_ok mm = true -> Sheet.two_ok ss = true -> Sheet.two_ok ff = true ->
  let t := Sheet.two mm ++ ":" ++ Sheet.two ss ++ ":" ++ Sheet.two ff in
  Str.is_empty t = false /\
  Str.forall_chars (fun c => negb (Str.is_space c)) t = true /\
  Str.forall_chars Sheet.inline t = true.
Proof.
  intros Hm Hs Hf.
  assert (H : forall p, Sheet.two_ok p = true ->
            Str.forall_chars (fun c => negb (Str.is_space c) && Sheet.inline c)
              (Sheet.two p) = true).
  { intros p Hp. pose proof (decimal_numeral _ Hp) as (Hds & _).
    apply numeral_digits in Hds. revert Hds. apply forall_chars_impl.
    intros c Hc. by rewrite (digit_not_space c Hc), (digit_inline c Hc). }
  cbv zeta.
  assert (Hall : Str.forall_chars
                   (fun c => negb (Str.is_space c) && Sheet.inline c)
                   (Sheet.two mm ++ ":" ++ Sheet.two ss ++ ":" ++ Sheet.two ff)
                 = true).
  { rewrite !forall_chars_app, !H by done. done. }
  split; [by destruct (decimal_numeral _ Hm) as (_ & ? & _);
          destruct (Sheet.two mm)|].
  split; revert Hall; apply forall_chars_impl; by intros c [? ?]%andb_true_iff.
Qed.

Lemma index_time_text indent keyword sep index space mm ss ff trail :
  Sheet.line_ok (Sheet.Index indent keyword sep index space mm ss ff trail) = true ->
  let raw := Sheet.text (Sheet.Index indent keyword sep index space mm ss ff trail) in
  track_args raw = None /\
  index01_time raw
  = (if (fst index =? 0)%nat && (snd index =? 1)%nat
     then Some (Sheet.two mm ++ ":" ++ Sheet.two ss ++ ":" ++ Sheet.two ff)
     else None) /\
  time_ok raw = true.
Proof.
  simpl. intros H. repeat (apply andb_true_iff in H as [H ?]).
  destruct (spells_upper "INDEX" keyword) as [Hup Hw]; [done|done|].
  set (t := Sheet.two mm ++ ":" ++ Sheet.two ss ++ ":" ++ Sheet.two ff).
  destruct (timestamp_chars mm ss ff) as (Htne & Htsolid & Htin); [done..|].
  fold t in Htne, Htsolid, Htin.
  match goal with Hg : Sheet.gap space = true |- _ =>
    apply andb_true_iff in Hg as [Hsp Hgin] end.
  pose proof Hsp as (Hspne & Hspb & _)%spacing_first.
  match goal with Hg : Sheet.spacing sep = true |- _ =>
    pose proof Hg as (Hsepne & Hsepb & Hsepf)%spacing_first end.
  match goal with Hg : Sheet.two_ok index = true |- _ =>
    pose proof (decimal_numeral _ Hg) as (Hids & Hine & Hidig) end.
  fold (Sheet.two index) in Hine, Hidig.
  assert (Hidx : Str.forall_chars Str.is_digit (Sheet.two index) = true)
    by (by apply numeral_digits).
  assert (Hargs : arguments (sep ++ Sheet.two index ++ space ++ t ++ trail)
                  = Sheet.two index ++ space ++ t).
  { unfold arguments.
    replace (sep ++ Sheet.two index ++ space ++ t ++ trail)
      with ((sep ++ Sheet.two index ++ space ++ t) ++ trail)
      by (by rewrite !append_assoc).
    rewrite rstrip_app, rstrip_all, append_empty_r; [|done|].
    2:{ do 3 apply ends_solid_app. by apply ends_solid_all. }
    rewrite drop_while_app_all by done.
    rewrite drop_while_first
      by (apply first_app; [done|]; by apply first_all, digits_solid).
    apply take_while_all. rewrite !forall_chars_app, Hgin, Htin.
    rewrite (forall_chars_impl _ _ _ digit_inline Hidx). done. }
  assert (Hlex : lex_line (indent ++ keyword ++ sep ++ Sheet.two index
                           ++ space ++ t ++ trail)
                 = Some ("INDEX", Sheet.two index ++ space ++ t)).
  { rewrite lex_keyword, Hup, Hargs; [done|done| |].
    - unfold Sheet.word. rewrite Hw.
      by rewrite (spells_nonempty "INDEX" keyword).
    - by apply first_app. }
  assert (Hsplit : Str.split_ws (Sheet.two index ++ space ++ t)
                   = [Sheet.two index; t]).
  { apply split_ws_two; try done. by apply digits_solid. }
  assert (Hstart : Str.startswith "01" (Sheet.two index ++ space ++ t)
                   = (fst index =? 0)%nat && (snd index =? 1)%nat).
  { change (Sheet.two index ++ space ++ t)
      with (String (Sheet.digit (fst index))
              (String (Sheet.digit (snd index)) (space ++ t))).
    cbn [Str.startswith].
    cbn [forallb] in Hids. apply andb_true_iff in Hids as [Hd0 Hd1].
    apply andb_true_iff in Hd1 as [Hd1 _].
    apply Nat.ltb_lt in Hd0, Hd1.
    destruct (digit_facts _ Hd0) as (_ & _ & -> & _).
    destruct (digit_facts _ Hd1) as (_ & _ & _ & ->).
    by rewrite andb_true_r. }
  assert (Hok : is_ok (_parse_time t) = true) by (by apply timestamp_ok).
  unfold track_args, time_ok, index01_time. rewrite Hlex, Hsplit, Hstart.
  clearbody t. simpl.
  destruct ((fst index =? 0)%nat && (snd index =? 1)%nat); by simpl.
Qed.

Lemma other_text indent keyword rest :
  Sheet.line_ok (Sheet.Other indent keyword rest) = true ->
  let raw := Sheet.text (Sheet.Other indent keyword rest) in
  track_args raw = None /\ index01_time raw = None.
Proof.
  cbn [Sheet.line_ok Sheet.text]. intros H.
  repeat (apply andb_true_iff in H as [H ?]).
  rewrite !negb_true_iff in *.
  unfold track_args, index01_time. rewrite lex_keyword by done.
  assert (Ht : (Str.upper keyword =? "TRACK") = false).
  { apply String.eqb_neq. intros Hup.
    pose proof (upper_spells "TRACK" keyword eq_refl Hup). congruence. }
  assert (Hi : (Str.upper keyword =? "INDEX") = false).
  { apply String.eqb_neq. intros Hup.
    pose proof (upper_spells "INDEX" keyword eq_refl Hup). congruence. }
  by rewrite Ht, Hi.
Qed.

Lemma junk_text indent rest :
  Sheet.line_ok (Sheet.Junk indent rest) = true ->
  let raw := Sheet.text (Sheet.Junk indent rest) in
  track_args raw = None /\ index01_time raw = None.
Proof.
  simpl. intros [Hi Hr]%andb_true_iff.
  unfold track_args, index01_time. by rewrite lex_junk.
Qed.

(** What the parser reads in a written line is what the line says. *)
Lemma text_read l :
  Sheet.line_ok l = true ->
  is_track (Sheet.text l) = Sheet.is_track l /\
  track_number (Sheet.text l) = Sheet.number l /\
  well_numbered (Sheet.text l) = true /\
  sets_start (Sheet.text l) = Sheet.is_start l /\
  time_ok (Sheet.text l) = true.
Proof.
  intros Hok. destruct l as [i k s ds r|i k s ix sp mm ss ff tr|i k r|i r].
  - destruct (track_number_text _ _ _ _ _ Hok) as [Hn Ht].
    unfold is_track, well_numbered, sets_start, time_ok. rewrite Ht, Hn.
    unfold track_number in Hn.
    destruct (track_args _) as [args|]; [|done]. simpl in Hn.
    by destruct (Str.re_match_digits args).
  - destruct (index_time_text _ _ _ _ _ _ _ _ _ Hok) as (Ht & Hi & Hok').
    unfold is_track, track_number, well_numbered, sets_start.
    rewrite Ht, Hi. split_and!; try done.
    unfold Sheet.is_start. simpl.
    destruct ix as [[|[|a]] [|[|[|b]]]]; done.
  - destruct (other_text _ _ _ Hok) as [Ht Hi].
    unfold is_track, track_number, well_numbered, sets_start, time_ok.
    by rewrite Ht, Hi.
  - destruct (junk_text _ _ Hok) as [Ht Hi].
    unfold is_track, track_number, well_numbered, sets_start, time_ok.
    by rewrite Ht, Hi.
Qed.

(** ** Reading a written sheet *)

Lemma sheet_track_count sheet :
  forallb Sheet.line_ok sheet = true ->
  track_count (map Sheet.text sheet) = Sheet.track_count sheet.
Proof.
  unfold track_count, Sheet.track_count.
  induction sheet as [|l sheet IH]; [done|].
  cbn [forallb map List.filter]. intros [Hl Hs]%andb_true_iff.
  destruct (text_read l Hl) as (-> & _).
  destruct (Sheet.is_track l); simpl; by rewrite IH.
Qed.

Lemma sheet_numbers sheet :
  forallb Sheet.line_ok sheet = true ->
  omap track_number (map Sheet.text sheet) = Sheet.numbers sheet.
Proof.
  unfold Sheet.numbers.
  induction sheet as [|l sheet IH]; [done|].
  cbn [forallb map omap list_omap]. intros [Hl Hs]%andb_true_iff.
  destruct (text_read l Hl) as (_ & -> & _). by rewrite <- IH.
Qed.

Lemma sheet_well_formed sheet :
  forallb Sheet.line_ok sheet = true ->
  well_formed (map Sheet.text sheet) = true.
Proof.
  intros H. unfold well_formed. apply andb_true_iff.
  induction sheet as [|l sheet IH]; [done|].
  cbn [forallb map] in *. apply andb_true_iff in H as [Hl Hs].
  destruct (IH Hs) as [-> ->].
  by destruct (text_read l Hl) as (_ & _ & -> & _ & ->).
Qed.

Lemma sheet_blocks sheet :
  forallb Sheet.line_ok sheet = true ->
  blocks_of (map Sheet.text sheet)
  = (map Sheet.text (fst (Sheet.blocks sheet)),
     map block_text (snd (Sheet.blocks sheet))).
Proof.
  induction sheet as [|l sheet IH]; [done|].
  cbn [forallb map blocks_of Sheet.blocks]. intros [Hl Hs]%andb_true_iff.
  rewrite (IH Hs). destruct (text_read l Hl) as (-> & _).
  destruct (Sheet.blocks sheet) as [header bs].
  by destruct (Sheet.is_track l).
Qed.

Lemma sheet_blocks_ok sheet :
  forallb Sheet.line_ok sheet = true ->
  forallb (fun b : Sheet.line * list Sheet.line => forallb Sheet.line_ok (snd b))
          (snd (Sheet.blocks sheet)) = true /\
  forallb Sheet.line_ok (fst (Sheet.blocks sheet)) = true.
Proof.
  induction sheet as [|l sheet IH]; [done|].
  cbn [forallb Sheet.blocks]. intros [Hl Hs]%andb_true_iff.
  destruct (IH Hs) as [Hb Hh].
  destruct (Sheet.blocks sheet) as [header bs].
  destruct (Sheet.is_track l); simpl in *; by rewrite ?Hl, ?Hb, ?Hh.
Qed.

Lemma sheet_later_indexed sheet :
  forallb Sheet.line_ok sheet = true ->
  later_tracks_indexed (map Sheet.text sheet) = Sheet.later_indexed sheet.
Proof.
  intros H. unfold later_tracks_indexed, Sheet.later_indexed.
  rewrite (sheet_blocks sheet H). cbn [snd].
  destruct (sheet_blocks_ok sheet H) as [Hb _].
  destruct (snd (Sheet.blocks sheet)) as [|b bs]; [done|].
  cbn [map tail forallb] in *. apply andb_true_iff in Hb as [_ Hb].
  induction bs as [|b' bs IH]; [done|].
  cbn [map forallb] in *. apply andb_true_iff in Hb as [Hb' Hb].
  rewrite (IH Hb). f_equal. unfold block_text. cbn [snd].
  clear -Hb'. induction (snd b') as [|l ls IHl]; [done|].
  cbn [map existsb forallb] in *. apply andb_true_iff in Hb' as [Hl Hls].
  destruct (text_read l Hl) as (_ & _ & _ & -> & _). by rewrite IHl.
Qed.

Lemma ascending_sorted (l : list Z) :
  ascending l = true -> StronglySorted Z.lt l.
Proof.
  induction l as [|a [|b l] IH]; intros H.
  - constructor.
  - by repeat constructor.
  - cbn [ascending] in H. apply andb_true_iff in H as [Hab H].
    apply Z.ltb_lt in Hab. specialize (IH H).
    constructor; [done|].
    inversion IH as [|? ? _ Hb]; subst. constructor; [done|].
    eapply Forall_impl; [exact Hb|]. simpl. lia.
Qed.

(** What [parse] returns on valid cue text, in the words of the parser's
    own reading of the lines. *)
Lemma parse_valid_cue (lines : list string) :
  valid_cue lines = true ->
  exists p,
    parse lines = Ok p /\
    length (p_tracks p) = track_count lines /\
    length (track_records p) = track_count lines /\
    numbers p = map (fun n => Some (VInt n)) (omap track_number lines) /\
    NoDup (p_tracks p).
Proof.
  intros [[Hwf Hlater]%andb_true_iff Hasc]%andb_true_iff.
  destruct (parse_returns lines Hwf Hlater)
    as (st & h & Hinv & Hf & Hparse & _ & _).
  destruct (info_length lines Hwf) as [Hlen Hlen'].
  simpl in *. set (info := zip_with block_info _ _) in *.
  eexists; split; [exact Hparse|]. simpl.
  split; [by rewrite length_seq|].
  split; [unfold track_records; simpl; by rewrite length_map, length_seq|].
  split; [|apply NoDup_seq].
  unfold numbers, track_records. simpl.
  apply list_eq. intros i. rewrite !list_lookup_fmap.
  destruct (decide (i < length info)%nat) as [Hi|Hi].
  - rewrite (proj2 (lookup_seq 0 (length info) i i)) by lia. simpl.
    destruct (lookup_lt_is_Some_2 info i Hi) as [nb Hnb].
    destruct (info_lookup _ _ _ _ Hnb) as (b & n & Hb & Hn & ->).
    destruct (scanned_deref _ _ _ _ Hinv Hnb) as (d & Hd & Hderef & Hnum & _).
    rewrite Hn. simpl. destruct Hf as [_ Hf]. rewrite Hf, Hderef by done.
    by rewrite Hnum.
  - rewrite (lookup_ge_None_2 (seq 0 (length info))) by (rewrite length_seq; lia).
    rewrite (lookup_ge_None_2 (omap track_number lines)) by lia. done.
Qed.

Lemma sheet_valid_cue sheet :
  Sheet.valid sheet = true -> valid_cue (map Sheet.text sheet) = true.
Proof.
  intros [[Hok Hasc]%andb_true_iff Hlater]%andb_true_iff. unfold valid_cue.
  by rewrite sheet_well_formed, sheet_later_indexed, sheet_numbers, Hlater, Hasc.
Qed.

(** ** Reading a written [FILE] directive *)

Lemma first_app_both p a b :
  Sheet.first p a = true -> Sheet.first p b = true ->
  Sheet.first p (a ++ b) = true.
Proof. by destruct a. Qed.

Lemma forall_chars_prefix p a t :
  Str.forall_chars p (a ++ t) = true -> Str.forall_chars p a = true.
Proof. rewrite forall_chars_app. by intros [? _]%andb_true_iff. Qed.

Lemma forall_chars_rstrip p q s :
  Str.forall_chars q s = true -> Str.forall_chars q (Str.rstrip_by p s) = true.
Proof.
  intros H. destruct (rstrip_prefix p s) as [t Ht].
  rewrite Ht in H. by apply forall_chars_prefix in H.
Qed.

Lemma forall_chars_take_while p q s :
  Str.forall_chars q s = true -> Str.forall_chars q (Str.take_while p s) = true.
Proof.
  intros H. rewrite (take_drop_while p s) in H.
  by apply forall_chars_prefix in H.
Qed.

Lemma re_search_skip a s :
  Str.forall_chars Sheet.unquoted a = true ->
  Str.re_search_quoted (a ++ s) = Str.re_search_quoted s.
Proof.
  induction a as [|c a IH]; [done|].
  rewrite append_cons. cbn [Str.forall_chars Str.re_search_quoted].
  intros [Hc Ha]%andb_true_iff. unfold Sheet.unquoted in Hc.
  apply negb_true_iff in Hc. rewrite Hc. auto.
Qed.

Lemma re_search_none s :
  Str.forall_chars Sheet.unquoted s = true -> Str.re_search_quoted s = None.
Proof.
  intros H. rewrite <- (append_empty_r s). by rewrite re_search_skip.
Qed.

Lemma re_search_quoted_name name rest :
  Str.is_empty name = false ->
  Str.forall_chars Sheet.unquoted name = true ->
  Str.re_search_quoted (Sheet.quote ++ name ++ Sheet.quote ++ rest) = Some name.
Proof.
  intros Hne Hn.
  change (Sheet.quote ++ name ++ Sheet.quote ++ rest)
    with (String Str.dquote (name ++ String Str.dquote rest)).
  cbn [Str.re_search_quoted].
  rewrite (proj2 (Ascii.eqb_eq Str.dquote Str.dquote) eq_refl).
  unfold Str.quoted_at.
  fold Sheet.unquoted.
  rewrite take_while_app_all, drop_while_app_all by done.
  cbn [Str.take_while Str.drop_while].
  change (Sheet.unquoted Str.dquote) with false. cbv iota.
  rewrite append_empty_r. by destruct name.
Qed.

Lemma both_all (p q : ascii -> bool) s :
  Str.forall_chars (fun c => p c && q c) s = true ->
  Str.forall_chars p s = true /\ Str.forall_chars q s = true.
Proof.
  intros H. split; revert H; apply forall_chars_impl;
    by intros c [? ?]%andb_true_iff.
Qed.

(** The arguments the parser reads in a written [FILE] directive, and
    what its [FILE] branch makes of them. *)
Lemma file_argument_read sep a :
  Sheet.argument_ok a = true ->
  match a with Sheet.Missing => Sheet.blank sep | _ => Sheet.spacing sep end = true ->
  Sheet.first (fun c => negb (Str.is_word c)) (sep ++ Sheet.argument_text a) = true /\
  forall st,
    do_file st (arguments (sep ++ Sheet.argument_text a))
    = match current_track_info st, Sheet.named a with
      | None, Some name => set_album "file" (VStr name) st
      | _, _ => st
      end.
Proof.
  intros Ha Hsep. destruct a as [before name after|token rest|].
  - apply spacing_first in Hsep as (Hsne & Hsb & Hsf).
    split; [by apply first_app|].
    cbn [Sheet.argument_ok] in Ha. repeat (apply andb_true_iff in Ha as [Ha ?]).
    match goal with H : negb (Str.is_empty name) = true |- _ =>
      apply negb_true_iff in H; rename H into Hne end.
    match goal with H : Str.forall_chars _ name = true |- _ =>
      apply both_all in H as [Hnq Hni] end.
    match goal with H : Str.forall_chars _ before = true |- _ =>
      apply both_all in H as [Hbq Hbi] end.
    set (r := Str.take_while Sheet.inline (Str.rstrip_by Str.is_space after)).
    assert (Hargs : arguments (sep ++ Sheet.argument_text
                                        (Sheet.Quoted before name after))
                    = before ++ Sheet.quote ++ name ++ Sheet.quote ++ r).
    { unfold arguments. cbn [Sheet.argument_text].
      replace (sep ++ before ++ Sheet.quote ++ name ++ Sheet.quote ++ after)
        with ((sep ++ before ++ Sheet.quote ++ name ++ Sheet.quote) ++ after)
        by (by rewrite !append_assoc).
      rewrite rstrip_app
        by (do 4 apply ends_solid_app; by apply ends_solid_all).
      rewrite !append_assoc, drop_while_app_all by done.
      rewrite drop_while_first
        by (apply first_app_both; [exact Ha|reflexivity]).
      replace (before ++ Sheet.quote ++ name ++ Sheet.quote
               ++ Str.rstrip_by Str.is_space after)
        with ((before ++ Sheet.quote ++ name ++ Sheet.quote)
              ++ Str.rstrip_by Str.is_space after)
        by (by rewrite !append_assoc).
      rewrite take_while_app_all, !append_assoc; [done|].
      by rewrite !forall_chars_app, Hbi, Hni. }
    intros st. rewrite Hargs. unfold do_file. cbn [Sheet.named].
    destruct (current_track_info st); [done|].
    by rewrite re_search_skip, re_search_quoted_name.
  - apply spacing_first in Hsep as (Hsne & Hsb & Hsf).
    split; [by apply first_app|].
    cbn [Sheet.argument_ok] in Ha. repeat (apply andb_true_iff in Ha as [Ha ?]).
    apply negb_true_iff in Ha.
    match goal with H : Str.forall_chars _ token = true |- _ =>
      apply both_all in H as [Htq Hts] end.
    set (r := Str.take_while Sheet.inline (Str.rstrip_by Str.is_space rest)).
    assert (Hargs : arguments (sep ++ Sheet.argument_text (Sheet.Bare token rest))
                    = token ++ r).
    { unfold arguments. cbn [Sheet.argument_text].
      rewrite <- append_assoc, rstrip_app
        by (apply ends_solid_app; by apply ends_solid_all).
      rewrite append_assoc, drop_while_app_all by done.
      rewrite drop_while_first by (apply first_app; [done|by apply first_all]).
      apply take_while_app_all. revert Hts.
      apply forall_chars_impl, solid_inline. }
    intros st. rewrite Hargs. unfold do_file. cbn [Sheet.named].
    destruct (current_track_info st); [done|].
    rewrite re_search_none
      by (rewrite forall_chars_app, Htq;
          by apply forall_chars_take_while, forall_chars_rstrip).
    destruct (split_ws_head token r) as [l ->]; try done.
    by apply first_take_while, first_rstrip.
  - cbn [Sheet.argument_text]. rewrite append_empty_r. split.
    + apply first_all. revert Hsep. apply forall_chars_impl.
      intros c H. by rewrite (space_not_word c H).
    + intros st. unfold arguments. rewrite rstrip_all by done.
      unfold do_file. by destruct (current_track_info st).
Qed.

Lemma file_text_read indent keyword sep a :
  Sheet.file_ok indent keyword sep a = true ->
  file_args (Sheet.file_text indent keyword sep a)
  = Some (arguments (sep ++ Sheet.argument_text a)) /\
  forall st,
    do_file st (arguments (sep ++ Sheet.argument_text a))
    = match current_track_info st, Sheet.named a with
      | None, Some name => set_album "file" (VStr name) st
      | _, _ => st
      end.
Proof.
  unfold Sheet.file_ok. intros H. repeat (apply andb_true_iff in H as [H ?]).
  destruct (spells_upper "FILE" keyword) as [Hup Hw]; [done|done|].
  destruct (file_argument_read sep a) as [Hf Hdo]; [done|done|].
  split; [|done].
  unfold file_args, Sheet.file_text. rewrite lex_keyword, Hup; [done|done| |done].
  unfold Sheet.word. rewrite Hw. by rewrite (spells_nonempty "FILE" keyword).
Qed.

Lemma text_starts_track l :
  Sheet.line_ok l = true -> Sheet.is_track l = true ->
  starts_track (Sheet.text l) = true.
Proof.
  intros Hok Ht. destruct (text_read l Hok) as (_ & Hn & _).
  unfold starts_track. rewrite Hn. by destruct l.
Qed.

(** ** Time stamps that are not three integers *)

Lemma split_on_go_length sep s cur :
  length (Str.split_on_go sep s cur)
  = S (length (List.filter (Ascii.eqb sep) (list_ascii_of_string s))).
Proof.
  revert cur. induction s as [|c s IH]; intros cur; [done|].
  cbn [Str.split_on_go list_ascii_of_string List.filter].
  rewrite (Ascii.eqb_sym sep c).
  destruct (Ascii.eqb c sep); simpl; by rewrite IH.
Qed.

Lemma colons_filter t :
  colons t = length (List.filter (Ascii.eqb ":") (list_ascii_of_string t)).
Proof.
  induction t as [|c t IH]; [done|].
  cbn [colons list_ascii_of_string List.filter].
  rewrite (Ascii.eqb_sym ":" c), IH. by destruct (Ascii.eqb c ":").
Qed.

Lemma split_on_length t : length (Str.split_on ":" t) = S (colons t).
Proof. unfold Str.split_on. by rewrite split_on_go_length, colons_filter. Qed.

Lemma forall_chars_rev p s :
  Str.forall_chars p (Str.rev s) = Str.forall_chars p s.
Proof. unfold Str.rev. by rewrite forall_chars_rev_acc, andb_true_r. Qed.

Lemma split_on_go_all p sep s cur :
  p sep = true ->
  forallb (Str.forall_chars p) (Str.split_on_go sep s cur)
  = Str.forall_chars p s && Str.forall_chars p cur.
Proof.
  intros Hsep. revert cur. induction s as [|c s IH]; intros cur.
  - simpl. by rewrite forall_chars_rev, andb_true_r.
  - cbn [Str.split_on_go Str.forall_chars].
    destruct (Ascii.eqb c sep) eqn:E.
    + apply Ascii.eqb_eq in E as ->. cbn [forallb].
      rewrite IH, forall_chars_rev, Hsep. simpl.
      by rewrite andb_true_r, andb_comm.
    + rewrite IH. cbn [Str.forall_chars].
      by destruct (p c), (Str.forall_chars p s).
Qed.

Lemma int_body_chars s : forall prev acc z,
  Str.int_body s prev acc = Some z -> Str.forall_chars time_char s = true.
Proof.
  induction s as [|c s IH]; intros prev acc z; [done|].
  cbn [Str.int_body Str.forall_chars]. unfold time_char at 1.
  destruct (Str.is_digit c); [by intros ->%IH|].
  destruct (Ascii.eqb c "_"); [|done].
  destruct prev; [|done]. intros ->%IH.
  by rewrite !orb_true_r.
Qed.

Lemma forall_chars_take_while_same p s :
  Str.forall_chars p (Str.take_while p s) = true.
Proof.
  induction s as [|c s IH]; [done|]. cbn [Str.take_while].
  destruct (p c) eqn:E; [|done]. simpl. by rewrite E.
Qed.

(** The literal [int] reads in a string, once the white space around it
    is set apart. *)
Lemma strip_parts p s :
  exists a b,
    s = a ++ Str.rstrip_by p (Str.lstrip_by p s) ++ b /\
    Str.forall_chars p a = true /\ Str.forall_chars p b = true.
Proof.
  exists (Str.take_while p s),
         (Str.rev (Str.take_while p (Str.rev (Str.lstrip_by p s)))).
  split; [|split].
  - unfold Str.rstrip_by, Str.lstrip_by.
    rewrite <- rev_app, <- take_drop_while, rev_involutive.
    apply take_drop_while.
  - apply forall_chars_take_while_same.
  - rewrite forall_chars_rev. apply forall_chars_take_while_same.
Qed.

Lemma py_int_sign s :
  Str.py_int s
  = match Str.rstrip_by Str.is_c_space (Str.lstrip_by Str.is_c_space s) with
    | EmptyString => Str.int_body "" false 0
    | String c s' =>
        if Ascii.eqb c "-" then z ← Str.int_body s' false 0; Some (- z)%Z
        else if Ascii.eqb c "+" then Str.int_body s' false 0
        else Str.int_body (String c s') false 0
    end.
Proof.
  unfold Str.py_int.
  destruct (Str.rstrip_by _ _) as [|c s']; [done|].
  destruct c as [[] [] [] [] [] [] [] []]; reflexivity.
Qed.

Lemma c_space_time_char s :
  Str.forall_chars Str.is_c_space s = true ->
  Str.forall_chars time_char s = true.
Proof.
  apply forall_chars_impl. intros c H. unfold time_char.
  by rewrite H, orb_true_r.
Qed.

(** A string [int] accepts is made of the characters of a literal. *)
Lemma py_int_chars s z :
  Str.py_int s = Some z -> Str.forall_chars time_char s = true.
Proof.
  rewrite py_int_sign.
  destruct (strip_parts Str.is_c_space s) as (a & b & Hs & Ha & Hb).
  set (core := Str.rstrip_by _ _) in *. clearbody core. intros H.
  rewrite Hs, !forall_chars_app, (c_space_time_char a), (c_space_time_char b)
    by done.
  rewrite andb_true_r. simpl.
  destruct core as [|c s']; [done|].
  destruct (Ascii.eqb c "-") eqn:Em.
  { apply Ascii.eqb_eq in Em as ->.
    destruct (Str.int_body s' false 0) eqn:E; [|done].
    cbn [Str.forall_chars]. by rewrite (int_body_chars _ _ _ _ E). }
  destruct (Ascii.eqb c "+") eqn:Ep.
  { apply Ascii.eqb_eq in Ep as ->.
    cbn [Str.forall_chars]. by rewrite (int_body_chars _ _ _ _ H). }
  by apply int_body_chars in H.
Qed.

Lemma forallb_py_int fields :
  forallb (Str.forall_chars time_char) fields = false ->
  exists i, map Str.py_int fields !! i = Some None.
Proof.
  induction fields as [|f fields IH]; [done|]. cbn [forallb map].
  destruct (Str.py_int f) as [z|] eqn:E.
  - rewrite (py_int_chars f z E). simpl. intros [i Hi]%IH. by exists (S i).
  - intros _. by exists 0%nat.
Qed.

(** * The claims *)

(** ** The cue parser *)

(** C1.  The claim (every track but the last ends where the next one
    starts, the last end time is unset) fails on the code: on the lines
    [TRACK 01 AUDIO], [INDEX 01 00:00:00], [TRACK X AUDIO] parse returns
    two track records that are one and the same object; the end-time loop
    first gives it its own start time as end time and then, as the last
    track, [None].  So the end time of track 0 is [None] while the start
    time of track 1 is 0.0. *)
Theorem parse_aliased_track_end_time :
  let p := Parsed ∅ [0; 0]%nat [aliased_track] in
  parse aliased_cue = Ok p /\
  length (p_tracks p) = 2%nat /\
  end_time p 0 = Some VNone /\
  start_time p 1 = Some (VFloat 0).
Proof. cbv zeta. split_and!; evaluate. Qed.

(** The property of C1 on well-formed text (every TRACK directive
    numbered, every time stamp convertible): every track but the last ends
    where the next one starts, and the last end time is [None]. *)
Theorem parse_end_times_well_formed (lines : list string) (p : parsed) :
  well_formed lines = true -> parse lines = Ok p ->
  forall i, (i < length (p_tracks p))%nat ->
    if decide (i + 1 < length (p_tracks p))%nat
    then end_time p i = start_time p (i + 1) /\ is_Some (start_time p (i + 1))
    else end_time p i = Some VNone.
Proof.
  intros Hwf Hp i Hi.
  destruct (later_tracks_indexed lines) eqn:Hlater.
  2:{ by rewrite (parse_raises lines Hwf Hlater) in Hp. }
  destruct (parse_returns lines Hwf Hlater)
    as (st & h & Hinv & Hf & Hparse & Hend & Hstart).
  simpl in *. set (info := zip_with block_info _ _) in *.
  rewrite Hparse in Hp. injection Hp as <-. simpl in *.
  rewrite length_seq in *.
  assert (Hlen : length h = length info).
  { destruct Hf as [-> _]. destruct Hinv as [Hs _ _]. by eapply Forall2_length. }
  assert (Hfield : forall j k, (j < length info)%nat ->
            (l ← seq 0 (length info) !! j; h !! l) ≫= (.!! k) = deref h j !! k).
  { intros j k Hj. rewrite (proj2 (lookup_seq 0 (length info) j j)) by lia.
    simpl. unfold deref.
    destruct (lookup_lt_is_Some_2 h j) as [d ->]; [lia|done]. }
  unfold end_time, start_time, track. simpl.
  rewrite Hfield, Hend by done.
  destruct (decide (i + 1 < length info)%nat) as [Hlt|Hge]; [|done].
  rewrite Hfield by done. destruct Hf as [_ Hf].
  split; [by rewrite Hf|]. apply Hstart. lia.
Qed.

(** The text of [demo_cue]: two tracks, the second one ending open. *)
Lemma parse_end_times_well_formed_witness :
  well_formed demo_cue = true /\
  exists p,
    parse demo_cue = Ok p /\
    forall i, (i < length (p_tracks p))%nat ->
      if decide (i + 1 < length (p_tracks p))%nat
      then end_time p i = start_time p (i + 1) /\
           is_Some (start_time p (i + 1))
      else end_time p i = Some VNone.
Proof.
  assert (Hwf : well_formed demo_cue = true) by evaluate.
  assert (Hlater : later_tracks_indexed demo_cue = true) by evaluate.
  split; [exact Hwf|].
  destruct (parse_returns demo_cue Hwf Hlater) as (st & h & _ & _ & Hp & _).
  eexists. split; [exact Hp|].
  exact (parse_end_times_well_formed demo_cue _ Hwf Hp).
Defined.

(** C2.  For every valid cue text containing K TRACK directives, parse
    returns exactly K track records, in ascending track-number order
    matching the order of first appearance in the input.  A valid cue text
    is the text of a sheet of lines of four kinds (a TRACK directive with
    its number; an INDEX directive with a two-digit index and a time stamp
    of three two-digit fields; another directive; a blank or other line),
    keywords in any letter case, with the track numbers ascending and an
    INDEX 01 line for every track after the first.  The K records carry
    the numbers of the directives in the order of the sheet, and are K
    distinct objects. *)
Theorem parse_track_count_and_order (sheet : list Sheet.line) :
  Sheet.valid sheet = true ->
  exists p,
    parse (map Sheet.text sheet) = Ok p /\
    length (p_tracks p) = Sheet.track_count sheet /\
    length (track_records p) = Sheet.track_count sheet /\
    numbers p = map (fun n => Some (VInt n)) (Sheet.numbers sheet) /\
    StronglySorted Z.lt (Sheet.numbers sheet) /\
    NoDup (p_tracks p).
Proof.
  intros Hvalid.
  destruct (parse_valid_cue _ (sheet_valid_cue sheet Hvalid))
    as (p & Hp & Hlen & Hrec & Hnum & Hnd).
  apply andb_true_iff in Hvalid as [[Hok Hasc]%andb_true_iff _].
  rewrite sheet_track_count in Hlen, Hrec by done.
  rewrite sheet_numbers in Hnum by done.
  exists p. split_and!; try done. by apply ascending_sorted.
Qed.

(** C2 at a sheet of three TRACK directives numbered 1, 2 and 10: the
    text of the sheet, and the three records that parse returns for it. *)
Lemma parse_track_count_and_order_witness :
  let lines :=
    ["REM GENRE Rock"; "Title Album"; "file album.flac WAVE"; "  ";
     "  track 01 AUDIO"; "    TITLE One"; "    INDEX 01 00:00:00" ++ cr;
     "  Track  02 AUDIO"; "    index 00 02:01:00"; "    index 01  02:03:37";
     "; the last track"; "TRACK 10"; "INDEX 01 09:59:74 "] in
  Sheet.valid demo_sheet = true /\
  map Sheet.text demo_sheet = lines /\
  exists p,
    parse lines = Ok p /\
    length (p_tracks p) = 3%nat /\
    length (track_records p) = 3%nat /\
    numbers p = [Some (VInt 1); Some (VInt 2); Some (VInt 10)] /\
    NoDup (p_tracks p).
Proof.
  cbv zeta. split; [evaluate|].
  match goal with |- ?A /\ _ => assert (Ht : A) by evaluate end.
  split; [exact Ht|]. rewrite <- Ht.
  destruct (parse_track_count_and_order demo_sheet)
    as (p & Hp & Hl & Hr & Hn & _ & Hnd); [evaluate|].
  exists p. split; [exact Hp|]. split; [exact Hl|]. split; [exact Hr|].
  split; [exact Hn|exact Hnd].
Defined.

(** C3, amended.  For every cue input from which no track is produced (no
    TRACK directive with a number), parse returns an empty track list
    together with the album record accumulated by the scan; the album
    record is the empty one only if no album-level directive set a field. *)
Theorem parse_without_tracks (lines : list string) :
  existsb starts_track lines = false ->
  exists st,
    parse_lines init lines = Ok st /\
    parse lines = Ok (Parsed (album_data st) [] []).
Proof.
  intros Hno. apply no_track_started in Hno.
  destruct (scan_header init lines) as (st & Hscan & [Hs Ht Hc]);
    [by split|done|].
  simpl in *. exists st. split; [done|].
  assert (Hfin : finish st = Ok (Parsed (album_data st) [] [])).
  { unfold finish, current_truthy. rewrite Hc, Ht. by inversion Hs. }
  unfold parse. destruct lines; [|by rewrite Hscan].
  simpl in Hscan. by injection Hscan as <-.
Qed.

(** C3 at a text whose only TRACK directive has no number. *)
Lemma parse_without_tracks_witness :
  exists st,
    parse_lines init ["TITLE Album"; "TRACK X AUDIO"] = Ok st /\
    parse ["TITLE Album"; "TRACK X AUDIO"] = Ok (Parsed (album_data st) [] []).
Proof.
  apply (parse_without_tracks ["TITLE Album"; "TRACK X AUDIO"]).
  evaluate.
Defined.

(** C3 as stated fails: a text made of a TITLE line produces no track, and
    parse returns the album record holding that title, not an empty one. *)
Lemma parse_title_only_album_not_empty :
  existsb starts_track ["TITLE Album"] = false /\
  parse ["TITLE Album"]
  = Ok (Parsed (<["title" := VStr "Album"]> ∅) [] []) /\
  (<["title" := VStr "Album"]> ∅ : dict) !! "title" = Some (VStr "Album").
Proof. split_and!; evaluate. Qed.

(** C6.  The claim (three integer fields convert to
    minutes*60 + seconds + frames/75, anything else to 0.0, never raising)
    fails on the code: with a frame count of 10^309 the fields are
    integers, but the division [f / 75.0] cannot convert the frame count to
    a float and raises OverflowError, which the [except] clause does not
    catch; the exception leaves [_parse_time] and [parse]. *)
Theorem parse_time_overflow :
  Str.py_int huge_frames = Some (10 ^ 309)%Z /\
  _parse_time ("00:00:" ++ huge_frames) = Raise OverflowError /\
  parse ["TRACK 01 AUDIO"; "INDEX 01 00:00:" ++ huge_frames]
  = Raise OverflowError.
Proof. split_and!; evaluate. Qed.

(** The example of C6: the time stamp 02:03:37 converts to the double
    nearest to 123.4933..., which is 8690070780980320 * 2^-46 and lies
    within 2^-46 of 9262/75. *)
Lemma parse_time_example :
  _parse_time "02:03:37"
  = Ok (SF2Prim (S754_finite false 8690070780980320 (-46))) /\
  (Z.abs (75 * 8690070780980320 - (2 * 60 * 75 + 3 * 75 + 37) * 2 ^ 46)
   <= 75)%Z.
Proof. split; [evaluate|]. by vm_compute. Qed.

(** The [mm:ss:ff] form proper: with two decimal digits per field the
    conversion returns the float of the formula and never raises. *)
Theorem parse_time_two_digit_fields (mm ss ff : string) :
  two_digit_field mm = true -> two_digit_field ss = true -> two_digit_field ff = true ->
  exists a x,
    float_of_int (Str.digits_value 0 mm * 60 + Str.digits_value 0 ss) = Ok a /\
    float_of_int (Str.digits_value 0 ff) = Ok x /\
    _parse_time (mm ++ ":" ++ ss ++ ":" ++ ff) = Ok (a + x / 75)%float.
Proof.
  intros [Hm Hmv]%two_digit_field_value [Hs Hsv]%two_digit_field_value
         [Hf Hfv]%two_digit_field_value.
  destruct (float_of_int_small
              (Str.digits_value 0 mm * 60 + Str.digits_value 0 ss))
    as [a Ha]; [lia|].
  destruct (float_of_int_small (Str.digits_value 0 ff)) as [x Hx]; [lia|].
  exists a, x. split; [done|]. split; [done|].
  rewrite parse_time_digits by done.
  unfold timestamp_seconds. by rewrite Hx, Ha.
Qed.

(** The time stamp 02:03:37. *)
Lemma parse_time_two_digit_fields_witness :
  exists a x,
    float_of_int (Str.digits_value 0 "02" * 60 + Str.digits_value 0 "03")
    = Ok a /\
    float_of_int (Str.digits_value 0 "37") = Ok x /\
    _parse_time ("02" ++ ":" ++ "03" ++ ":" ++ "37") = Ok (a + x / 75)%float.
Proof. apply (parse_time_two_digit_fields "02" "03" "37"); evaluate. Defined.

(** A time stamp that does not have exactly two colons, or that contains a
    character which is no part of an integer field (anything but digits,
    signs, underscores, the white space [int] skips, and colons), converts
    to 0.0 and does not raise. *)
Theorem parse_time_not_three_integers (t : string) :
  colons t <> 2%nat \/ Str.forall_chars time_char t = false ->
  _parse_time t = Ok 0%float.
Proof.
  intros H. apply parse_time_malformed. intros m s f Hmap.
  destruct H as [H|H].
  - apply (f_equal length) in Hmap.
    rewrite length_map, split_on_length in Hmap. simpl in Hmap. lia.
  - assert (Hall : forallb (Str.forall_chars time_char) (Str.split_on ":" t)
                   = false).
    { unfold Str.split_on. rewrite split_on_go_all by done.
      by rewrite H. }
    destruct (forallb_py_int _ Hall) as [i Hi]. rewrite Hmap in Hi.
    by destruct i as [|[|[|i]]].
Qed.

(** A time stamp with two fields, one with four, and one with a field
    that holds letters. *)
Lemma parse_time_not_three_integers_witness :
  _parse_time "02:03" = Ok 0%float /\
  _parse_time "00:02:03:37" = Ok 0%float /\
  _parse_time "02:03:xx" = Ok 0%float.
Proof.
  split; [|split]; apply parse_time_not_three_integers.
  - left. vm_compute. lia.
  - left. vm_compute. lia.
  - right. reflexivity.
Defined.

(** C8, amended.  A FILE directive, written with its keyword in any letter
    case, only touches the [file] field of the album record, and only when
    no track is being built: the track list, the track objects and every
    other album field are left as they are, and with a track being built
    the whole state is unchanged.  When it applies, a quoted name wins,
    else the first white-space-delimited token is taken, and a directive
    without argument changes nothing and raises nothing.  A FILE line
    after a TRACK directive that carries a number changes nothing in what
    parse returns. *)
Theorem file_directive_effect (indent keyword sep : string)
    (a : Sheet.file_argument) :
  Sheet.file_ok indent keyword sep a = true ->
  let raw := Sheet.file_text indent keyword sep a in
  (forall st, exists st',
     parse_line st raw = Ok st' /\
     tracks_data st' = tracks_data st /\ store st' = store st /\
     current_track_info st' = current_track_info st /\
     (forall k, k <> "file" -> album_data st' !! k = album_data st !! k) /\
     album_data st' !! "file"
     = match current_track_info st, Sheet.named a with
       | None, Some name => Some (VStr name)
       | _, _ => album_data st !! "file"
       end) /\
  (forall track pre post,
     Sheet.line_ok track = true -> Sheet.is_track track = true ->
     In (Sheet.text track) pre ->
     parse (pre ++ raw :: post) = parse (pre ++ post)).
Proof.
  intros Hok raw. destruct (file_text_read _ _ _ _ Hok) as [Hargs Hdo].
  fold raw in Hargs. split.
  - intros st. rewrite (parse_line_file _ _ _ Hargs), Hdo.
    eexists; split; [done|].
    destruct (current_track_info st) eqn:Hc; [by rewrite ?Hc|].
    destruct (Sheet.named a) as [name|]; [|by rewrite ?Hc].
    unfold set_album. simpl. split_and!; try done.
    + intros k Hk. by rewrite lookup_insert_ne.
    + by rewrite lookup_insert_eq.
  - intros track pre post Hl Ht Hin.
    apply (file_ignored_in_track raw _ pre post Hargs).
    apply existsb_exists. exists (Sheet.text track).
    split; [done|by apply text_starts_track].
Qed.

(** C8 at a FILE line with a quoted name of two words: read before any
    track it sets the file of the album record to the name; read after a
    TRACK directive it changes nothing in what parse returns. *)
Lemma file_directive_effect_witness :
  let raw := "file  " ++ Sheet.quote ++ "my album.flac" ++ Sheet.quote ++ " WAVE" in
  Sheet.file_ok "" "file" "  " (Sheet.Quoted "" "my album.flac" " WAVE") = true /\
  Sheet.file_text "" "file" "  " (Sheet.Quoted "" "my album.flac" " WAVE") = raw /\
  (exists st',
     parse_line init raw = Ok st' /\
     album_data st' !! "file" = Some (VStr "my album.flac")) /\
  parse (["  TRACK 01 AUDIO"] ++ raw :: ["INDEX 01 00:00:00"])
  = parse (["  TRACK 01 AUDIO"] ++ ["INDEX 01 00:00:00"]).
Proof.
  cbv zeta. split; [evaluate|]. split; [evaluate|].
  destruct (file_directive_effect "" "file" "  "
              (Sheet.Quoted "" "my album.flac" " WAVE"))
    as [Hstep Hparse]; [evaluate|].
  split.
  - destruct (Hstep init) as (st' & H1 & _ & _ & _ & _ & H2).
    exists st'. split; [exact H1|exact H2].
  - apply (Hparse (Sheet.Track "  " "TRACK" " " [0; 1]%nat " AUDIO"));
      [evaluate|evaluate|by left].
Defined.

(** C8 as stated fails: after a TRACK directive without a number no track
    is being built, and the FILE line sets the file of the album record. *)
Lemma file_after_unnumbered_track_applies :
  parse ["TRACK X AUDIO"] = Ok (Parsed ∅ [] []) /\
  parse ["TRACK X AUDIO"; "FILE a.wav WAVE"]
  = Ok (Parsed (<["file" := VStr "a.wav"]> ∅) [] []) /\
  (<["file" := VStr "a.wav"]> ∅ : dict) !! "file" = Some (VStr "a.wav").
Proof. split_and!; evaluate. Qed.

(** C9.  On the lines [TRACK 01 AUDIO], [INDEX 01 00:00:00],
    [TRACK X AUDIO] the scan ends with the track of the first directive
    both finalized (by the TRACK X line, which starts no new track) and
    still being built; the end of input appends it a second time, so the
    returned track list holds the same object twice: two records for two
    TRACK directives of which only one is validly numbered. *)
Theorem parse_appends_track_twice :
  let st := State ∅ [0%nat] [<["start_time" := VFloat 0]> (new_track ∅ 1)]
                  (Some 0%nat) in
  parse_lines init aliased_cue = Ok st /\
  finish st = Ok (Parsed ∅ [0; 0]%nat [aliased_track]) /\
  parse aliased_cue = Ok (Parsed ∅ [0; 0]%nat [aliased_track]) /\
  track_count aliased_cue = 2%nat /\
  omap track_number aliased_cue = [1%Z].
Proof. cbv zeta. split_and!; evaluate. Qed.

(** C10.  On well-formed-looking cue text (every TRACK directive numbered,
    every INDEX 01 time stamp convertible), parse raises the KeyError of
    the missing start time exactly when some track after the first has no
    INDEX 01 time stamp; whether the first (or only) track has one does not
    matter. *)
Theorem parse_raises_iff_later_track_unindexed (lines : list string) :
  well_formed lines = true ->
  (later_tracks_indexed lines = false ->
   parse lines = Raise (KeyError "start_time")) /\
  (later_tracks_indexed lines = true -> exists p, parse lines = Ok p).
Proof.
  intros Hwf. split.
  - by apply parse_raises.
  - intros Hlater.
    destruct (parse_returns lines Hwf Hlater) as (st & h & _ & _ & Hp & _).
    by eexists.
Qed.

(** C10 at two texts: the second track without INDEX 01 makes parse raise;
    the first track without INDEX 01 does not. *)
Lemma parse_raises_iff_later_track_unindexed_witness :
  parse ["TRACK 01 AUDIO"; "INDEX 01 00:00:00"; "TRACK 02 AUDIO"]
  = Raise (KeyError "start_time") /\
  exists p, parse ["TRACK 01 AUDIO"; "TRACK 02 AUDIO"; "INDEX 01 03:00:00"] = Ok p.
Proof.
  split.
  - apply (parse_raises_iff_later_track_unindexed
             ["TRACK 01 AUDIO"; "INDEX 01 00:00:00"; "TRACK 02 AUDIO"]);
      evaluate.
  - apply (parse_raises_iff_later_track_unindexed
             ["TRACK 01 AUDIO"; "TRACK 02 AUDIO"; "INDEX 01 03:00:00"]);
      evaluate.
Defined.

(** ** The album processor and the batch orchestrator *)

(** C4.  For every album that [process_album] processes (a non-empty
    track list, the call returning an outcome), the album outcome is
    success if and only if every per-track split outcome is success; every
    failed track has a diagnostic; on success the album has no diagnostic,
    and on failure its diagnostic is the concatenation, joined by newlines,
    of the diagnostics of all the failed tracks in track order, not only of
    the first. *)
Theorem album_outcome_aggregates (w : world) (od : option string)
    (album : dict) (tracks : list loc) (h : list dict) (dir : string)
    (flag : bool) (h' : list dict) (ok : bool) (diag : option string) :
  tracks <> [] ->
  outcome (process_album w od album tracks h dir flag) = Ok (h', (ok, diag)) ->
  exists input output results,
    Forall2 (fun l res =>
               _process_single_track w (deref h' l) album input output
                 (length tracks) = Ok res) tracks results /\
    (ok = true <-> Forall (fun res : outcome_t => fst res = true) results) /\
    Forall (fun res : outcome_t => fst res = false -> is_Some (snd res))
           results /\
    diag = if ok then None
           else Some (String.concat nl
                        (omap (fun res : outcome_t =>
                                 if fst res then None else snd res) results)).
Proof.
  intros Hne Hout.
  destruct (process_album_outcome w od album tracks h dir flag h' (ok, diag)
              Hout Hne) as (input & output & results & Hres & Hagg).
  exists input, output, results. split; [done|].
  apply aggregate_result in Hagg as [Hf [= -> ->]].
  split; [apply forallb_fst_Forall|]. split.
  - apply Forall2_Forall_r with (1 := Hres). apply Forall_forall.
    intros l _ res Hr. by eapply single_track_diagnostic.
  - by rewrite join_concat, failed_diagnostics_omap.
Qed.

(** C4 at an album of three tracks whose first split fails in the audio
    engine and whose third split fails with another error: the album
    fails, and its diagnostic carries both failures, in track order. *)
Lemma album_outcome_aggregates_witness :
  outcome (process_album flaky_world None demo_album [0; 1; 2]%nat
             three_tracks "music" false)
  = Ok (three_tracks_probed, (false, Some two_diagnostics)) /\
  exists input output results,
    Forall2 (fun l res =>
               _process_single_track flaky_world (deref three_tracks_probed l)
                 demo_album input output 3 = Ok res) [0; 1; 2]%nat results /\
    (false = true <-> Forall (fun res : outcome_t => fst res = true) results) /\
    Forall (fun res : outcome_t => fst res = false -> is_Some (snd res))
           results /\
    Some two_diagnostics
    = Some (String.concat nl
              (omap (fun res : outcome_t =>
                       if fst res then None else snd res) results)).
Proof.
  split; [evaluate|].
  apply (album_outcome_aggregates flaky_world None demo_album [0; 1; 2]%nat
           three_tracks "music" false); [done|].
  evaluate.
Defined.

(** C5.  The concurrency mode of a batch is one of two, never both.  With
    more than one album task the albums go to one album-level pool of
    [min(cpu_count, number of tasks, 4)] workers, every worker is given the
    flag False, the album processor does for every task, in task order,
    what it does when called on the album of the task with the flag False,
    and no track-level pool is created.  With exactly one task there is no
    album-level pool, the worker is given the flag True, and the album
    processor does what it does when called on the album with the flag
    True.  A call of [process_album] that returns has created a track-level
    pool, of [min(cpu_count, number of tracks, 4)] workers, exactly when
    the flag is True and the album has more than one track. *)
Theorem concurrency_modes_exclusive (w : world)
    (prepare : string -> result prepared) (tasks : list string) :
  let r := run_tasks w prepare tasks in
  ((1 < length tasks)%nat ->
     album_pools (trace r)
     = [Nat.min (cpu_count w) (Nat.min (length tasks) 4)] /\
     worker_calls (trace r) = map (fun t => (t, false)) tasks /\
     processor_events (trace r)
     = concat (map (album_run w prepare false) tasks) /\
     track_pools (trace r) = []) /\
  (forall t, tasks = [t] ->
     album_pools (trace r) = [] /\
     worker_calls (trace r) = [(t, true)] /\
     processor_events (trace r) = album_run w prepare true t) /\
  (forall od album tracks h dir flag x,
     outcome (process_album w od album tracks h dir flag) = Ok x ->
     track_pools (trace (process_album w od album tracks h dir flag))
     = if flag && (1 <? length tracks)%nat
       then [Nat.min (cpu_count w) (Nat.min (length tracks) 4)]
       else []).
Proof.
  split_and!.
  - by apply run_tasks_concurrent.
  - intros t ->. apply run_tasks_single.
  - intros. by eapply process_album_pools_returned.
Qed.

(** C5 at a batch of two albums, and at a batch of one album of two
    tracks: the directories made, the probes, the pools and the splits, in
    order. *)
Lemma concurrency_modes_exclusive_witness :
  (album_pools (trace (run_tasks quiet_world demo_prepare ["a.cue"; "b.cue"]))
   = [2%nat] /\
   worker_calls (trace (run_tasks quiet_world demo_prepare ["a.cue"; "b.cue"]))
   = [("a.cue", false); ("b.cue", false)] /\
   processor_events
     (trace (run_tasks quiet_world demo_prepare ["a.cue"; "b.cue"]))
   = [EMakedirs "music/Album"; EProbe "music/album.flac";
      ESplit (demo_store !!! 0%nat); ESplit (demo_store !!! 1%nat);
      EMakedirs "music/Album"; EProbe "music/album.flac";
      ESplit (demo_store !!! 0%nat); ESplit (demo_store !!! 1%nat)] /\
   track_pools (trace (run_tasks quiet_world demo_prepare ["a.cue"; "b.cue"]))
   = []) /\
  (album_pools (trace (run_tasks quiet_world demo_prepare ["a.cue"])) = [] /\
   worker_calls (trace (run_tasks quiet_world demo_prepare ["a.cue"]))
   = [("a.cue", true)] /\
   processor_events (trace (run_tasks quiet_world demo_prepare ["a.cue"]))
   = [EMakedirs "music/Album"; EProbe "music/album.flac"; ETrackPool 2;
      ESplit (demo_store !!! 0%nat); ESplit (demo_store !!! 1%nat)]) /\
  track_pools (trace (process_album quiet_world None demo_album [0; 1]%nat
                        demo_store "music" true))
  = [2%nat].
Proof.
  pose proof (concurrency_modes_exclusive quiet_world demo_prepare
                ["a.cue"; "b.cue"]) as Hmany.
  pose proof (concurrency_modes_exclusive quiet_world demo_prepare
                ["a.cue"]) as Hone.
  cbv zeta in Hmany, Hone.
  destruct Hmany as (Hmany & _ & _). destruct Hone as (_ & Hone & Htracks).
  split; [|split].
  - destruct Hmany as (H1 & H2 & H3 & H4); [simpl; lia|].
    split; [exact H1|]. split; [exact H2|]. split; [|exact H4].
    rewrite H3. evaluate.
  - destruct (Hone "a.cue" eq_refl) as (H1 & H2 & H3).
    split; [exact H1|]. split; [exact H2|]. rewrite H3. evaluate.
  - apply (Htracks None demo_album [0; 1]%nat demo_store "music" true
             (demo_store, (true, None))).
    evaluate.
Defined.

(** C7, amended.  A call of [process_album] with an empty track list never
    probes the duration, creates a pool or splits; when it returns, it
    returns the failure with the empty-track-list diagnostic, after having
    created the output directory and announced it; and it does return when
    the album title is a string or absent, the album record names a file
    and the directory can be created.  (A failure of one of these earlier
    steps leaves the call as an exception.) *)
Theorem process_album_empty_tracks (w : world) (od : option string)
    (album : dict) (h : list dict) (dir : string) (flag : bool) :
  let r := process_album w od album [] h dir flag in
  Forall (fun e => probes_or_splits e = false) (trace r) /\
  (forall res, outcome r = Ok res ->
     res = (h, (false, Some empty_tracks_message)) /\
     exists p, trace r = [EMakedirs p; output_directory_line p]) /\
  (forall title f,
     default (VStr "Untitled Album") (album !! "title") = VStr title ->
     album !! "file" = Some (VStr f) ->
     makedirs w (choose_output_path od dir (sanitize title)) = Ok tt ->
     outcome r = Ok (h, (false, Some empty_tracks_message))).
Proof.
  unfold process_album. simpl.
  destruct (default (VStr "Untitled Album") (album !! "title"))
    as [| | |title] eqn:Et;
    simpl; try (split; [constructor|split; [done|intros; done]]).
  destruct (makedirs w (choose_output_path od dir (sanitize title)))
    as [[]|e] eqn:Em; simpl.
  2:{ split; [by repeat constructor|]. split; [done|].
      intros title' f' [= <-] _ Hm. congruence. }
  unfold getitem.
  destruct (album !! "file") as [[| | |f]|] eqn:Ef; simpl;
    try (split; [by repeat constructor|split; [done|intros; done]]).
  split; [by repeat constructor|]. split.
  - intros res [= <-]. split; [done|]. by eexists.
  - done.
Qed.

(** C7 at the demo album: the call returns the rejection. *)
Lemma process_album_empty_tracks_witness :
  outcome (process_album quiet_world None demo_album [] [] "music" true)
  = Ok ([], (false, Some empty_tracks_message)).
Proof.
  apply (process_album_empty_tracks quiet_world None demo_album [] "music" true)
    with (title := "Album") (f := "album.flac"); evaluate.
Defined.

(** C7 as stated fails: with an empty track list the output directory is
    created, and announced, before the call is rejected. *)
Lemma process_album_empty_creates_directory :
  process_album quiet_world None demo_album [] [] "music" true
  = ([EMakedirs "music/Album"; output_directory_line "music/Album"],
     Ok ([], (false, Some empty_tracks_message))).
Proof. evaluate. Qed.
